(** * ClarityScript: a shallow embedding of the lexer, parser and HTML generator

    The three stages of the compiler ([clarity_lexer.py], [clarity_parser.py],
    [clarity_compiler.py]) are embedded as Rocq functions, one per method,
    with the state of the object each method works on passed in and out.

    - Source text is a [string] whose characters are read as code points
      below 256; [isspace], [isalpha] and [isalnum] are Python's on that
      range.
    - Python dictionaries, whose iteration order is insertion order, are
      association lists with unique keys.
    - [print] appends a line to a log carried in the state.
    - The lexer's main loop, the recursive descent of the parser and the
      recursion of the generator are bounded by a budget.  For the lexer
      a budget that is always enough is computed from the input.  The
      descent of the parser and the recursion of the generator stand for
      calls that the interpreter nests up to its recursion limit: the
      parser has a budget as a parameter of its functions, and [parse]
      runs them with one that is always enough; the generator, which can
      recurse without end through the component table, is run with the
      depth it is allowed.
    - [eval], which is not part of the compiler, is a parameter of the
      generator.  The text it is given runs with the compiler in scope,
      so the parameter is a function of the text and of the state of the
      compiler, and its result carries the state that the call leaves:
      a state of the compiler's own types, and the syntax tree as it
      was. *)

From Stdlib Require Import String Ascii List Arith ZArith Bool Lia DecimalString.
Import ListNotations.
Open Scope string_scope.
Open Scope nat_scope.

(** ** Results of fallible code *)

Inductive result (E A : Type) : Type :=
| Ok (a : A)
| Error (e : E).
Arguments Ok {E A} a.
Arguments Error {E A} e.

Definition rbind {E A B} (m : result E A) (k : A -> result E B) : result E B :=
  match m with
  | Ok a => k a
  | Error e => Error e
  end.

Notation "'let?' x ':=' m 'in' k" := (rbind m (fun x => k))
  (at level 10, x pattern, m at level 100, k at level 200).

(** ** Python's [str] methods used by the compiler *)

Module PyStr.

Definition LF : ascii := "010"%char.
Definition DQ : ascii := "034"%char.
Definition SQ : ascii := "039"%char.
Definition BACKSLASH : ascii := "092"%char.

Definition dq : string := String DQ "".
Definition sq : string := String SQ "".
Definition lf : string := String LF "".
Definition triple_quote : string := String DQ (String DQ (String DQ "")).

Definition code (c : ascii) : nat := nat_of_ascii c.

Definition in_range (lo hi : nat) (c : ascii) : bool :=
  (lo <=? code c) && (code c <=? hi).

(** [str.isspace], [str.isalpha] and [str.isalnum] on one character. *)
Definition isspace (c : ascii) : bool :=
  in_range 9 13 c || in_range 28 32 c || (code c =? 133) || (code c =? 160).

Definition isalpha (c : ascii) : bool :=
  in_range 65 90 c || in_range 97 122 c
  || (code c =? 170) || (code c =? 181) || (code c =? 186)
  || in_range 192 214 c || in_range 216 246 c || in_range 248 255 c.

Definition isnumeric (c : ascii) : bool :=
  in_range 48 57 c || (code c =? 178) || (code c =? 179) || (code c =? 185)
  || in_range 188 190 c.

Definition isalnum (c : ascii) : bool := isalpha c || isnumeric c.

(** [isalnum() or == '_'], the identifier characters of the lexer; it is
    also the class [\w] of the parser's patterns. *)
Definition isword (c : ascii) : bool := isalnum c || (c =? "_")%char.

Fixpoint sdrop (n : nat) (s : string) : string :=
  match n, s with
  | 0, _ => s
  | S n', String _ s' => sdrop n' s'
  | S _, EmptyString => EmptyString
  end.

Fixpoint stake (n : nat) (s : string) : string :=
  match n, s with
  | 0, _ => EmptyString
  | S n', String c s' => String c (stake n' s')
  | S _, EmptyString => EmptyString
  end.

(** [s[a:b]] for non-negative [a] and [b]. *)
Definition slice (a b : nat) (s : string) : string := stake (b - a) (sdrop a s).

(** [s[a:-b]]. *)
Definition slice_neg (a b : nat) (s : string) : string :=
  slice a (String.length s - b) s.

Definition startswith (p s : string) : bool := prefix p s.

Definition endswith (p s : string) : bool :=
  (String.length p <=? String.length s)
  && String.eqb (sdrop (String.length s - String.length p) s) p.

(** Number of leading characters of [s] that satisfy [p]: the distance a
    loop [while i < len(s) and p(s[i]): i += 1] travels. *)
Fixpoint span_len (p : ascii -> bool) (s : string) : nat :=
  match s with
  | String c s' => if p c then S (span_len p s') else 0
  | EmptyString => 0
  end.

Definition lstrip (s : string) : string := sdrop (span_len isspace s) s.

Fixpoint rstrip (s : string) : string :=
  match s with
  | EmptyString => EmptyString
  | String c s' =>
      match rstrip s' with
      | EmptyString => if isspace c then EmptyString else String c EmptyString
      | r => String c r
      end
  end.

Definition strip (s : string) : string := rstrip (lstrip s).

(** [sub in s]. *)
Fixpoint contains (sub s : string) : bool :=
  prefix sub s ||
  match s with
  | String _ s' => contains sub s'
  | EmptyString => false
  end.

(** [s.find(sub)], with [None] for -1; [i] is the offset of [s]. *)
Fixpoint find_from (sub s : string) (i : nat) : option nat :=
  if prefix sub s then Some i
  else match s with
       | String _ s' => find_from sub s' (S i)
       | EmptyString => None
       end.

Definition find (sub s : string) : option nat := find_from sub s 0.

Fixpoint rfind_from (sub s : string) (i : nat) : option nat :=
  match s with
  | String _ s' =>
      match rfind_from sub s' (S i) with
      | Some j => Some j
      | None => if prefix sub s then Some i else None
      end
  | EmptyString => if prefix sub s then Some i else None
  end.

Definition rfind (sub s : string) : option nat := rfind_from sub s 0.

(** [s.replace(old, new)] for a non-empty [old]: occurrences are replaced
    from the left and do not overlap; [skip] counts the characters of a
    match that remain to be passed over. *)
Fixpoint replace_go (old new s : string) (skip : nat) : string :=
  match s with
  | EmptyString => EmptyString
  | String c s' =>
      match skip with
      | S k => replace_go old new s' k
      | 0 =>
          if prefix old s
          then new ++ replace_go old new s' (String.length old - 1)
          else String c (replace_go old new s' 0)
      end
  end.

Fixpoint intersperse (new s : string) : string :=
  match s with
  | EmptyString => new
  | String c s' => new ++ String c (intersperse new s')
  end.

Definition replace (old new s : string) : string :=
  match old with
  | EmptyString => intersperse new s
  | _ => replace_go old new s 0
  end.

(** [s.split(sep)] for a one-character separator. *)
Fixpoint split (sep : ascii) (s : string) : list string :=
  match s with
  | EmptyString => [EmptyString]
  | String c s' =>
      if (c =? sep)%char then EmptyString :: split sep s'
      else match split sep s' with
           | h :: t => String c h :: t
           | [] => [String c EmptyString]
           end
  end.

(** [sep in s] followed by [a, b = s.split(sep, 1)]. *)
Fixpoint split_once (sep : ascii) (s : string) : option (string * string) :=
  match s with
  | EmptyString => None
  | String c s' =>
      if (c =? sep)%char then Some (EmptyString, s')
      else match split_once sep s' with
           | Some (a, b) => Some (String c a, b)
           | None => None
           end
  end.

Fixpoint spaces (n : nat) : string :=
  match n with
  | 0 => EmptyString
  | S n' => String " " (spaces n')
  end.

Definition join (sep : string) (l : list string) : string := String.concat sep l.

(** [str(n)] for a non-negative integer. *)
Definition str_of_nat (n : nat) : string := NilEmpty.string_of_uint (Nat.to_uint n).

(** Truth value of a string: non-empty. *)
Definition nonempty (s : string) : bool :=
  match s with
  | EmptyString => false
  | _ => true
  end.

(** [a.startswith(q) and a.endswith(q)] for a one-character [q]. *)
Definition quoted_by (q : string) (s : string) : bool := startswith q s && endswith q s.

End PyStr.

(** ** Python dictionaries: insertion-ordered, keys unique *)

Module Dict.

Definition t (V : Type) : Type := list (string * V).

Fixpoint get {V} (k : string) (d : t V) : option V :=
  match d with
  | [] => None
  | (k', v) :: d' => if String.eqb k' k then Some v else get k d'
  end.

Definition mem {V} (k : string) (d : t V) : bool :=
  match get k d with
  | Some _ => true
  | None => false
  end.

(** [d[k] = v]: an existing key keeps its place, a new key goes last. *)
Fixpoint set {V} (k : string) (v : V) (d : t V) : t V :=
  match d with
  | [] => [(k, v)]
  | (k', v') :: d' => if String.eqb k' k then (k', v) :: d' else (k', v') :: set k v d'
  end.

(** [del d[k]] for a key that is present: the key is unbound afterwards. *)
Fixpoint del {V} (k : string) (d : t V) : t V :=
  match d with
  | [] => []
  | (k', v') :: d' => if String.eqb k' k then del k d' else (k', v') :: del k d'
  end.

(** No key is bound twice, as in every Python dictionary. *)
Fixpoint unique_keys {V} (d : t V) : bool :=
  match d with
  | [] => true
  | (k, _) :: d' => negb (mem k d') && unique_keys d'
  end.

(** [for k, v in other.items(): d[prefix + k] = v]. *)
Definition update_with {V} (f : string -> string) (other : t V) (d : t V) : t V :=
  fold_left (fun acc kv => set (f (fst kv)) (snd kv) acc) other d.

End Dict.

(** ** The lexer ([clarity_lexer.py]) *)

Module Lexer.
Import PyStr.

Inductive TokenType : Type :=
| ELEMENT | ATTRIBUTE | CONTENT | VARIABLE_DECL | VARIABLE_REF | COLON
| STRING | FOR_LOOP | IF_STATEMENT | ELSE_STATEMENT | COMPONENT_DEF
| COMPONENT_USE | COMMENT | NEWLINE | INDENT | DEDENT | EOF
| MULTILINE_STRING.

Definition TokenType_eqb (a b : TokenType) : bool :=
  match a, b with
  | ELEMENT, ELEMENT | ATTRIBUTE, ATTRIBUTE | CONTENT, CONTENT
  | VARIABLE_DECL, VARIABLE_DECL | VARIABLE_REF, VARIABLE_REF | COLON, COLON
  | STRING, STRING | FOR_LOOP, FOR_LOOP | IF_STATEMENT, IF_STATEMENT
  | ELSE_STATEMENT, ELSE_STATEMENT | COMPONENT_DEF, COMPONENT_DEF
  | COMPONENT_USE, COMPONENT_USE | COMMENT, COMMENT | NEWLINE, NEWLINE
  | INDENT, INDENT | DEDENT, DEDENT | EOF, EOF
  | MULTILINE_STRING, MULTILINE_STRING => true
  | _, _ => false
  end.

Record Token : Type := mkToken {
  type : TokenType;
  value : string;
  line : nat;
  column : nat
}.

(** The four [raise SyntaxError] sites of the lexer. *)
Inductive SyntaxError : Type :=
| InconsistentIndentation (at_line : nat)
| UnterminatedMultilineString (start_line : nat)
| UnterminatedString (at_line : nat)
| ExpectedEquals (at_line : nat).

(** Ways in which [tokenize] can fail to return: a raised [SyntaxError],
    [indent_stack[-1]] on an empty stack, and the main loop not reaching
    the end of the source within the budget it is run with. *)
Inductive LexFailure : Type :=
| Raised (e : SyntaxError)
| StackIndexError
| LoopBudget.

Definition message (e : SyntaxError) : string :=
  match e with
  | InconsistentIndentation l => "Inconsistent indentation at line " ++ str_of_nat l
  | UnterminatedMultilineString l =>
      "Unterminated multi-line string starting at line " ++ str_of_nat l
  | UnterminatedString l => "Unterminated string at line " ++ str_of_nat l
  | ExpectedEquals l => "Expected = in variable declaration at line " ++ str_of_nat l
  end.

(** The mutable fields of a [Lexer] object; [indent_stack] has its top
    (the Python list's last element) at the head. *)
Record State : Type := mkState {
  tokens : list Token;
  position : nat;
  cur_line : nat;
  cur_column : nat;
  indent_stack : list nat
}.

Definition init : State := mkState [] 0 1 1 [0].

Definition emit (t : Token) (st : State) : State :=
  mkState (tokens st ++ [t]) (position st) (cur_line st) (cur_column st) (indent_stack st).

Definition emit_many (ts : list Token) (st : State) : State :=
  mkState (tokens st ++ ts) (position st) (cur_line st) (cur_column st) (indent_stack st).

Definition _advance (count : nat) (st : State) : State :=
  mkState (tokens st) (position st + count) (cur_line st) (cur_column st + count)
          (indent_stack st).

Definition set_stack (stk : list nat) (st : State) : State :=
  mkState (tokens st) (position st) (cur_line st) (cur_column st) stk.

Definition goto (pos ln col : nat) (st : State) : State :=
  mkState (tokens st) pos ln col (indent_stack st).

Section WithSource.

Variable source : string.

(** [source[i]] under its guard [i < len(source)]. *)
Definition at_pos (i : nat) : option ascii := String.get i source.

Definition char_is (i : nat) (c : ascii) : bool :=
  match at_pos i with
  | Some c' => (c' =? c)%char
  | None => false
  end.

(** The text from index [i] on. *)
Definition rest (i : nat) : string := sdrop i source.

(** [while position < len(source) and p(source[position]): _advance()]. *)
Definition advance_while (p : ascii -> bool) (st : State) : State :=
  _advance (span_len p (rest (position st))) st.

(** [while indent < indent_stack[-1]: pop; append DEDENT], returning the
    stack left and the number of DEDENT tokens appended. *)
Fixpoint pop_while_deeper (indent : nat) (stk : list nat) (n : nat)
  : result LexFailure (list nat * nat) :=
  match stk with
  | [] => Error StackIndexError
  | top :: below =>
      if indent <? top then pop_while_deeper indent below (S n)
      else Ok (stk, n)
  end.

Definition _handle_indentation (st : State) : result LexFailure State :=
  let start_pos := position st in
  let indent := span_len (fun c => isspace c && negb (c =? LF)%char) (rest start_pos) in
  let st := _advance indent st in
  if char_is (position st) LF || char_is (position st) "#" then Ok st
  else
    match indent_stack st with
    | [] => Error StackIndexError
    | current_indent :: _ =>
        if current_indent <? indent then
          Ok (emit (mkToken INDENT (spaces indent) (cur_line st) (start_pos + 1))
                   (set_stack (indent :: indent_stack st) st))
        else if indent <? current_indent then
          let? (stk, n) := pop_while_deeper indent (indent_stack st) 0 in
          let st := emit_many (repeat (mkToken DEDENT "" (cur_line st) (start_pos + 1)) n)
                              (set_stack stk st) in
          match stk with
          | [] => Error StackIndexError
          | top :: _ =>
              if indent =? top then Ok st
              else Error (Raised (InconsistentIndentation (cur_line st)))
          end
        else Ok st
    end.

Definition not_newline (c : ascii) : bool := negb (c =? LF)%char.

Definition _tokenize_comment (st : State) : State :=
  let start_pos := position st in
  let st := advance_while not_newline st in
  emit (mkToken COMMENT (slice start_pos (position st) source) (cur_line st) (start_pos + 1)) st.

(** The search loop of [_tokenize_multiline_string] over the text [s] that
    starts at [pos], which runs while three characters are left: the
    position, line and column at the closing delimiter, or [None] when the
    loop ends without one. *)
Fixpoint scan_multiline (s : string) (pos ln col : nat) : option (nat * nat * nat) :=
  match s with
  | EmptyString => None
  | String c s' =>
      if String.length s <? 3 then None
      else if prefix triple_quote s then Some (pos, ln, col)
      else if (c =? LF)%char then scan_multiline s' (pos + 1) (ln + 1) (1 + 1)
      else scan_multiline s' (pos + 1) ln (col + 1)
  end.

Definition _tokenize_multiline_string (st : State) : result LexFailure State :=
  let start_pos := position st in
  let start_line := cur_line st in
  let st := _advance 3 st in
  match scan_multiline (rest (position st)) (position st) (cur_line st) (cur_column st) with
  | None => Error (Raised (UnterminatedMultilineString start_line))
  | Some (pos, ln, col) =>
      let st := goto pos ln col st in
      let string_value := slice start_pos (pos + 3) source in
      Ok (_advance 3 (emit (mkToken MULTILINE_STRING string_value start_line (start_pos + 1)) st))
  end.

(** The search loop of [_tokenize_string] over the text [s] that starts at
    [pos]; [prev] is [source[pos - 1]].  It ends at the closing quote, or
    at the end of the source with the line counter it has reached. *)
Inductive StringScan : Type :=
| Closing (pos ln col : nat)
| NoClosing (ln : nat).

Fixpoint scan_string (quote_char prev : ascii) (s : string) (pos ln col : nat) : StringScan :=
  match s with
  | EmptyString => NoClosing ln
  | String c s' =>
      if (c =? quote_char)%char && ((pos =? 0) || negb (prev =? BACKSLASH)%char)
      then Closing pos ln col
      else if (c =? LF)%char then scan_string quote_char c s' (pos + 1) (ln + 1) (1 + 1)
      else scan_string quote_char c s' (pos + 1) ln (col + 1)
  end.

Definition _tokenize_string (quote_char : ascii) (st : State) : result LexFailure State :=
  let start_pos := position st in
  let st := _advance 1 st in
  match scan_string quote_char quote_char (rest (position st))
                    (position st) (cur_line st) (cur_column st) with
  | NoClosing ln => Error (Raised (UnterminatedString ln))
  | Closing pos ln col =>
      let st := goto pos ln col st in
      let string_value := slice start_pos (pos + 1) source in
      Ok (_advance 1 (emit (mkToken STRING string_value ln (start_pos + 1)) st))
  end.

(** End of the two scans shared by [_is_variable_declaration] and
    [_tokenize_variable_declaration]: past [$], the name, and whitespace. *)
Definition after_name_and_space (pos : nat) : nat :=
  let i := pos + 1 in
  let i := i + span_len isword (rest i) in
  i + span_len isspace (rest i).

Definition _is_variable_declaration (st : State) : bool :=
  char_is (after_name_and_space (position st)) "=".

Definition not_newline_or_hash (c : ascii) : bool :=
  negb (c =? LF)%char && negb (c =? "#")%char.

Definition _tokenize_variable_declaration (st : State) : result LexFailure State :=
  let start_pos := position st in
  let st := _advance 1 st in
  let st := advance_while isword st in
  let st := advance_while isspace st in
  if char_is (position st) "=" then
    let st := _advance 1 st in
    let st := advance_while isspace st in
    let st := advance_while not_newline_or_hash st in
    let decl := strip (slice start_pos (position st) source) in
    Ok (emit (mkToken VARIABLE_DECL decl (cur_line st) (start_pos + 1)) st)
  else Error (Raised (ExpectedEquals (cur_line st))).

Definition _tokenize_variable_reference (st : State) : State :=
  let start_pos := position st in
  let st := _advance 1 st in
  let st := advance_while isword st in
  emit (mkToken VARIABLE_REF (slice start_pos (position st) source) (cur_line st) (start_pos + 1)) st.

Definition _check_keyword_boundary (keyword_length : nat) (st : State) : bool :=
  match at_pos (position st + keyword_length) with
  | None => true
  | Some c => negb (isword c)
  end.

Definition _is_for_loop (st : State) : bool :=
  prefix "for " (rest (position st)) && _check_keyword_boundary 4 st.

Definition not_colon_or_newline (c : ascii) : bool :=
  negb (c =? ":")%char && negb (c =? LF)%char.

(** Header tokens: scan to the colon or the end of the line, optionally
    take the colon in, and emit the stripped text. *)
Definition header_token (ty : TokenType) (include_colon : bool) (st : State) : State :=
  let start_pos := position st in
  let st := advance_while not_colon_or_newline st in
  let st := if include_colon && char_is (position st) ":" then _advance 1 st else st in
  emit (mkToken ty (strip (slice start_pos (position st) source)) (cur_line st) (start_pos + 1)) st.

Definition _tokenize_for_loop : State -> State := header_token FOR_LOOP false.

Definition _is_if_statement (st : State) : bool :=
  prefix "if " (rest (position st)) && _check_keyword_boundary 2 st.

Definition _tokenize_if_statement : State -> State := header_token IF_STATEMENT false.

Definition _is_else_statement (st : State) : bool :=
  match at_pos (position st + 4) with
  | None => false
  | Some c4 =>
      prefix "else:" (rest (position st))
      || (prefix "else" (rest (position st)) && isspace c4)
  end.

Definition _tokenize_else_statement : State -> State := header_token ELSE_STATEMENT true.

Definition _is_component_definition (st : State) : bool :=
  prefix "@component" (rest (position st)).

Definition _tokenize_component_definition : State -> State := header_token COMPONENT_DEF true.

Definition _tokenize_component_use : State -> State := header_token COMPONENT_USE true.

Definition name_char (c : ascii) : bool :=
  isalnum c || (c =? "_")%char || (c =? "-")%char.

Definition _tokenize_element_or_attribute (st : State) : State :=
  let start_pos := position st in
  let st := advance_while name_char st in
  let i := position st
           + span_len (fun c => isspace c && negb (c =? LF)%char) (rest (position st)) in
  let next_non_space := at_pos i in
  let element_name := slice start_pos (position st) source in
  let is_element :=
    match next_non_space with
    | Some c => (c =? ":")%char || (negb (c =? LF)%char && negb (c =? "#")%char)
    | None => false
    end in
  if is_element then
    let st := emit (mkToken ELEMENT element_name (cur_line st) (start_pos + 1)) st in
    if char_is i ":" then st
    else
      let attr_start := position st in
      let st := advance_while not_colon_or_newline st in
      let attributes := strip (slice attr_start (position st) source) in
      if nonempty attributes
      then emit (mkToken ATTRIBUTE attributes (cur_line st) (attr_start + 1)) st
      else st
  else emit (mkToken CONTENT element_name (cur_line st) (start_pos + 1)) st.

(** One iteration of the [while] loop of [tokenize], entered with
    [position < len(source)]. *)
Definition step (st : State) : result LexFailure State :=
  let? st :=
    (if (position st =? 0) || char_is (position st - 1) LF
     then _handle_indentation st else Ok st) in
  match at_pos (position st) with
  | None => Ok st
  | Some char =>
      if prefix triple_quote (rest (position st)) then _tokenize_multiline_string st
      else if (char =? "#")%char then Ok (_tokenize_comment st)
      else if (char =? DQ)%char || (char =? SQ)%char then _tokenize_string char st
      else if (char =? "$")%char then
        if _is_variable_declaration st then _tokenize_variable_declaration st
        else Ok (_tokenize_variable_reference st)
      else if (char =? ":")%char then
        Ok (_advance 1 (emit (mkToken COLON ":" (cur_line st) (cur_column st)) st))
      else if (char =? "@")%char then
        if _is_component_definition st then Ok (_tokenize_component_definition st)
        else Ok (_tokenize_component_use st)
      else if (char =? LF)%char then
        let st := _advance 1 (emit (mkToken NEWLINE lf (cur_line st) (cur_column st)) st) in
        Ok (goto (position st) (cur_line st + 1) 1 st)
      else if _is_for_loop st then Ok (_tokenize_for_loop st)
      else if _is_if_statement st then Ok (_tokenize_if_statement st)
      else if _is_else_statement st then Ok (_tokenize_else_statement st)
      else if isalpha char || (char =? "_")%char then Ok (_tokenize_element_or_attribute st)
      else Ok (_advance 1 st)
  end.

Fixpoint main_loop (budget : nat) (st : State) : result LexFailure State :=
  if position st <? String.length source then
    match budget with
    | 0 => Error LoopBudget
    | S budget' => let? st' := step st in main_loop budget' st'
    end
  else Ok st.

(** [while indent_stack[-1] > 0: pop; append DEDENT]. *)
Fixpoint pop_while_open (stk : list nat) (n : nat) : result LexFailure (list nat * nat) :=
  match stk with
  | [] => Error StackIndexError
  | top :: below => if 0 <? top then pop_while_open below (S n) else Ok (stk, n)
  end.

Definition finish (st : State) : result LexFailure (list Token) :=
  let? (stk, n) := pop_while_open (indent_stack st) 0 in
  Ok (tokens st
      ++ repeat (mkToken DEDENT "" (cur_line st) (cur_column st)) n
      ++ [mkToken EOF "" (cur_line st) (cur_column st)])%list.

(** Every iteration consumes a character, so [len(source)] iterations are
    enough (theorem [main_loop_within_budget]). *)
Definition tokenize : result LexFailure (list Token) :=
  let? st := main_loop (String.length source) init in
  finish st.

End WithSource.

Definition count_type (ty : TokenType) (ts : list Token) : nat :=
  List.length (filter (fun t => TokenType_eqb (type t) ty) ts).

End Lexer.


(** ** The syntax tree ([clarity_ast.py]) *)

Module AST.

#[local] Set Warnings "-register-all".

(** An attribute value: [True] for a bare attribute, a string otherwise. *)
Inductive AttrValue : Type :=
| AttrTrue
| AttrStr (s : string).

Inductive ASTNode : Type :=
| Element (name : string) (attributes : Dict.t AttrValue)
          (children : list ASTNode) (content : option string)
| TextContent (value : string)
| VariableDeclaration (name : string) (value : string)
| VariableReference (name : string)
| ForLoop (iterator : string) (iterable : string) (body : list ASTNode)
| Conditional (condition : string) (if_body : list ASTNode)
              (else_body : option (list ASTNode))
| ComponentDefinition (name : string) (parameters : list string)
                      (default_values : Dict.t string) (body : list ASTNode)
| ComponentUse (name : string) (arguments : Dict.t string)
| StyleBlock (content : string)
| ScriptBlock (content : string)
| StringLiteral (value : string) (is_formatted : bool).

Record Document : Type := mkDocument { children : list ASTNode }.

End AST.

(** ** The patterns of [re.match] used by the parser

    A backtracking matcher for the fragment the parser's five patterns are
    written in: literal text, greedy repetition of a character class,
    numbered groups, sequence, and a greedy optional part. *)

Module Regex.
Import PyStr.

Inductive re : Type :=
| Lit (s : string)
| Many (p : ascii -> bool)
| Many1 (p : ascii -> bool)
| Group (i : nat) (r : re)
| Seq (r1 r2 : re)
| Opt (r : re).

Definition captures : Type := list (nat * string).

Fixpoint group (i : nat) (caps : captures) : option string :=
  match caps with
  | [] => None
  | (j, s) :: caps' => if j =? i then Some s else group i caps'
  end.

(** A group that takes part in every match of its pattern. *)
Definition group_str (i : nat) (caps : captures) : string :=
  match group i caps with
  | Some s => s
  | None => EmptyString
  end.

(** Greedy [p*]: the longest run first, shorter ones on failure of [k]. *)
Fixpoint many (p : ascii -> bool) (s : string) (k : string -> option captures)
  : option captures :=
  match s with
  | String c s' =>
      if p c then
        match many p s' k with
        | Some r => Some r
        | None => k s
        end
      else k s
  | EmptyString => k s
  end.

Fixpoint run (r : re) (s : string) (caps : captures)
             (k : string -> captures -> option captures) : option captures :=
  match r with
  | Lit l => if prefix l s then k (sdrop (String.length l) s) caps else None
  | Many p => many p s (fun s' => k s' caps)
  | Many1 p =>
      match s with
      | String c s' => if p c then many p s' (fun s'' => k s'' caps) else None
      | EmptyString => None
      end
  | Group i r' =>
      run r' s caps
          (fun s' caps' => k s' ((i, stake (String.length s - String.length s') s) :: caps'))
  | Seq r1 r2 => run r1 s caps (fun s' caps' => run r2 s' caps' k)
  | Opt r' =>
      match run r' s caps k with
      | Some c => Some c
      | None => k s caps
      end
  end.

(** [re.match(r, s)]: a match anchored at the start of [s]. *)
Definition re_match (r : re) (s : string) : option captures :=
  run r s [] (fun _ caps => Some caps).

Declare Scope re_scope.
Delimit Scope re_scope with re.
Infix ">>" := Seq (at level 61, right associativity) : re_scope.

Definition ws : ascii -> bool := isspace.
Definition word : ascii -> bool := isword.
Definition dot (c : ascii) : bool := negb (c =? LF)%char.
Definition not_rparen (c : ascii) : bool := negb (c =? ")")%char.

(** The pattern of [_parse_variable_declaration]: dollar, group 1 of one or more word characters, optional whitespace, [=], optional whitespace, group 2 of any characters up to a newline. *)
Definition variable_declaration_re : re :=
  (Lit "$" >> Group 1 (Many1 word) >> Many ws >> Lit "=" >> Many ws >> Group 2 (Many dot))%re.

(** The pattern [for\s+(\w+)\s+in\s+(.+)] of [_parse_for_loop]. *)
Definition for_loop_re : re :=
  (Lit "for" >> Many1 ws >> Group 1 (Many1 word) >> Many1 ws >> Lit "in" >> Many1 ws
   >> Group 2 (Many1 dot))%re.

(** The pattern [if\s+(.+)] of [_parse_conditional]. *)
Definition if_re : re := (Lit "if" >> Many1 ws >> Group 1 (Many1 dot))%re.

(** The pattern of [_parse_component_definition]: [@component], whitespace,
    group 1 of word characters, optional whitespace, a parenthesised group 2
    of characters other than the closing parenthesis, optional whitespace. *)
Definition component_definition_re : re :=
  (Lit "@component" >> Many1 ws >> Group 1 (Many1 word) >> Many ws >> Lit "("
   >> Group 2 (Many not_rparen) >> Lit ")" >> Many ws)%re.

(** The pattern of [_parse_component_use]: [@], group 1 of word characters,
    then optionally whitespace and a parenthesised group 2 of characters
    other than the closing parenthesis. *)
Definition component_use_re : re :=
  (Lit "@" >> Group 1 (Many1 word)
   >> Opt (Many ws >> Lit "(" >> Group 2 (Many not_rparen) >> Lit ")"))%re.

End Regex.

(** ** The parser ([clarity_parser.py]) *)

Module Parser.
Import PyStr Lexer AST Regex.

Definition TokenType_name (ty : TokenType) : string :=
  match ty with
  | ELEMENT => "ELEMENT" | ATTRIBUTE => "ATTRIBUTE" | CONTENT => "CONTENT"
  | VARIABLE_DECL => "VARIABLE_DECL" | VARIABLE_REF => "VARIABLE_REF"
  | COLON => "COLON" | STRING => "STRING" | FOR_LOOP => "FOR_LOOP"
  | IF_STATEMENT => "IF_STATEMENT" | ELSE_STATEMENT => "ELSE_STATEMENT"
  | COMPONENT_DEF => "COMPONENT_DEF" | COMPONENT_USE => "COMPONENT_USE"
  | COMMENT => "COMMENT" | NEWLINE => "NEWLINE" | INDENT => "INDENT"
  | DEDENT => "DEDENT" | EOF => "EOF" | MULTILINE_STRING => "MULTILINE_STRING"
  end.

(** [str] of an enumeration member, as an f-string renders it. *)
Definition TokenType_str (ty : TokenType) : string := "TokenType." ++ TokenType_name ty.

(** [Token.__repr__]. *)
Definition Token_repr (t : Token) : string :=
  "Token(" ++ TokenType_str (type t) ++ ", '" ++ value t ++ "', line="
  ++ str_of_nat (line t) ++ ", col=" ++ str_of_nat (column t) ++ ")".

(** The mutable fields of a [Parser] object, and the lines it printed. *)
Record State : Type := mkState {
  position : nat;
  variables : Dict.t string;
  components : Dict.t ASTNode;
  printed : list string
}.

Definition init : State := mkState 0 [] [] [].

(** What a call of a parser method comes to: it returns, an index into
    [tokens] is out of range ([IndexError]), or the budget is used up,
    which stands for the descent nesting deeper than the interpreter's
    recursion limit ([RecursionError]). *)
Inductive Outcome (A : Type) : Type :=
| Return (a : A) (st : State)
| IndexError
| Depth.
Arguments Return {A} a st.
Arguments IndexError {A}.
Arguments Depth {A}.

Definition M (A : Type) : Type := State -> Outcome A.

Definition ret {A} (a : A) : M A := fun st => Return a st.

Definition bind {A B} (m : M A) (k : A -> M B) : M B :=
  fun st =>
    match m st with
    | Return a st' => k a st'
    | IndexError => IndexError
    | Depth => Depth
    end.

Notation "x <- m ;; k" := (bind m (fun x => k))
  (at level 62, m at next level, right associativity).
Notation "m ;;; k" := (bind m (fun _ => k))
  (at level 62, right associativity).

Section WithTokens.

Variable tokens : list Token.

(** [tokens[pos]], or nothing when [pos] is out of range. *)
Definition token_at (pos : nat) : option Token := nth_error tokens pos.

Definition _peek : M Token :=
  fun st =>
    match token_at (position st) with
    | Some t => Return t st
    | None => IndexError
    end.

Definition _is_at_end : M bool :=
  fun st =>
    if List.length tokens <=? position st then Return true st
    else (t <- _peek ;; ret (TokenType_eqb (type t) EOF)) st.

Definition _check (ty : TokenType) : M bool :=
  at_end <- _is_at_end ;;
  if at_end then ret false
  else t <- _peek ;; ret (TokenType_eqb (type t) ty).

(** [return self.tokens[self.position - 1]], where index -1 is the last
    token. *)
Definition previous : M Token :=
  fun st =>
    let found :=
      match position st with
      | 0 => nth_error tokens (List.length tokens - 1)
      | S p => nth_error tokens p
      end in
    match found with
    | Some t => Return t st
    | None => IndexError
    end.

(** [self.position += 1]. *)
Definition move_on : M unit :=
  fun st => Return tt (mkState (position st + 1) (variables st) (components st) (printed st)).

Definition _advance : M Token :=
  at_end <- _is_at_end ;;
  (if at_end then ret tt else move_on) ;;;
  previous.

Definition _error (message : string) : M unit :=
  fun st =>
    Return tt (mkState (position st) (variables st) (components st)
                       (printed st ++ ["Parser Error: " ++ message])).

Definition _consume (expected_type : TokenType) : M Token :=
  ok <- _check expected_type ;;
  if ok then _advance
  else
    token <- _peek ;;
    _error ("Expected " ++ TokenType_str expected_type ++ " but got "
            ++ TokenType_str (type token) ++ " at line " ++ str_of_nat (line token)) ;;;
    ret token.

Definition get_variables : M (Dict.t string) := fun st => Return (variables st) st.

Definition set_variable (k v : string) : M unit :=
  fun st =>
    Return tt (mkState (position st) (Dict.set k v (variables st)) (components st) (printed st)).

Definition set_component (k : string) (c : ASTNode) : M unit :=
  fun st =>
    Return tt (mkState (position st) (variables st) (Dict.set k c (components st)) (printed st)).

(** [if (v.startswith(q1) and v.endswith(q1)) or (... q2 ...): v = v[1:-1]]. *)
Definition unquote (quotes : list string) (v : string) : string :=
  if existsb (fun q => quoted_by q v) quotes then slice_neg 1 1 v else v.

Definition _parse_variable_declaration : M ASTNode :=
  token <- _consume VARIABLE_DECL ;;
  match re_match variable_declaration_re (value token) with
  | None =>
      _error ("Invalid variable declaration: " ++ value token) ;;;
      ret (VariableDeclaration "error" "")
  | Some m =>
      let var_name := group_str 1 m in
      let var_value := unquote [dq] (strip (group_str 2 m)) in
      set_variable ("$" ++ var_name) var_value ;;;
      ret (VariableDeclaration var_name var_value)
  end.

Definition _parse_multiline_string : M ASTNode :=
  token <- _consume MULTILINE_STRING ;;
  ret (TextContent (value token)).

(** The character loop of [_parse_attributes]: the pieces of the attribute
    text separated by spaces that are outside quotes. *)
Fixpoint attr_parts (s : string) (in_quotes : bool) (quote_char : option ascii)
                    (current_attr : string) : list string :=
  match s with
  | EmptyString => if nonempty (strip current_attr) then [strip current_attr] else []
  | String char s' =>
      let '(in_quotes, quote_char) :=
        if (char =? DQ)%char || (char =? SQ)%char then
          if negb in_quotes then (true, Some char)
          else
            match quote_char with
            | Some q => if (char =? q)%char then (false, None) else (in_quotes, quote_char)
            | None => (in_quotes, quote_char)
            end
        else (in_quotes, quote_char) in
      let current_attr := current_attr ++ String char EmptyString in
      if (char =? " ")%char && negb in_quotes then
        (if nonempty (strip current_attr) then [strip current_attr] else [])
        ++ attr_parts s' in_quotes quote_char EmptyString
      else attr_parts s' in_quotes quote_char current_attr
  end.

(** [for name, val in variables.items(): if name in value: value =
    value.replace(name, val)]. *)
Definition substitute (vars : Dict.t string) (value : string) : string :=
  fold_left (fun value kv => if contains (fst kv) value then replace (fst kv) (snd kv) value
                             else value)
            vars value.

Definition parse_attribute (vars : Dict.t string) (attributes : Dict.t AttrValue) (attr : string)
  : Dict.t AttrValue :=
  match split_once "=" attr with
  | Some (key, value) =>
      let key := strip key in
      let value := unquote [dq; sq] (strip value) in
      Dict.set key (AttrStr (substitute vars value)) attributes
  | None => Dict.set (strip attr) AttrTrue attributes
  end.

Definition _parse_attributes (attr_str : string) : M (Dict.t AttrValue) :=
  vars <- get_variables ;;
  ret (fold_left (parse_attribute vars) (attr_parts attr_str false None EmptyString) []).

Definition _parse_content : M string :=
  is_string <- _check STRING ;;
  if is_string then
    token <- _consume STRING ;;
    ret (unquote [dq] (value token))
  else
    is_multiline <- _check MULTILINE_STRING ;;
    if is_multiline then
      token <- _consume MULTILINE_STRING ;;
      ret (value token)
    else
      is_ref <- _check VARIABLE_REF ;;
      if is_ref then
        token <- _consume VARIABLE_REF ;;
        vars <- get_variables ;;
        match Dict.get (value token) vars with
        | Some v => ret v
        | None => ret (value token)
        end
      else
        is_content <- _check CONTENT ;;
        if is_content then
          token <- _consume CONTENT ;;
          ret (value token)
        else ret EmptyString.

(** The block-owning constructs take the parser of a block as an argument;
    [_parse_statement] and [_parse_block] below tie the knot. *)
Section WithBlock.

Variable _parse_block : M (list ASTNode).

(** [NEWLINE INDENT block DEDENT], each token consumed leniently. *)
Definition indented_block : M (list ASTNode) :=
  _consume NEWLINE ;;;
  _consume INDENT ;;;
  body <- _parse_block ;;
  _consume DEDENT ;;;
  ret body.

Definition _parse_element : M ASTNode :=
  element_token <- _consume ELEMENT ;;
  let element_name := value element_token in
  has_attributes <- _check ATTRIBUTE ;;
  attributes <- (if has_attributes
                 then attr_token <- _consume ATTRIBUTE ;; _parse_attributes (value attr_token)
                 else ret []) ;;
  _consume COLON ;;;
  c1 <- _check STRING ;;
  c2 <- _check VARIABLE_REF ;;
  c3 <- _check CONTENT ;;
  c4 <- _check MULTILINE_STRING ;;
  if c1 || c2 || c3 || c4 then
    content <- _parse_content ;;
    ret (Element element_name attributes [] (Some content))
  else
    is_newline <- _check NEWLINE ;;
    if is_newline then
      _consume NEWLINE ;;;
      is_indent <- _check INDENT ;;
      if is_indent then
        _consume INDENT ;;;
        children <- _parse_block ;;
        _consume DEDENT ;;;
        ret (Element element_name attributes children None)
      else ret (Element element_name attributes [] None)
    else ret (Element element_name attributes [] None).

Definition _parse_for_loop : M ASTNode :=
  for_token <- _consume FOR_LOOP ;;
  match re_match for_loop_re (value for_token) with
  | None =>
      _error ("Invalid for loop syntax: " ++ value for_token) ;;;
      ret (ForLoop "error" "error" [])
  | Some m =>
      let iterator := group_str 1 m in
      let iterable := group_str 2 m in
      _consume COLON ;;;
      body <- indented_block ;;
      ret (ForLoop iterator iterable body)
  end.

Definition _parse_conditional : M ASTNode :=
  if_token <- _consume IF_STATEMENT ;;
  match re_match if_re (value if_token) with
  | None =>
      _error ("Invalid if statement syntax: " ++ value if_token) ;;;
      ret (Conditional "True" [] None)
  | Some m =>
      let condition := group_str 1 m in
      _consume COLON ;;;
      if_body <- indented_block ;;
      has_else <- _check ELSE_STATEMENT ;;
      if has_else then
        _consume ELSE_STATEMENT ;;;
        else_body <- indented_block ;;
        ret (Conditional condition if_body (Some else_body))
      else ret (Conditional condition if_body None)
  end.

(** The parameter loop of [_parse_component_definition]. *)
Definition parse_parameter (acc : list string * Dict.t string) (param : string)
  : list string * Dict.t string :=
  let param := strip param in
  match split_once "=" param with
  | Some (param_name, default) =>
      let param_name := strip param_name in
      let default := unquote [dq; sq] (strip default) in
      (fst acc ++ [param_name], Dict.set param_name default (snd acc))%list
  | None => (fst acc ++ [param], snd acc)%list
  end.

Definition parse_parameters (params_str : string) : list string * Dict.t string :=
  if nonempty (strip params_str)
  then fold_left parse_parameter (split "," params_str) ([], [])
  else ([], []).

Definition _parse_component_definition : M ASTNode :=
  comp_token <- _consume COMPONENT_DEF ;;
  match re_match component_definition_re (value comp_token) with
  | None =>
      _error ("Invalid component definition: " ++ value comp_token) ;;;
      ret (ComponentDefinition "error" [] [] [])
  | Some m =>
      let name := group_str 1 m in
      let '(parameters, default_values) := parse_parameters (group_str 2 m) in
      (if endswith ":" (value comp_token) then ret tt
       else _consume COLON ;;; ret tt) ;;;
      body <- indented_block ;;
      let component := ComponentDefinition name parameters default_values body in
      set_component name component ;;;
      ret component
  end.

End WithBlock.

(** The argument loop of [_parse_component_use]. *)
Fixpoint parse_arguments (args : list string) (arguments : Dict.t string)
  : M (Dict.t string) :=
  match args with
  | [] => ret arguments
  | arg :: args' =>
      let arg := strip arg in
      match split_once "=" arg with
      | Some (arg_name, value) =>
          let arg_name := strip arg_name in
          let value := unquote [dq; sq] (strip value) in
          parse_arguments args' (Dict.set arg_name value arguments)
      | None =>
          _error ("Positional arguments not supported: " ++ arg) ;;;
          parse_arguments args' arguments
      end
  end.

Definition _parse_component_use : M ASTNode :=
  comp_token <- _consume COMPONENT_USE ;;
  match re_match component_use_re (value comp_token) with
  | None =>
      _error ("Invalid component use: " ++ value comp_token) ;;;
      ret (ComponentUse "error" [])
  | Some m =>
      let name := group_str 1 m in
      let args_str :=
        match group 2 m with
        | Some g => g
        | None => EmptyString
        end in
      arguments <- (if nonempty (strip args_str)
                    then parse_arguments (split "," args_str) []
                    else ret []) ;;
      ret (ComponentUse name arguments)
  end.

Definition some {A} (m : M A) : M (option A) := a <- m ;; ret (Some a).

(** [statements.append(statement)] when the statement is not [None]. *)
Definition append_if {A} (o : option A) (l : list A) : list A :=
  match o with
  | Some a => a :: l
  | None => l
  end.

Fixpoint _parse_statement (budget : nat) : M (option ASTNode) :=
  match budget with
  | 0 => fun _ => Depth
  | S budget' =>
      token <- _peek ;;
      match type token with
      | VARIABLE_DECL => some _parse_variable_declaration
      | COMPONENT_DEF => some (_parse_component_definition (_parse_block budget'))
      | ELEMENT => some (_parse_element (_parse_block budget'))
      | FOR_LOOP => some (_parse_for_loop (_parse_block budget'))
      | IF_STATEMENT => some (_parse_conditional (_parse_block budget'))
      | COMPONENT_USE => some _parse_component_use
      | NEWLINE | COMMENT => _advance ;;; ret None
      | MULTILINE_STRING => some _parse_multiline_string
      | _ =>
          _error ("Unexpected token: " ++ Token_repr token) ;;;
          _advance ;;;
          ret None
      end
  end

with _parse_block (budget : nat) : M (list ASTNode) :=
  match budget with
  | 0 => fun _ => Depth
  | S budget' =>
      at_end <- _is_at_end ;;
      if at_end then ret []
      else
        is_dedent <- _check DEDENT ;;
        if is_dedent then ret []
        else
          statement <- _parse_statement budget' ;;
          statements <- _parse_block budget' ;;
          ret (append_if statement statements)
  end.

(** The loop of [parse]; its second test repeats what [_is_at_end] found. *)
Fixpoint parse_loop (budget : nat) : M (list ASTNode) :=
  match budget with
  | 0 => fun _ => Depth
  | S budget' =>
      at_end <- _is_at_end ;;
      if at_end then ret []
      else
        token <- _peek ;;
        if TokenType_eqb (type token) EOF then ret []
        else
          node <- _parse_statement budget' ;;
          nodes <- parse_loop budget' ;;
          ret (append_if node nodes)
  end.

(** Twice the number of tokens, and two, is budget enough (theorem
    [parse_returns]). *)
Definition parse_budget : nat := 2 * List.length tokens + 2.

(** [parse] under a recursion limit that the descent does not reach;
    [parse_loop] with a smaller budget is the descent under a limit that
    it can reach. *)
Definition parse : Outcome Document :=
  (children <- parse_loop parse_budget ;; ret (mkDocument children)) init.

End WithTokens.

End Parser.

(** ** The HTML generator ([clarity_compiler.py]) *)

Module Compiler.
Import PyStr AST.

(** A [ComponentDefinition] as the component table keeps it. *)
Record Component : Type := mkComponent {
  name : string;
  parameters : list string;
  default_values : Dict.t string;
  body : list ASTNode
}.

(** The mutable fields of a [Compiler] object, and the lines it printed.
    The indentation counter is a Python integer: the generator itself
    keeps it at zero or above, code in a condition can set it below. *)
Record State : Type := mkState {
  output_lines : list string;
  indentation : Z;
  variables : Dict.t string;
  components : Dict.t Component;
  printed : list string
}.

Definition init : State := mkState [] 0 [] [] [].

(** What a call of [eval] on a condition text comes to.  The builtin runs
    the text in the frame of [_compile_conditional], where [self] is in
    scope, so besides computing a value it can write to the fields of the
    compiler: a result carries the state that the call leaves.  The call
    returns a value, of which only the truth value is used; or it raises
    an [Exception], which [except Exception] catches and of which only
    the message is used; or an exception leaves [_compile_conditional],
    because the text raises one that is not an [Exception] ([SystemExit],
    [KeyboardInterrupt]), which passes the handler, or because the truth
    test of the value raises; or the call does not return. *)
Inductive EvalResult : Type :=
| Value (truthy : bool) (st : State)
| Raises (e : string) (st : State)
| Escapes (e : string)
| Hangs.

(** Ways in which emission can fail to return: the nesting of
    [_compile_node] calls goes beyond the depth it is allowed (the
    interpreter's [RecursionError]), an exception leaves
    [_compile_conditional], or the evaluation of a condition does not
    return. *)
Inductive Failure : Type :=
| RecursionDepth
| Escaped (e : string)
| NoReturn.

Definition append_line (l : string) (st : State) : State :=
  mkState (output_lines st ++ [l]) (indentation st) (variables st) (components st) (printed st).

Definition set_output (ls : list string) (st : State) : State :=
  mkState ls (indentation st) (variables st) (components st) (printed st).

Definition set_indentation (n : Z) (st : State) : State :=
  mkState (output_lines st) n (variables st) (components st) (printed st).

Definition set_variables (vs : Dict.t string) (st : State) : State :=
  mkState (output_lines st) (indentation st) vs (components st) (printed st).

Definition set_components (cs : Dict.t Component) (st : State) : State :=
  mkState (output_lines st) (indentation st) (variables st) cs (printed st).

Definition print (l : string) (st : State) : State :=
  mkState (output_lines st) (indentation st) (variables st) (components st) (printed st ++ [l]).

(** [lines[-1] = f(lines[-1])] on a non-empty list. *)
Definition update_last (f : string -> string) (ls : list string) : list string :=
  removelast ls ++ [f (last ls EmptyString)].

(** The first pass: definitions at this level, and below elements. *)
Fixpoint collect_node (node : ASTNode) (comps : Dict.t Component) : Dict.t Component :=
  match node with
  | ComponentDefinition n ps dv b => Dict.set n (mkComponent n ps dv b) comps
  | Element _ _ children _ => fold_left (fun acc child => collect_node child acc) children comps
  | _ => comps
  end.

Definition _collect_components (nodes : list ASTNode) (st : State) : State :=
  set_components (fold_left (fun acc node => collect_node node acc) nodes (components st)) st.

Definition compile_attribute (kv : string * AttrValue) : string :=
  match snd kv with
  | AttrTrue => fst kv
  | AttrStr v => fst kv ++ "=" ++ dq ++ v ++ dq
  end.

Definition _compile_attributes (attributes : Dict.t AttrValue) : string :=
  join " " (map compile_attribute attributes).

Definition _replace_variables (vars : Dict.t string) (text : string) : string :=
  fold_left (fun text kv => if contains (fst kv) text then replace (fst kv) (snd kv) text
                            else text)
            vars text.

(** [' ' * n] for an integer [n]: the empty text when [n] is negative. *)
Definition spaces (n : Z) : string := PyStr.spaces (Z.to_nat n).

(** The opening tag of an element at the current indentation. *)
Definition opening_tag (tag : string) (attributes : Dict.t AttrValue) (st : State) : string :=
  let attrs := _compile_attributes attributes in
  if nonempty attrs
  then spaces (indentation st) ++ "<" ++ tag ++ " " ++ attrs ++ ">"
  else spaces (indentation st) ++ "<" ++ tag ++ ">".

Definition closing_tag (tag : string) (st : State) : string :=
  spaces (indentation st) ++ "</" ++ tag ++ ">".

(** First search of [_compile_special_element]: a text child that is a
    triple-quoted block. *)
Fixpoint direct_multiline (children : list ASTNode) : option string :=
  match children with
  | [] => None
  | TextContent content :: children' =>
      if startswith triple_quote (strip content) && endswith triple_quote (strip content)
      then Some (slice_neg 3 3 (strip content))
      else direct_multiline children'
  | _ :: children' => direct_multiline children'
  end.

(** Second search: a triple-quoted block inside the inline content of a
    child element. *)
Fixpoint nested_multiline (children : list ASTNode) : option string :=
  match children with
  | [] => None
  | Element _ _ _ (Some content) :: children' =>
      if nonempty content && contains triple_quote content then
        match find triple_quote content, rfind triple_quote content with
        | Some i, Some end_idx =>
            let start_idx := i + 3 in
            if start_idx <? end_idx then Some (slice start_idx end_idx content)
            else nested_multiline children'
        | _, _ => nested_multiline children'
        end
      else nested_multiline children'
  | _ :: children' => nested_multiline children'
  end.

Definition truthy_str (o : option string) : bool :=
  match o with
  | Some s => nonempty s
  | None => false
  end.

Definition _compile_special_element (tag : string) (attributes : Dict.t AttrValue)
                                    (children : list ASTNode) (st : State) : State :=
  let st := append_line (opening_tag tag attributes st) st in
  let multiline_content := direct_multiline children in
  let multiline_content :=
    if truthy_str multiline_content then multiline_content
    else match nested_multiline children with
         | Some s => Some s
         | None => multiline_content
         end in
  let st :=
    match multiline_content with
    | Some s =>
        if nonempty s
        then fold_left (fun st line => append_line (spaces (indentation st + 2) ++ line) st)
                       (split LF s) st
        else st
    | None => st
    end in
  append_line (closing_tag tag st) st.

Definition _compile_text (value : string) (st : State) : State :=
  append_line (spaces (indentation st) ++ _replace_variables (variables st) value) st.

Definition _compile_variable_declaration (n value : string) (st : State) : State :=
  set_variables (Dict.set ("$" ++ n) value (variables st)) st.

(** The items of a loop over a variable bound to [raw_value]. *)
Definition loop_items (raw_value : string) : list string :=
  if startswith "[" raw_value && endswith "]" raw_value then
    let items := map strip (split "," (slice_neg 1 1 raw_value)) in
    if forallb (quoted_by dq) items then map (slice_neg 1 1) items else items
  else [raw_value].

(** [for k, v in variables.items(): condition = condition.replace(k, '"v"')]. *)
Definition substitute_condition (vars : Dict.t string) (condition : string) : string :=
  fold_left (fun condition kv => replace (fst kv) (dq ++ snd kv ++ dq) condition) vars condition.

Section WithEval.

Variable eval : string -> State -> EvalResult.

Section WithNode.

(** Emission of one node one call deeper. *)
Variable _compile_node : ASTNode -> State -> result Failure State.

(** [for node in nodes: self._compile_node(node)]. *)
Fixpoint compile_nodes (nodes : list ASTNode) (st : State) : result Failure State :=
  match nodes with
  | [] => Ok st
  | node :: nodes' =>
      match _compile_node node st with
      | Ok st' => compile_nodes nodes' st'
      | Error f => Error f
      end
  end.

Definition _compile_element (tag : string) (attributes : Dict.t AttrValue)
                            (children : list ASTNode) (content : option string)
                            (st : State) : result Failure State :=
  if String.eqb tag "document" then
    let st := append_line "<html>" (append_line "<!DOCTYPE html>" st) in
    match compile_nodes children st with
    | Ok st => Ok (append_line "</html>" st)
    | Error f => Error f
    end
  else if String.eqb tag "style" || String.eqb tag "script" then
    Ok (_compile_special_element tag attributes children st)
  else
    let st := append_line (opening_tag tag attributes st) st in
    if truthy_str content then
      let content := _replace_variables (variables st)
                       (match content with Some c => c | None => EmptyString end) in
      Ok (set_output
            (update_last (fun l => slice_neg 0 1 l ++ ">" ++ content ++ "</" ++ tag ++ ">")
                         (output_lines st))
            st)
    else
      match
        (match children with
         | [] => Ok st
         | _ :: _ =>
             match compile_nodes children (set_indentation (indentation st + 2) st) with
             | Ok st => Ok (set_indentation (indentation st - 2) st)
             | Error f => Error f
             end
         end)
      with
      | Ok st => Ok (append_line (closing_tag tag st) st)
      | Error f => Error f
      end.

(** The body of the loop of [_compile_for_loop], once per item. *)
Fixpoint loop_over (temp_var : string) (body : list ASTNode) (items : list string) (st : State)
  : result Failure State :=
  match items with
  | [] => Ok st
  | item :: items' =>
      let st := set_variables (Dict.set temp_var item (variables st)) st in
      match compile_nodes body st with
      | Ok st =>
          let st := if Dict.mem temp_var (variables st)
                    then set_variables (Dict.del temp_var (variables st)) st
                    else st in
          loop_over temp_var body items' st
      | Error f => Error f
      end
  end.

Definition _compile_for_loop (iterator iterable : string) (body : list ASTNode) (st : State)
  : result Failure State :=
  if startswith "$" iterable then
    match Dict.get iterable (variables st) with
    | Some raw_value => loop_over ("$" ++ iterator) body (loop_items raw_value) st
    | None => Ok (print ("Warning: Unknown variable " ++ iterable ++ " in for loop") st)
    end
  else
    Ok (print ("Warning: Direct iterables not implemented in for loop: " ++ iterable) st).

Definition _compile_conditional (condition : string) (if_body : list ASTNode)
                                (else_body : option (list ASTNode)) (st : State)
  : result Failure State :=
  let condition := substitute_condition (variables st) condition in
  let? (result, st) :=
    match eval condition st with
    | Value b st => Ok (b, st)
    | Raises e st =>
        Ok (false, print ("Warning: Failed to evaluate condition " ++ condition ++ ": " ++ e) st)
    | Escapes e => Error (Escaped e)
    | Hangs => Error NoReturn
    end in
  if result then compile_nodes if_body st
  else
    match else_body with
    | Some (node :: nodes) => compile_nodes (node :: nodes) st
    | _ => Ok st
    end.

Definition dollar (param : string) : string := "$" ++ param.

Definition _compile_component_use (component_name : string) (arguments : Dict.t string)
                                  (st : State) : result Failure State :=
  match Dict.get component_name (components st) with
  | None => Ok (print ("Warning: Unknown component: " ++ component_name) st)
  | Some component =>
      let old_vars := variables st in
      let st := set_variables (Dict.update_with dollar (default_values component) (variables st))
                              st in
      let st := set_variables (Dict.update_with dollar arguments (variables st)) st in
      match compile_nodes (body component) st with
      | Ok st => Ok (set_variables old_vars st)
      | Error f => Error f
      end
  end.

Definition dispatch (node : ASTNode) (st : State) : result Failure State :=
  match node with
  | Element tag attributes children content =>
      _compile_element tag attributes children content st
  | TextContent value => Ok (_compile_text value st)
  | VariableDeclaration n value => Ok (_compile_variable_declaration n value st)
  | ForLoop iterator iterable body => _compile_for_loop iterator iterable body st
  | Conditional condition if_body else_body =>
      _compile_conditional condition if_body else_body st
  | ComponentDefinition _ _ _ _ => Ok st
  | ComponentUse n arguments => _compile_component_use n arguments st
  | _ => Ok st
  end.

End WithNode.

(** [_compile_node] with a bound on the depth of nested calls, the
    interpreter's recursion limit; [Error RecursionDepth] is the bound
    being reached. *)
Fixpoint _compile_node (depth : nat) (node : ASTNode) (st : State) : result Failure State :=
  match depth with
  | 0 => Error RecursionDepth
  | S depth' => dispatch (_compile_node depth') node st
  end.

(** The two passes of [compile], up to the final state. *)
Definition run (depth : nat) (ast : Document) : result Failure State :=
  compile_nodes (_compile_node depth) (children ast) (_collect_components (children ast) init).

Definition compile (depth : nat) (ast : Document) : result Failure string :=
  let? st := run depth ast in Ok (join lf (output_lines st)).

End WithEval.

End Compiler.

(** ** The pipeline of [compile_file]: tokenize, parse, compile *)

Module Clarity.

(** What the three calls come to: the HTML text, a failure of the lexer,
    a failure of the parser, the generator beyond the depth it is
    allowed, or the evaluation of a condition that ends the run. *)
Inductive Outcome : Type :=
| Html (html_output : string)
| LexerFailed (f : Lexer.LexFailure)
| ParserIndexError
| ParserDepth
| RecursionLimit
| ConditionEscaped (e : string)
| ConditionHangs.

(** The parser is run with the budget of [Parser.parse], which is always
    enough: [depth] bounds the recursion of the generator only. *)
Definition compile_source (eval : string -> Compiler.State -> Compiler.EvalResult) (depth : nat)
                          (source_code : string) : Outcome :=
  match Lexer.tokenize source_code with
  | Error f => LexerFailed f
  | Ok tokens =>
      match Parser.parse tokens with
      | Parser.IndexError => ParserIndexError
      | Parser.Depth => ParserDepth
      | Parser.Return ast _ =>
          match Compiler.compile eval depth ast with
          | Ok html_output => Html html_output
          | Error Compiler.RecursionDepth => RecursionLimit
          | Error (Compiler.Escaped e) => ConditionEscaped e
          | Error Compiler.NoReturn => ConditionHangs
          end
      end
  end.

(** An [eval] on which every condition raises and nothing else happens;
    for documents without conditionals the choice does not matter. *)
Definition eval_raises : string -> Compiler.State -> Compiler.EvalResult :=
  fun _ st => Compiler.Raises "invalid syntax" st.

End Clarity.

(** ** Invariants and predicates used by the statements *)

Module LexerInv.
Import Lexer.

(** The indentation stack read from its top: strictly decreasing widths
    down to the initial zero. *)
Fixpoint stack_ok (stk : list nat) : Prop :=
  match stk with
  | [] => False
  | top :: below =>
      match below with
      | [] => top = 0
      | next :: _ => next < top /\ stack_ok below
      end
  end.

(** One INDENT token is outstanding for every open level of the stack. *)
Definition balanced (st : State) : Prop :=
  count_type INDENT (tokens st)
  = count_type DEDENT (tokens st) + (List.length (indent_stack st) - 1).

Definition inv (st : State) : Prop := stack_ok (indent_stack st) /\ balanced st.

(** Tokens that are neither INDENT nor DEDENT. *)
Definition plain (ts : list Token) : Prop :=
  count_type INDENT ts = 0 /\ count_type DEDENT ts = 0.

(** What the tokenizers of a single lexeme do to the state: the stack is
    kept, plain tokens are appended, the position does not go back. *)
Definition extends (st st' : State) : Prop :=
  indent_stack st' = indent_stack st
  /\ (exists ts, tokens st' = (tokens st ++ ts)%list /\ plain ts)
  /\ position st <= position st'.

(** What the tokenizer of one lexeme achieves: it also moves on. *)
Definition lexeme (st st' : State) : Prop := extends st st' /\ position st < position st'.

(** The three errors the lexer can raise. *)
Definition reachable_error (e : SyntaxError) : bool :=
  match e with
  | InconsistentIndentation _ | UnterminatedMultilineString _ | UnterminatedString _ => true
  | ExpectedEquals _ => false
  end.

End LexerInv.

Module ParserInv.
Import Lexer Parser.

Section WithTokens.

Variable tokens : list Token.

(** The position is an index into the tokens. *)
Definition inv (st : State) : Prop := position st < List.length tokens.

Definition remaining (st : State) : nat := List.length tokens - position st.

(** The call [m] returns from [st], with a result and state in [Q]. *)
Definition returns {A} (m : M A) (st : State) (Q : A -> State -> Prop) : Prop :=
  exists a st', m st = Return a st' /\ Q a st'.

Definition onward (st st' : State) : Prop := inv st' /\ position st <= position st'.

Definition forward (st st' : State) : Prop := inv st' /\ position st < position st'.

(** [m] returns, without moving back, from every state with at most [n]
    tokens left. *)
Definition safe_at {A} (n : nat) (m : M A) : Prop :=
  forall st, inv st -> remaining st <= n -> returns m st (fun _ st' => onward st st').

(** The current token exists and is not the EOF token. *)
Definition not_at_end (st : State) : Prop :=
  exists t, token_at tokens (position st) = Some t /\ type t <> EOF.

Definition current_type (ty : TokenType) (st : State) : Prop :=
  exists t, token_at tokens (position st) = Some t /\ type t = ty.

(** The call [m] never reads outside the token list and never moves
    back: whatever budget it runs with, it returns or uses the budget up. *)
Definition sound {A} (m : M A) : Prop :=
  forall st, inv st ->
    match m st with
    | Return _ st' => onward st st'
    | IndexError => False
    | Depth => True
    end.

(** What [m] returns, [m'] returns too. *)
Definition at_most {A} (m m' : M A) : Prop :=
  forall st a st', m st = Return a st' -> m' st = Return a st'.

(** The token list ends with an EOF token, as the lexer's does. *)
Definition ends_with_eof : Prop :=
  exists pre e, tokens = (pre ++ [e])%list /\ type e = EOF.

End WithTokens.

End ParserInv.

Module CompilerInv.
Import PyStr AST Compiler.

(** The output of [st'] is the output of [st] with lines added at the end. *)
Definition grows (st st' : State) : Prop :=
  exists emitted, output_lines st' = (output_lines st ++ emitted)%list.

(** Emission keeps the indentation counter and the component table. *)
Definition frame (st st' : State) : Prop :=
  indentation st' = indentation st /\ components st' = components st.

(** The evaluation of conditions, whenever it comes back to
    [_compile_conditional] with a value or a caught exception, leaves a
    state that stands in the relation [R] to the state it was called in. *)
Definition eval_keeps (R : State -> State -> Prop) (eval : string -> State -> EvalResult)
  : Prop :=
  forall condition st,
    match eval condition st with
    | Value _ st' | Raises _ st' => R st st'
    | Escapes _ | Hangs => True
    end.

(** The evaluation of conditions always comes back with a value or with
    an exception that the handler catches. *)
Definition comes_back (eval : string -> State -> EvalResult) : Prop :=
  forall condition st,
    match eval condition st with
    | Value _ _ | Raises _ _ => True
    | Escapes _ | Hangs => False
    end.

(** The evaluation of conditions has no effect on the compiler. *)
Definition without_effect (eval : string -> State -> EvalResult) : Prop :=
  eval_keeps (fun st st' => st' = st) eval.

(** The condition text as the specification words it: each bound
    variable that occurs in the text is replaced by its value in double
    quotes, one variable after the other in the order of the
    environment. *)
Fixpoint quote_variables (vars : Dict.t string) (condition : string) : string :=
  match vars with
  | [] => condition
  | (var_name, var_value) :: vars' =>
      quote_variables vars'
        (if contains var_name condition
         then replace var_name (dq ++ var_value ++ dq) condition
         else condition)
  end.

(** The nodes that a conditional emits once its condition is decided. *)
Definition chosen_body (result : bool) (if_body : list ASTNode)
                       (else_body : option (list ASTNode)) : list ASTNode :=
  if result then if_body
  else match else_body with
       | Some nodes => nodes
       | None => []
       end.

(** The part of an opening tag that precedes its closing bracket:
    indentation, tag name and attribute text. *)
Definition tag_head (tag : string) (attributes : Dict.t AttrValue) (indent : Z) : string :=
  let attrs := _compile_attributes attributes in
  if nonempty attrs then spaces indent ++ "<" ++ tag ++ " " ++ attrs
  else spaces indent ++ "<" ++ tag.

End CompilerInv.

(** ** Documents and states used as examples *)

Module Examples.
Import PyStr AST.

(** The document of the specification's first example. *)
Definition src_hello : string :=
  "document:" ++ lf ++ "  div:" ++ lf ++ "    " ++ dq ++ "Hello" ++ dq ++ lf.

Definition claimed_hello_html : string :=
  "<!DOCTYPE html>" ++ lf ++ "<html>" ++ lf ++ "  <div>" ++ lf ++ "    Hello" ++ lf
  ++ "  </div>" ++ lf ++ "</html>".

Definition actual_hello_html : string :=
  "<!DOCTYPE html>" ++ lf ++ "<html>" ++ lf ++ "<div>" ++ lf ++ "</div>" ++ lf ++ "</html>".

(** The tree of that document had the quoted line become a text node. *)
Definition hello_tree : Document :=
  mkDocument [Element "document" [] [Element "div" [] [TextContent "Hello"] None] None].

(** A component whose body uses the component itself, and a use of it. *)
Definition src_self_use : string :=
  "@component A():" ++ lf ++ "  @A()" ++ lf ++ "@A()" ++ lf.

Definition self_use_tree : Document :=
  mkDocument [ComponentDefinition "A" [] [] [ComponentUse "A" []]; ComponentUse "A" []].

(** Component definitions inside a component body, a loop body and an
    if-body, and a use of each after them. *)
Definition src_hidden_definitions : string :=
  "$xs = [a]" ++ lf
  ++ "@component Outer():" ++ lf
  ++ "  @component Inner():" ++ lf
  ++ "    p: " ++ dq ++ "inner" ++ dq ++ lf
  ++ "for  x in $xs:" ++ lf
  ++ "  @component InLoop():" ++ lf
  ++ "    p: " ++ dq ++ "loop" ++ dq ++ lf
  ++ "if True:" ++ lf
  ++ "  @component InIf():" ++ lf
  ++ "    p: " ++ dq ++ "if" ++ dq ++ lf
  ++ "@Inner()" ++ lf
  ++ "@InLoop()" ++ lf
  ++ "@InIf()" ++ lf.

(** An [eval] on which every condition is true and nothing else happens,
    as [eval("True")] is. *)
Definition eval_true : string -> Compiler.State -> Compiler.EvalResult :=
  fun _ st => Compiler.Value true st.

(** Condition texts: one that ends the interpreter; one that empties the
    output and is true; one that replaces, in the line emitted last, the
    name [$x] by the value bound to it, and is true; and the condition
    of the specification's example, [$flag == "yes"], as it is evaluated
    when [$flag] is bound to [yes] and when it is bound to [no]. *)
Definition quitting : string := "exit()".

Definition clearing : string := "self.output_lines.clear() or True".

Definition rewriting : string :=
  "self.output_lines.append(self.output_lines.pop().replace(chr(36) + 'x', "
  ++ "self.variables[chr(36) + 'x'])) or True".

Definition flag_is_yes : string := "$flag == " ++ dq ++ "yes" ++ dq.

Definition yes_is_yes : string := dq ++ "yes" ++ dq ++ " == " ++ dq ++ "yes" ++ dq.

Definition no_is_yes : string := dq ++ "no" ++ dq ++ " == " ++ dq ++ "yes" ++ dq.

(** What Python's [eval] does with these texts in the frame of
    [_compile_conditional].  [exit()] raises [SystemExit], which is not
    an [Exception].  [list.clear] and [list.append] return [None], so
    that the [or] gives [True].  In [rewriting], [pop] comes first and
    raises [IndexError] on an empty list; the lookup of [$x] comes next
    and raises [KeyError] when [$x] is not bound, after the line has
    been popped.  The table covers the texts of the examples only: any
    other text is answered as a text that is not an expression. *)
Definition eval_sample (condition : string) (st : Compiler.State) : Compiler.EvalResult :=
  if String.eqb condition "True" then Compiler.Value true st
  else if String.eqb condition yes_is_yes then Compiler.Value true st
  else if String.eqb condition no_is_yes then Compiler.Value false st
  else if String.eqb condition quitting then Compiler.Escapes "SystemExit"
  else if String.eqb condition clearing then Compiler.Value true (Compiler.set_output [] st)
  else if String.eqb condition rewriting then
    match Compiler.output_lines st with
    | [] => Compiler.Raises "pop from empty list" st
    | _ :: _ =>
        match Dict.get "$x" (Compiler.variables st) with
        | Some v =>
            Compiler.Value true
              (Compiler.set_output
                 (Compiler.update_last (replace "$x" v) (Compiler.output_lines st)) st)
        | None =>
            Compiler.Raises "'$x'"
              (Compiler.set_output (removelast (Compiler.output_lines st)) st)
        end
    end
  else Compiler.Raises "invalid syntax" st.

(** A paragraph, and a conditional that empties the output before it
    emits its own paragraph; as source text, and as nodes. *)
Definition src_clearing : string :=
  "p: first" ++ lf ++ "if " ++ clearing ++ ":" ++ lf ++ "  p: second" ++ lf.

Definition first_paragraph : ASTNode := Element "p" [] [] (Some "first").

Definition clearing_conditional : ASTNode :=
  Conditional clearing [Element "p" [] [] (Some "second")] None.

(** A conditional that ends the interpreter, and a paragraph after it. *)
Definition src_quitting : string :=
  "if " ++ quitting ++ ":" ++ lf ++ "  p: a" ++ lf ++ "p: b" ++ lf.

Definition quitting_conditional : ASTNode :=
  Conditional quitting [Element "p" [] [] (Some "a")] None.

(** A link whose attribute names the iterator of the loop around it, and
    whose child is a conditional that rewrites the line emitted last. *)
Definition src_rewriting : string :=
  "$items = [1]" ++ lf ++ "for  x in $items:" ++ lf
  ++ "  a href=" ++ dq ++ "$x" ++ dq ++ ":" ++ lf
  ++ "    if " ++ rewriting ++ ":" ++ lf
  ++ "      p: t" ++ lf.

Definition rewritten_link : ASTNode :=
  Element "a" [("href", AttrStr "$x")] [Conditional rewriting [] None] None.

(** The conditional of the specification's example, with an else-body. *)
Definition flag_conditional : ASTNode :=
  Conditional flag_is_yes [TextContent "shown"] (Some [TextContent "hidden"]).

Definition flag_state (value : string) : Compiler.State :=
  Compiler.set_variables [("$flag", value)]
    (Compiler.append_line "<html>" Compiler.init).

(** A div around a conditional around a paragraph with inline content. *)
Definition guarded_paragraph : ASTNode :=
  Element "div" [] [Conditional "True" [Element "p" [] [] (Some "hi")] None] None.

(** A link whose attribute and whose text, below a conditional, both name
    a variable. *)
Definition guarded_link : ASTNode :=
  Element "a" [("href", AttrStr "$x")] [Conditional "True" [TextContent "$x"] None] None.

Definition hello_tokens : list Lexer.Token :=
  Eval vm_compute in
    match Lexer.tokenize src_hello with
    | Ok tokens => tokens
    | Error _ => []
    end.

(** A loop over a variable bound to plain text, not to a bracketed list. *)
Definition plain_loop : ASTNode := ForLoop "x" "$name" [TextContent "Hello $x"].

Definition plain_loop_state : Compiler.State :=
  Compiler.set_variables [("$name", "World")] Compiler.init.

(** A loop whose iterator has the name of a variable bound before it. *)
Definition shadowing_loop : ASTNode := ForLoop "x" "$xs" [TextContent "item $x"].

Definition shadowing_loop_state : Compiler.State :=
  Compiler.set_variables [("$xs", "[a, b]"); ("$x", "old")] Compiler.init.

(** A component with a default, used with an argument for the same
    parameter, where a variable of that name is already bound. *)
Definition card : Compiler.Component :=
  Compiler.mkComponent "Card" ["color"] [("color", "blue")]
                       [Element "p" [] [] (Some "$color")].

Definition card_state : Compiler.State :=
  Compiler.set_components [("Card", card)]
    (Compiler.set_variables [("$color", "green")] Compiler.init).

Definition card_use : ASTNode := ComponentUse "Card" [("color", "red")].

(** An element whose attribute value and content both name a variable. *)
Definition link : ASTNode := Element "a" [("href", AttrStr "$x")] [] (Some "$x").

(** The final state of an emission that returns. *)
Definition final (o : result Compiler.Failure Compiler.State) : Compiler.State :=
  match o with
  | Ok st => st
  | Error _ => Compiler.init
  end.

End Examples.

(** ** Shapes of texts, tokens and trees used by further statements *)

Module TextShape.
Import PyStr.

(** Every character of the text satisfies [p]. *)
Fixpoint all_chars (p : ascii -> bool) (s : string) : bool :=
  match s with
  | EmptyString => true
  | String c s' => p c && all_chars p s'
  end.

(** The text does not start with a character that satisfies [p]. *)
Definition starts_without (p : ascii -> bool) (s : string) : bool :=
  match s with
  | EmptyString => true
  | String c _ => negb (p c)
  end.

(** The number of occurrences of a character in a text. *)
Fixpoint occurrences (c : ascii) (s : string) : nat :=
  match s with
  | EmptyString => 0
  | String c' s' => (if (c' =? c)%char then 1 else 0) + occurrences c s'
  end.

End TextShape.

Module LexerShape.
Import PyStr Lexer TextShape.

(** Reading the tokens from the left with [open] levels open: an INDENT
    opens a level, a DEDENT closes one and needs one to be open; the
    result is the number of levels open at the end. *)
Fixpoint nesting (open : nat) (ts : list Token) : option nat :=
  match ts with
  | [] => Some open
  | t :: ts' =>
      match type t with
      | INDENT => nesting (S open) ts'
      | DEDENT =>
          match open with
          | 0 => None
          | S open' => nesting open' ts'
          end
      | _ => nesting open ts'
      end
  end.

(** A list of numbers that never decreases and starts at [lo] or above. *)
Fixpoint ascending (lo : nat) (l : list nat) : Prop :=
  match l with
  | [] => True
  | x :: l' => lo <= x /\ ascending x l'
  end.

(** The token types whose value is cut out of the source text. *)
Definition sliced (ty : TokenType) : bool :=
  match ty with
  | ELEMENT | CONTENT | VARIABLE_DECL | VARIABLE_REF | STRING | FOR_LOOP | IF_STATEMENT
  | ELSE_STATEMENT | COMPONENT_DEF | COMPONENT_USE | COMMENT | MULTILINE_STRING => true
  | _ => false
  end.

(** The source text continues with the value of the token from the
    offset that the token's column field gives, counted from one. *)
Definition read_back (source : string) (t : Token) : Prop :=
  1 <= column t /\ prefix (value t) (sdrop (column t - 1) source) = true.

(** At the offset of the token the source has the keyword [for] and a
    space, and then no character of a name. *)
Definition for_gap (source : string) (t : Token) : Prop :=
  prefix "for " (sdrop (column t - 1) source) = true
  /\ forall c, String.get (column t - 1 + 4) source = Some c -> isword c = false.

(** What the value of a token is known to look like, by the type of the
    token: a string has its quotes, a multi-line string its delimiters, a
    loop header stands before a gap, the name of an element or a word of
    content is made of name characters, and a variable reference is a
    dollar sign and word characters. *)
Definition shape (source : string) (t : Token) : Prop :=
  match type t with
  | STRING =>
      2 <= String.length (value t)
      /\ quoted_by dq (value t) || quoted_by sq (value t) = true
  | MULTILINE_STRING =>
      6 <= String.length (value t)
      /\ startswith triple_quote (value t) = true
      /\ endswith triple_quote (value t) = true
  | FOR_LOOP => for_gap source t
  | ELEMENT | CONTENT => value t <> "" /\ all_chars name_char (value t) = true
  | VARIABLE_REF => exists name, value t = String "$" name /\ all_chars isword name = true
  | _ => True
  end.

Definition token_ok (source : string) (t : Token) : Prop :=
  type t <> EOF
  /\ (sliced (type t) = true -> read_back source t)
  /\ shape source t.

Definition lexeme_ok (source : string) (t : Token) : Prop :=
  token_ok source t /\ type t <> INDENT /\ type t <> DEDENT.

(** What the tokenizer of a lexeme does: it keeps the stack, does not go
    back in the lines, and appends well-formed tokens whose lines lie
    between the line it started on and the line it ended on. *)
Definition emits (source : string) (st st' : State) : Prop :=
  indent_stack st' = indent_stack st
  /\ cur_line st <= cur_line st'
  /\ exists ts,
       tokens st' = (tokens st ++ ts)%list
       /\ Forall (lexeme_ok source) ts
       /\ ascending (cur_line st) (map line ts)
       /\ Forall (fun t => line t <= cur_line st') ts.

(** The invariant of the main loop on the tokens appended so far. *)
Definition lexed (source : string) (st : State) : Prop :=
  nesting 0 (tokens st) = Some (List.length (indent_stack st) - 1)
  /\ Forall (token_ok source) (tokens st)
  /\ ascending 1 (map line (tokens st))
  /\ Forall (fun t => line t <= cur_line st) (tokens st)
  /\ 1 <= cur_line st.

End LexerShape.

(** ** Where the lexer raises *)

Module LexerErrors.
Import PyStr Lexer TextShape.

Section WithSource.

Variable source : string.

(** The states in which the main loop of [tokenize] starts an iteration. *)
Inductive reaches : State -> Prop :=
| reaches_init : reaches init
| reaches_step st st' :
    reaches st -> position st < String.length source -> step source st = Ok st' ->
    reaches st'.

(** The iteration starts at the beginning of a line. *)
Definition at_line_start (st : State) : bool :=
  (position st =? 0) || char_is source (position st - 1) LF.

(** The width of the whitespace at the position, up to a newline. *)
Definition line_indent (st : State) : nat :=
  span_len (fun c => isspace c && negb (c =? LF)%char) (rest source (position st)).

(** Where the iteration looks for a lexeme: at the position, or behind the
    indentation when it starts at the beginning of a line. *)
Definition lexeme_position (st : State) : nat :=
  if at_line_start st then position st + line_indent st else position st.

(** The iteration starts a line that is neither blank nor a comment, that
    is indented less than the current level, and whose width is not on
    the indentation stack. *)
Definition dedent_to_unknown_width (st : State) : Prop :=
  at_line_start st = true
  /\ char_is source (position st + line_indent st) LF
     || char_is source (position st + line_indent st) "#" = false
  /\ (exists top below, indent_stack st = top :: below /\ line_indent st < top)
  /\ ~ In (line_indent st) (indent_stack st).

(** The lexeme starts with a triple quote that no later triple quote
    closes. *)
Definition unclosed_triple_quote (st : State) : Prop :=
  prefix triple_quote (rest source (lexeme_position st)) = true
  /\ contains triple_quote (rest source (lexeme_position st + 3)) = false.

(** The lexeme starts with a quote, not with a triple quote, and every
    later quote of the same kind stands behind a backslash. *)
Definition unclosed_quote (st : State) : Prop :=
  prefix triple_quote (rest source (lexeme_position st)) = false
  /\ exists q,
       (q = DQ \/ q = SQ)
       /\ at_pos source (lexeme_position st) = Some q
       /\ forall i, lexeme_position st < i -> at_pos source i = Some q ->
                    at_pos source (i - 1) = Some BACKSLASH.

(** The iteration that starts in [st] raises [e]. *)
Definition raises_at (st : State) (e : SyntaxError) : Prop :=
  (dedent_to_unknown_width st /\ e = InconsistentIndentation (cur_line st))
  \/ (~ dedent_to_unknown_width st
      /\ ((unclosed_triple_quote st /\ e = UnterminatedMultilineString (cur_line st))
          \/ (unclosed_quote st
              /\ e = UnterminatedString
                       (cur_line st
                        + occurrences LF (rest source (lexeme_position st + 1)))))).

End WithSource.

End LexerErrors.

Module ParserShape.
Import PyStr Lexer AST Parser.

(** The text is the value of a MULTILINE_STRING token of the list. *)
Definition multiline_value (tokens : list Token) (v : string) : bool :=
  existsb (fun t => TokenType_eqb (type t) MULTILINE_STRING && String.eqb (value t) v) tokens.

(** The nodes that the parser builds from a list of tokens: elements,
    which have inline content or children but not both, text nodes that
    hold the value of a MULTILINE_STRING token, declarations, loops,
    conditionals, and definitions and uses of components, with bodies of
    such nodes. *)
Fixpoint parser_node (tokens : list Token) (node : ASTNode) : bool :=
  match node with
  | Element _ _ children content =>
      match content, children with
      | Some _, _ :: _ => false
      | _, _ => forallb (parser_node tokens) children
      end
  | TextContent v => multiline_value tokens v
  | VariableDeclaration _ _ | ComponentUse _ _ => true
  | ForLoop _ _ body => forallb (parser_node tokens) body
  | Conditional _ if_body else_body =>
      forallb (parser_node tokens) if_body
      && match else_body with
         | Some nodes => forallb (parser_node tokens) nodes
         | None => true
         end
  | ComponentDefinition _ _ _ body => forallb (parser_node tokens) body
  | VariableReference _ | StyleBlock _ | ScriptBlock _ | StringLiteral _ _ => false
  end.

(** The values of the text nodes at a node and below it. *)
Fixpoint text_values (node : ASTNode) : list string :=
  match node with
  | TextContent v => [v]
  | Element _ _ children _ => flat_map text_values children
  | ForLoop _ _ body => flat_map text_values body
  | Conditional _ if_body else_body =>
      flat_map text_values if_body
      ++ match else_body with
         | Some nodes => flat_map text_values nodes
         | None => []
         end
  | ComponentDefinition _ _ _ body => flat_map text_values body
  | _ => []
  end.

End ParserShape.

Module CompilerShape.
Import PyStr AST Compiler.

(** The depth of nested [_compile_node] calls that the emission of a node
    needs when no component is expanded: one for the node, and one more
    than its deepest child for a node that emits children. *)
Fixpoint emission_depth (node : ASTNode) : nat :=
  match node with
  | Element _ _ children _ =>
      S (fold_right (fun child acc => Nat.max (emission_depth child) acc) 0 children)
  | ForLoop _ _ body =>
      S (fold_right (fun child acc => Nat.max (emission_depth child) acc) 0 body)
  | Conditional _ if_body else_body =>
      S (Nat.max
           (fold_right (fun child acc => Nat.max (emission_depth child) acc) 0 if_body)
           (match else_body with
            | Some nodes =>
                fold_right (fun child acc => Nat.max (emission_depth child) acc) 0 nodes
            | None => 0
            end))
  | _ => 1
  end.

Definition deepest (nodes : list ASTNode) : nat :=
  fold_right (fun child acc => Nat.max (emission_depth child) acc) 0 nodes.

(** Every name bound in the environment starts with a dollar sign. *)
Definition dollar_keys (vars : Dict.t string) : Prop :=
  forall k v, In (k, v) vars -> startswith "$" k = true.

(** The evaluation of conditions binds no name that does not start
    with a dollar sign. *)
Definition keeps_dollar_keys (st st' : State) : Prop :=
  dollar_keys (variables st) -> dollar_keys (variables st').

(** No use of a component stands at the node or below it, in the
    children of an element or in the body of a loop or of a conditional. *)
Fixpoint uses_no_component (node : ASTNode) : bool :=
  match node with
  | ComponentUse _ _ => false
  | Element _ _ children _ => forallb uses_no_component children
  | ForLoop _ _ body => forallb uses_no_component body
  | Conditional _ if_body else_body =>
      forallb uses_no_component if_body
      && match else_body with
         | Some nodes => forallb uses_no_component nodes
         | None => true
         end
  | _ => true
  end.

(** Where a failure of emission comes from: the depth being reached, an
    evaluation whose exception leaves [_compile_conditional], or an
    evaluation that does not return. *)
Definition failure_of (eval : string -> State -> EvalResult) (f : Failure) : Prop :=
  match f with
  | RecursionDepth => True
  | Escaped e => exists condition st, eval condition st = Escapes e
  | NoReturn => exists condition st, eval condition st = Hangs
  end.

(** A definition of the component [n] stands at the node itself or below
    elements only. *)
Fixpoint defined_in (n : string) (node : ASTNode) : bool :=
  match node with
  | ComponentDefinition n' _ _ _ => String.eqb n' n
  | Element _ _ children _ => existsb (defined_in n) children
  | _ => false
  end.

End CompilerShape.

(** ** Further documents and states used as examples *)

Module Samples.
Import PyStr AST Examples.

(** A document that defines a component below an element and uses it. *)
Definition page_with_component : Document :=
  mkDocument
    [Element "div" [] [ComponentDefinition "B" [] [] [TextContent "b"]] None;
     ComponentUse "B" []].

(** A document root around a conditional around a text. *)
Definition guarded_page : ASTNode :=
  Element "document" [("lang", AttrStr "en")] [Conditional "True" [TextContent "a"] None]
          (Some "ignored").

(** A conditional whose body declares a variable. *)
Definition declaring_conditional : ASTNode :=
  Conditional "True" [VariableDeclaration "y" "2"] None.

(** A style element whose child is a block of two lines. *)
Definition style_rules : string := "a {}" ++ lf ++ "$b {}".

Definition style_block : ASTNode :=
  Element "style" [] [TextContent (triple_quote ++ style_rules ++ triple_quote)] None.

(** A declaration and a loop header with two spaces after [for]. *)
Definition src_loop : string :=
  "$items = [a, b]" ++ lf ++ "for  x in $items:" ++ lf ++ "  li: $x" ++ lf.

Definition loop_tokens : list Lexer.Token :=
  Eval vm_compute in
    match Lexer.tokenize src_loop with
    | Ok tokens => tokens
    | Error _ => []
    end.

Definition loop_header : Lexer.Token :=
  Lexer.mkToken Lexer.FOR_LOOP "for  x in $items" 2 17.

Definition hello_string : Lexer.Token :=
  Lexer.mkToken Lexer.STRING (dq ++ "Hello" ++ dq) 3 22.

Definition hello_root : Lexer.Token := Lexer.mkToken Lexer.ELEMENT "document" 1 1.

Definition hello_parsed : Document * Parser.State :=
  Eval vm_compute in
    match Parser.parse hello_tokens with
    | Parser.Return ast pst => (ast, pst)
    | _ => (mkDocument [], Parser.init)
    end.

(** The declaration of a quoted value. *)
Definition src_declaration : string := "$c = " ++ dq ++ "red" ++ dq ++ lf.

Definition declaration_tokens : list Lexer.Token :=
  Eval vm_compute in
    match Lexer.tokenize src_declaration with
    | Ok tokens => tokens
    | Error _ => []
    end.

Definition declaration_token : Lexer.Token :=
  Lexer.mkToken Lexer.VARIABLE_DECL ("$c = " ++ dq ++ "red" ++ dq) 1 1.

(** A style element with a block of rules, as source text. *)
Definition src_style : string :=
  "style:" ++ lf ++ "  " ++ triple_quote ++ lf ++ "  a {}" ++ lf ++ "  " ++ triple_quote ++ lf.

Definition style_tokens : list Lexer.Token :=
  Eval vm_compute in
    match Lexer.tokenize src_style with
    | Ok tokens => tokens
    | Error _ => []
    end.

Definition style_parsed : Document * Parser.State :=
  Eval vm_compute in
    match Parser.parse style_tokens with
    | Parser.Return ast pst => (ast, pst)
    | _ => (mkDocument [], Parser.init)
    end.

(** A line that goes back to a width that no line before it has:
    the source, and the state of the lexer at the start of that line. *)
Definition src_dedent : string := "a:" ++ lf ++ "    b:" ++ lf ++ "  c:" ++ lf.

Definition dedent_state : Lexer.State :=
  Lexer.mkState [Lexer.mkToken Lexer.INDENT "    " 2 4] 10 3 1 [4; 0].

(** A string that is opened on the first line and never closed. *)
Definition src_open_string : string := dq ++ "a" ++ lf ++ "b".

(** An environment in which the value of one variable names another. *)
Definition chained : Dict.t string := [("$a", "$b"); ("$b", "x")].

(** An environment with one binding. *)
Definition one_binding : Compiler.State :=
  Compiler.set_variables [("$x", "1")] Compiler.init.

End Samples.

(** * Theorems *)

(** ** Strings *)

Module PyStrFacts.
Import PyStr.

Lemma get_sdrop (s : string) : forall i c,
  String.get i s = Some c -> sdrop i s = String c (sdrop (S i) s).
Proof.
  induction s as [|a s IH]; intros [|i] c H; simpl in *; try discriminate.
  - injection H as ->. now destruct s.
  - now apply IH.
Qed.

Lemma get_none_length (s : string) : forall i,
  String.get i s = None <-> String.length s <= i.
Proof.
  induction s as [|a s IH]; intros [|i]; simpl; split; intros H;
    try reflexivity; try discriminate; try lia.
  - apply IH in H. lia.
  - apply IH. lia.
Qed.

Lemma get_some_length (s : string) i c : String.get i s = Some c -> i < String.length s.
Proof.
  intros H. destruct (Nat.lt_ge_cases i (String.length s)) as [|Hge]; [assumption|].
  apply get_none_length in Hge. congruence.
Qed.

Lemma length_get_some (s : string) i : i < String.length s -> exists c, String.get i s = Some c.
Proof.
  intros H. destruct (String.get i s) eqn:E; [eauto|].
  apply get_none_length in E. lia.
Qed.

Lemma span_len_pos p c s : p c = true -> 1 <= span_len p (String c s).
Proof. intros H. simpl. rewrite H. lia. Qed.

Lemma prefix_length p : forall s, prefix p s = true -> String.length p <= String.length s.
Proof.
  induction p as [|a p IH]; intros [|b s]; simpl; try lia; try discriminate.
  destruct (ascii_dec a b); [|discriminate]. intros H. apply IH in H. lia.
Qed.

Lemma contains_short p : forall s, String.length s < String.length p -> contains p s = false.
Proof.
  induction s as [|c s IH]; intros H; cbn [contains].
  - destruct (prefix p "") eqn:E; [|reflexivity]. apply prefix_length in E. simpl in *. lia.
  - destruct (prefix p (String c s)) eqn:E.
    + apply prefix_length in E. lia.
    + apply IH. simpl in H. lia.
Qed.

End PyStrFacts.

(** ** The lexer: indentation is balanced and three errors can be raised *)

Module LexerFacts.
Import PyStr Lexer LexerInv PyStrFacts.

Lemma count_type_app ty (a b : list Token) :
  count_type ty (a ++ b) = count_type ty a + count_type ty b.
Proof. unfold count_type. now rewrite filter_app, length_app. Qed.

Lemma count_type_repeat ty t n :
  count_type ty (repeat t n) = if TokenType_eqb (type t) ty then n else 0.
Proof.
  unfold count_type. induction n as [|n IH]; simpl.
  - now destruct (TokenType_eqb (type t) ty).
  - destruct (TokenType_eqb (type t) ty); simpl; now rewrite IH.
Qed.

Lemma count_type_one ty t :
  count_type ty [t] = if TokenType_eqb (type t) ty then 1 else 0.
Proof. unfold count_type. simpl. now destruct (TokenType_eqb (type t) ty). Qed.

Lemma plain_nil : plain [].
Proof. now split. Qed.

Lemma plain_one t :
  TokenType_eqb (type t) INDENT = false -> TokenType_eqb (type t) DEDENT = false -> plain [t].
Proof. intros H1 H2. unfold plain, count_type. simpl. now rewrite H1, H2. Qed.

Lemma plain_app a b : plain a -> plain b -> plain (a ++ b).
Proof. intros [? ?] [? ?]. unfold plain. rewrite !count_type_app. lia. Qed.

Lemma extends_refl st : extends st st.
Proof.
  repeat split; try lia. exists []. split; [now rewrite app_nil_r | apply plain_nil].
Qed.

Lemma extends_trans a b c : extends a b -> extends b c -> extends a c.
Proof.
  intros (Hs1 & (t1 & Ht1 & Hp1) & Hl1) (Hs2 & (t2 & Ht2 & Hp2) & Hl2).
  repeat split; try congruence; try lia.
  exists (t1 ++ t2)%list. split; [|now apply plain_app].
  now rewrite Ht2, Ht1, app_assoc.
Qed.

Lemma extends_advance n st : extends st (_advance n st).
Proof.
  repeat split; simpl; try lia. exists []. split; [now rewrite app_nil_r | apply plain_nil].
Qed.

Lemma extends_goto st pos ln col : position st <= pos -> extends st (goto pos ln col st).
Proof.
  intros H. repeat split; simpl; try lia.
  exists []. split; [now rewrite app_nil_r | apply plain_nil].
Qed.

Lemma extends_emit t st :
  TokenType_eqb (type t) INDENT = false -> TokenType_eqb (type t) DEDENT = false ->
  extends st (emit t st).
Proof.
  intros H1 H2. repeat split; simpl; try lia. exists [t]. split; [reflexivity|now apply plain_one].
Qed.

Lemma extends_inv st st' : extends st st' -> inv st -> inv st'.
Proof.
  intros (Hs & (ts & Ht & Hp1 & Hp2) & _) [Hok Hbal]. split.
  - now rewrite Hs.
  - unfold balanced in *. rewrite Ht, Hs, !count_type_app. lia.
Qed.

Section WithSource.

Variable source : string.

Lemma extends_advance_while p st : extends st (advance_while source p st).
Proof. apply extends_advance. Qed.

Lemma rest_at i c : at_pos source i = Some c -> rest source i = String c (rest source (S i)).
Proof. apply get_sdrop. Qed.

Lemma advance_while_progress p st c :
  at_pos source (position st) = Some c -> p c = true ->
  position st < position (advance_while source p st).
Proof.
  intros Hc Hp. unfold advance_while. simpl. rewrite (rest_at _ _ Hc).
  pose proof (span_len_pos p c (rest source (S (position st))) Hp). lia.
Qed.

(** *** Indentation handling *)

Lemma pop_while_deeper_ok indent : forall stk n,
  stack_ok stk ->
  exists stk' n',
    pop_while_deeper indent stk n = Ok (stk', n')
    /\ stack_ok stk' /\ List.length stk' + n' = List.length stk + n.
Proof.
  induction stk as [|top below IH]; intros n Hok; [contradiction|].
  simpl. destruct (indent <? top) eqn:E.
  - destruct below as [|next below'].
    + simpl in Hok. subst top. apply Nat.ltb_lt in E. lia.
    + destruct Hok as [_ Hok]. destruct (IH (S n) Hok) as (stk' & n' & -> & Hok' & Hlen).
      exists stk', n'. repeat split; try assumption. simpl in *. lia.
  - exists (top :: below), n. now repeat split.
Qed.

Lemma stack_ok_length stk : stack_ok stk -> 1 <= List.length stk.
Proof. destruct stk; simpl; [contradiction|lia]. Qed.

Lemma handle_indentation_ok st :
  inv st ->
  match _handle_indentation source st with
  | Ok st' => inv st' /\ position st <= position st'
  | Error (Raised (InconsistentIndentation _)) => True
  | Error _ => False
  end.
Proof.
  intros [Hok Hbal]. unfold _handle_indentation.
  set (indent := span_len _ _).
  destruct (char_is _ _ _ || char_is _ _ _).
  { split; [|simpl; lia]. now split. }
  simpl indent_stack.
  destruct (indent_stack st) as [|current_indent below] eqn:Estk; [contradiction|].
  destruct (current_indent <? indent) eqn:E1.
  { split; [|simpl; lia]. split; simpl.
    - apply Nat.ltb_lt in E1. destruct below; simpl in *.
      + subst. split; [lia|reflexivity].
      + now split.
    - unfold balanced in *. simpl. rewrite !count_type_app, !count_type_one, Estk in *.
      simpl in *. lia. }
  destruct (indent <? current_indent) eqn:E2.
  2:{ split; [|simpl; lia]. split; simpl; [now rewrite Estk|].
      unfold balanced in *. simpl. now rewrite Estk in *. }
  destruct (pop_while_deeper_ok indent (current_indent :: below) 0 Hok)
    as (stk' & n' & Hpop & Hok' & Hlen).
  rewrite Hpop. simpl rbind.
  destruct stk' as [|top rest']; [contradiction|].
  destruct (indent =? top); [|exact I].
  split; [|simpl; lia]. split; simpl; [assumption|].
  unfold balanced in *. simpl. rewrite !count_type_app, !count_type_repeat, Estk in *.
  simpl in *. lia.
Qed.

Lemma scan_multiline_from : forall s pos ln col p l c,
  scan_multiline s pos ln col = Some (p, l, c) -> pos <= p.
Proof.
  induction s as [|a s IH]; intros pos ln col p l c; [discriminate|].
  cbn [scan_multiline].
  destruct (String.length (String a s) <? 3); [discriminate|].
  destruct (prefix triple_quote (String a s)).
  - intros [= <- <- <-]. lia.
  - destruct (a =? LF)%char; intros H; apply IH in H; lia.
Qed.

Lemma scan_string_from q : forall s prev pos ln col p l c,
  scan_string q prev s pos ln col = Closing p l c -> pos <= p.
Proof.
  induction s as [|a s IH]; intros prev pos ln col p l c; simpl; [discriminate|].
  destruct ((a =? q)%char && ((pos =? 0) || negb (prev =? BACKSLASH)%char)).
  - intros [= <- <- <-]. lia.
  - destruct (a =? LF)%char; intros H; apply IH in H; lia.
Qed.

Lemma tokenize_multiline_string_ok st :
  match _tokenize_multiline_string source st with
  | Ok st' => lexeme st st'
  | Error (Raised (UnterminatedMultilineString _)) => True
  | Error _ => False
  end.
Proof.
  unfold _tokenize_multiline_string.
  destruct (scan_multiline _ _ _ _) as [[[p l] c]|] eqn:E; [|exact I].
  apply scan_multiline_from in E. simpl in E.
  split; [|simpl; lia].
  eapply extends_trans; [|apply extends_advance].
  eapply extends_trans; [|apply extends_emit; reflexivity].
  eapply extends_trans; [apply (extends_advance 3)|].
  apply extends_goto. simpl. lia.
Qed.

Lemma tokenize_comment_ok st c :
  at_pos source (position st) = Some c -> not_newline c = true ->
  lexeme st (_tokenize_comment source st).
Proof.
  intros Hc Hp. unfold _tokenize_comment. split.
  - eapply extends_trans; [apply extends_advance_while|apply extends_emit; reflexivity].
  - simpl. apply (advance_while_progress _ st c Hc Hp).
Qed.

Lemma tokenize_string_ok q st :
  match _tokenize_string source q st with
  | Ok st' => lexeme st st'
  | Error (Raised (UnterminatedString _)) => True
  | Error _ => False
  end.
Proof.
  unfold _tokenize_string.
  destruct (scan_string _ _ _ _ _ _) as [p l c|] eqn:E; [|exact I].
  apply scan_string_from in E. simpl in E.
  split; [|simpl; lia].
  eapply extends_trans; [|apply extends_advance].
  eapply extends_trans; [|apply extends_emit; reflexivity].
  eapply extends_trans; [apply (extends_advance 1)|].
  apply extends_goto. simpl. lia.
Qed.

Ltac ext_chain :=
  lazymatch goal with
  | |- extends ?a ?a => apply extends_refl
  | |- extends _ (emit _ _) =>
      eapply extends_trans; [|apply extends_emit; reflexivity]; ext_chain
  | |- extends _ (_advance _ _) => eapply extends_trans; [|apply extends_advance]; ext_chain
  | |- extends _ (advance_while _ _ _) =>
      eapply extends_trans; [|apply extends_advance_while]; ext_chain
  end.

Lemma tokenize_variable_declaration_ok st :
  _is_variable_declaration source st = true ->
  exists st', _tokenize_variable_declaration source st = Ok st' /\ lexeme st st'.
Proof.
  unfold _is_variable_declaration, _tokenize_variable_declaration. intros H.
  change (position (advance_while source isspace (advance_while source isword (_advance 1 st))))
    with (after_name_and_space source (position st)).
  rewrite H. eexists. split; [reflexivity|]. split; [ext_chain|].
  cbn [position emit advance_while _advance]. lia.
Qed.

Lemma tokenize_variable_reference_ok st : lexeme st (_tokenize_variable_reference source st).
Proof.
  unfold _tokenize_variable_reference. split; [ext_chain|].
  cbn [position emit advance_while _advance]. lia.
Qed.

Lemma header_token_ok ty include_colon st c :
  TokenType_eqb ty INDENT = false -> TokenType_eqb ty DEDENT = false ->
  at_pos source (position st) = Some c -> not_colon_or_newline c = true ->
  lexeme st (header_token source ty include_colon st).
Proof.
  intros H1 H2 Hc Hp. unfold header_token.
  pose proof (advance_while_progress _ st c Hc Hp) as Hlt.
  destruct (include_colon && char_is source _ ":"); split;
    try (eapply extends_trans; [|apply extends_emit; assumption]; ext_chain);
    cbn [position emit _advance] in *; lia.
Qed.

Lemma tokenize_element_or_attribute_ok st c :
  at_pos source (position st) = Some c -> name_char c = true ->
  lexeme st (_tokenize_element_or_attribute source st).
Proof.
  intros Hc Hp. unfold _tokenize_element_or_attribute.
  pose proof (advance_while_progress _ st c Hc Hp) as Hlt.
  destruct (match at_pos source _ with Some _ => _ | None => false end).
  - destruct (char_is source _ ":").
    + split; [ext_chain|exact Hlt].
    + destruct (nonempty _); split; try ext_chain;
        cbn [position emit advance_while _advance] in *; lia.
  - split; [ext_chain|exact Hlt].
Qed.

Lemma step_ok st :
  inv st -> position st < String.length source ->
  match step source st with
  | Ok st' => inv st' /\ position st < position st'
  | Error (Raised e) => reachable_error e = true
  | Error _ => False
  end.
Proof.
  intros Hinv Hlt. unfold step.
  assert (Hfirst :
    match (if (position st =? 0) || char_is source (position st - 1) LF
           then _handle_indentation source st else Ok st) with
    | Ok st1 => inv st1 /\ position st <= position st1
    | Error (Raised e) => reachable_error e = true
    | Error _ => False
    end).
  { destruct ((position st =? 0) || char_is source (position st - 1) LF).
    - pose proof (handle_indentation_ok st Hinv) as H.
      destruct (_handle_indentation source st) as [st1|[[]| |]]; auto.
    - split; [assumption|lia]. }
  destruct (if (position st =? 0) || char_is source (position st - 1) LF
            then _handle_indentation source st else Ok st) as [st1|f]; [|exact Hfirst].
  destruct Hfirst as [Hinv1 Hle]. cbn [rbind].
  assert (Hlex : forall st', lexeme st1 st' -> inv st' /\ position st < position st').
  { intros st' [Hext Hpos]. split; [now apply (extends_inv st1)|lia]. }
  destruct (at_pos source (position st1)) as [char|] eqn:Hc.
  2:{ split; [assumption|]. apply get_none_length in Hc. lia. }
  destruct (prefix triple_quote _).
  { pose proof (tokenize_multiline_string_ok st1) as H.
    destruct (_tokenize_multiline_string source st1) as [st'|[[]| |]]; auto. }
  destruct (char =? "#")%char eqn:E1.
  { apply Hlex, (tokenize_comment_ok st1 char Hc).
    apply Ascii.eqb_eq in E1. now subst. }
  destruct ((char =? DQ)%char || (char =? SQ)%char).
  { pose proof (tokenize_string_ok char st1) as H.
    destruct (_tokenize_string source char st1) as [st'|[[]| |]]; auto. }
  destruct (char =? "$")%char.
  { destruct (_is_variable_declaration source st1) eqn:E.
    - destruct (tokenize_variable_declaration_ok st1 E) as (st' & -> & H). now apply Hlex.
    - apply Hlex, tokenize_variable_reference_ok. }
  destruct (char =? ":")%char eqn:E2.
  { apply Hlex. split; [ext_chain|]. cbn [position emit _advance]. lia. }
  assert (Hncn : forall b, (char =? LF)%char = b -> b = false -> not_colon_or_newline char = true).
  { intros b Hb ->. unfold not_colon_or_newline. now rewrite E2, Hb. }
  destruct (char =? "@")%char eqn:E3.
  { assert (not_colon_or_newline char = true) as Hp.
    { apply Ascii.eqb_eq in E3. now subst. }
    destruct (_is_component_definition source st1); apply Hlex;
      now apply (header_token_ok _ _ st1 char). }
  destruct (char =? LF)%char eqn:E4.
  { apply Hlex. split.
    - apply extends_trans with (_advance 1 (emit (mkToken NEWLINE lf (cur_line st1) (cur_column st1)) st1)).
      + ext_chain.
      + apply extends_goto. lia.
    - cbn [position goto emit _advance]. lia. }
  pose proof (Hncn false eq_refl eq_refl) as Hp.
  destruct (_is_for_loop source st1).
  { apply Hlex. now apply (header_token_ok _ _ st1 char). }
  destruct (_is_if_statement source st1).
  { apply Hlex. now apply (header_token_ok _ _ st1 char). }
  destruct (_is_else_statement source st1).
  { apply Hlex. now apply (header_token_ok _ _ st1 char). }
  destruct (isalpha char || (char =? "_")%char) eqn:E5.
  { apply Hlex, (tokenize_element_or_attribute_ok st1 char Hc).
    unfold name_char, isalnum. apply orb_true_iff in E5 as [-> | ->]; 
      rewrite ?orb_true_r; reflexivity. }
  apply Hlex. split; [ext_chain|]. cbn [position _advance]. lia.
Qed.

(** *** The main loop and the closing of open levels *)

Lemma main_loop_ok : forall budget st,
  inv st -> String.length source - position st <= budget ->
  match main_loop source budget st with
  | Ok st' => inv st'
  | Error (Raised e) => reachable_error e = true
  | Error _ => False
  end.
Proof.
  induction budget as [|budget IH]; intros st Hinv Hb; cbn [main_loop];
    destruct (position st <? String.length source) eqn:E; try assumption;
    apply Nat.ltb_lt in E; [lia|].
  pose proof (step_ok st Hinv E) as Hstep.
  destruct (step source st) as [st'|f]; [|exact Hstep].
  destruct Hstep as [Hinv' Hlt]. cbn [rbind]. apply IH; [assumption|lia].
Qed.

Lemma pop_while_open_ok : forall stk n,
  stack_ok stk -> pop_while_open stk n = Ok ([0], n + (List.length stk - 1)).
Proof.
  induction stk as [|top below IH]; intros n Hok; [contradiction|].
  cbn [pop_while_open]. destruct below as [|next below'].
  - simpl in Hok. subst top. simpl. do 2 f_equal. lia.
  - destruct Hok as [Hlt Hok]. replace (0 <? top) with true by (symmetry; apply Nat.ltb_lt; lia).
    rewrite (IH (S n) Hok). do 2 f_equal. simpl. lia.
Qed.

Lemma finish_ok st :
  inv st ->
  finish st
  = Ok (tokens st
        ++ repeat (mkToken DEDENT "" (cur_line st) (cur_column st))
                  (List.length (indent_stack st) - 1)
        ++ [mkToken EOF "" (cur_line st) (cur_column st)])%list.
Proof. intros [Hok _]. unfold finish. now rewrite (pop_while_open_ok _ 0 Hok). Qed.

End WithSource.

(** No triple quote in the text: the search for the closing delimiter
    fails, and conversely. *)
Lemma scan_multiline_none_iff : forall s pos ln col,
  scan_multiline s pos ln col = None <-> contains triple_quote s = false.
Proof.
  induction s as [|c s IH]; intros pos ln col; [split; reflexivity|].
  cbn [scan_multiline].
  destruct (String.length (String c s) <? 3) eqn:El.
  - split; [intros _|reflexivity]. apply Nat.ltb_lt in El. now apply contains_short.
  - cbn [contains].
    destruct (prefix triple_quote (String c s)) eqn:Ep; [split; discriminate|].
    simpl orb. destruct (c =? LF)%char; apply IH.
Qed.

(** On a stack of strictly decreasing widths, popping the levels deeper
    than [indent] ends on [indent] exactly when [indent] is on the stack. *)
Lemma stack_ok_bound : forall stk top below x,
  stack_ok stk -> stk = top :: below -> In x below -> x < top.
Proof.
  induction stk as [|a stk IH]; intros top below x Hok E Hin; [discriminate|].
  injection E as -> ->. destruct below as [|b below]; [contradiction|].
  destruct Hok as [Hlt Hok]. destruct Hin as [->|Hin]; [assumption|].
  pose proof (IH b below x Hok eq_refl Hin). lia.
Qed.

Lemma stack_ok_tail top below : stack_ok (top :: below) -> below <> [] -> stack_ok below.
Proof. destruct below; [easy|]. now intros [_ H] _. Qed.

Lemma pop_while_deeper_top indent : forall stk n stk' n',
  stack_ok stk -> pop_while_deeper indent stk n = Ok (stk', n') ->
  exists top below, stk' = top :: below /\ top <= indent
                    /\ (top = indent <-> In indent stk).
Proof.
  induction stk as [|a stk IH]; intros n stk' n' Hok H; [contradiction|].
  cbn [pop_while_deeper] in H. destruct (indent <? a) eqn:E.
  - apply Nat.ltb_lt in E. destruct stk as [|b stk]; [discriminate|].
    destruct (IH _ _ _ (stack_ok_tail _ _ Hok ltac:(discriminate)) H)
      as (top & below & -> & Hle & Hiff).
    exists top, below. split; [reflexivity|]. split; [assumption|].
    rewrite Hiff. split; [now right|]. intros [->|Hin]; [lia|assumption].
  - apply Nat.ltb_ge in E. injection H as <- <-. exists a, stk.
    split; [reflexivity|]. split; [assumption|]. split; [now left|].
    intros [->|Hin]; [reflexivity|].
    pose proof (stack_ok_bound _ a stk indent Hok eq_refl Hin). lia.
Qed.

Section WithSource.

Variable source : string.

(** The indentation of a line that is neither blank nor a comment raises
    exactly when it is less than the current indentation and is not a
    width on the stack. *)
Lemma handle_indentation_raises_iff st :
  inv st ->
  let indent := span_len (fun c => isspace c && negb (c =? LF)%char)
                         (rest source (position st)) in
  char_is source (position st + indent) LF || char_is source (position st + indent) "#" = false ->
  (exists l, _handle_indentation source st = Error (Raised (InconsistentIndentation l)))
  <-> (exists top below, indent_stack st = top :: below /\ indent < top)
      /\ ~ In indent (indent_stack st).
Proof.
  intros [Hok _] indent Hline. unfold _handle_indentation. fold indent.
  cbn [position _advance indent_stack cur_line]. rewrite Hline.
  destruct (indent_stack st) as [|current_indent below] eqn:Estk; [contradiction|].
  destruct (current_indent <? indent) eqn:E1.
  { apply Nat.ltb_lt in E1. split.
    - intros [l H]. discriminate.
    - intros [(top & b & [= <- <-] & Hlt) _]. lia. }
  destruct (indent <? current_indent) eqn:E2.
  2:{ apply Nat.ltb_ge in E1, E2. split.
      - intros [l H]. discriminate.
      - intros [(top & b & [= <- <-] & Hlt) _]. lia. }
  apply Nat.ltb_lt in E2.
  destruct (pop_while_deeper_ok indent (current_indent :: below) 0 Hok)
    as (stk' & n' & Hpop & _ & _).
  rewrite Hpop. cbn [rbind].
  destruct (pop_while_deeper_top indent _ _ _ _ Hok Hpop) as (top & rest' & -> & Hle & Hiff).
  destruct (indent =? top) eqn:E3.
  - apply Nat.eqb_eq in E3. split.
    + intros [l H]. discriminate.
    + intros [_ Hnot]. exfalso. apply Hnot, Hiff. congruence.
  - apply Nat.eqb_neq in E3. split.
    + intros _. split; [now exists current_indent, below|].
      intros Hin. apply Hiff in Hin. congruence.
    + intros _. eexists. reflexivity.
Qed.

End WithSource.

Lemma tokenize_outcome source :
  match tokenize source with
  | Ok toks =>
      exists st,
        main_loop source (String.length source) init = Ok st /\ inv st
        /\ toks = (tokens st
                   ++ repeat (mkToken DEDENT "" (cur_line st) (cur_column st))
                             (List.length (indent_stack st) - 1)
                   ++ [mkToken EOF "" (cur_line st) (cur_column st)])%list
  | Error (Raised e) => reachable_error e = true
  | Error _ => False
  end.
Proof.
  unfold tokenize.
  assert (Hinit : inv init) by (split; reflexivity).
  pose proof (main_loop_ok source (String.length source) init Hinit) as H.
  destruct (main_loop source (String.length source) init) as [st|f];
    cbn [rbind]; [|apply H; simpl; lia].
  assert (Hinv : inv st) by (apply H; simpl; lia).
  rewrite (finish_ok st Hinv). exists st.
  split; [reflexivity|split; [assumption|reflexivity]].
Qed.

(** Every iteration of the main loop consumes a character: the loop never
    uses up a budget of [len(source)] iterations. *)
Lemma main_loop_within_budget source : tokenize source <> Error LoopBudget.
Proof.
  pose proof (tokenize_outcome source) as H. intros E. now rewrite E in H.
Qed.

(** C5: on every source on which [tokenize] returns, the tokens hold as
    many INDENT as DEDENT tokens, and the list ends with one DEDENT for
    every level still open on the indentation stack when the main loop
    ends, followed by the EOF token. *)
Theorem tokenize_indent_dedent_balanced source toks :
  tokenize source = Ok toks ->
  count_type INDENT toks = count_type DEDENT toks
  /\ exists st,
       main_loop source (String.length source) init = Ok st
       /\ toks = (tokens st
                  ++ repeat (mkToken DEDENT "" (cur_line st) (cur_column st))
                            (List.length (indent_stack st) - 1)
                  ++ [mkToken EOF "" (cur_line st) (cur_column st)])%list.
Proof.
  intros E. pose proof (tokenize_outcome source) as H. rewrite E in H.
  destruct H as (st & Hloop & [Hok Hbal] & ->). split; [|now exists st].
  unfold balanced in Hbal.
  rewrite !count_type_app, !count_type_repeat, !count_type_one. simpl. lia.
Qed.

End LexerFacts.

(** ** The parser returns on every token list that ends with EOF *)

Module ParserFacts.
Import PyStr Lexer AST Regex Parser ParserInv.

Lemma TokenType_eqb_eq a b : TokenType_eqb a b = true <-> a = b.
Proof. destruct a, b; simpl; split; intros H; try reflexivity; discriminate. Qed.

Lemma TokenType_eqb_neq a b : TokenType_eqb a b = false <-> a <> b.
Proof. destruct a, b; simpl; split; intros H; try reflexivity; try discriminate; congruence. Qed.

Section WithTokens.

Variable tokens : list Token.
Hypothesis Heof : ends_with_eof tokens.

#[local] Abbreviation inv := (ParserInv.inv tokens).
#[local] Abbreviation remaining := (ParserInv.remaining tokens).
#[local] Abbreviation onward := (ParserInv.onward tokens).
#[local] Abbreviation forward := (ParserInv.forward tokens).
#[local] Abbreviation safe_at := (ParserInv.safe_at tokens).
#[local] Abbreviation not_at_end := (ParserInv.not_at_end tokens).
#[local] Abbreviation current_type := (ParserInv.current_type tokens).

Lemma returns_ret {A} (a : A) st (Q : A -> State -> Prop) : Q a st -> returns (ret a) st Q.
Proof. intros H. now exists a, st. Qed.

Lemma returns_bind {A B} (m : M A) (k : A -> M B) st Q R :
  returns m st Q -> (forall a st', Q a st' -> returns (k a) st' R) ->
  returns (bind m k) st R.
Proof.
  intros (a & st' & Hm & HQ) Hk. unfold returns, bind. rewrite Hm. now apply Hk.
Qed.

Lemma returns_weaken {A} (m : M A) st (Q R : A -> State -> Prop) :
  returns m st Q -> (forall a st', Q a st' -> R a st') -> returns m st R.
Proof. intros (a & st' & Hm & HQ) H. exists a, st'. auto. Qed.

Lemma onward_refl st : inv st -> onward st st.
Proof. intros H. split; [assumption|lia]. Qed.

Lemma onward_trans a b c : onward a b -> onward b c -> onward a c.
Proof. intros [? ?] [? ?]. split; [assumption|lia]. Qed.

Lemma forward_onward a b : forward a b -> onward a b.
Proof. intros [? ?]. split; [assumption|lia]. Qed.

Lemma onward_remaining a b : onward a b -> remaining b <= remaining a.
Proof. intros [? ?]. unfold ParserInv.remaining. lia. Qed.

Lemma safe_ret {A} n (a : A) : safe_at n (ret a).
Proof. intros st Hinv _. apply returns_ret. now apply onward_refl. Qed.

Lemma safe_bind {A B} n (m : M A) (k : A -> M B) :
  safe_at n m -> (forall a, safe_at n (k a)) -> safe_at n (bind m k).
Proof.
  intros Hm Hk st Hinv Hrem. eapply returns_bind; [now apply Hm|].
  intros a st' Hon. cbv beta in Hon.
  eapply returns_weaken.
  - apply Hk; [apply Hon|]. apply onward_remaining in Hon. lia.
  - intros b st'' Hon'. cbv beta in *. now apply onward_trans with st'.
Qed.

Lemma safe_le {A} n n' (m : M A) : n' <= n -> safe_at n m -> safe_at n' m.
Proof. intros Hle H st Hinv Hrem. apply H; [assumption|lia]. Qed.

(** *** The primitives *)

Lemma inv_token st : inv st -> exists t, token_at tokens (position st) = Some t.
Proof.
  intros H. unfold token_at. destruct (nth_error tokens (position st)) eqn:E; [eauto|].
  apply nth_error_None in E. unfold ParserInv.inv in H. lia.
Qed.

Lemma not_at_end_next st : not_at_end st -> S (position st) < List.length tokens.
Proof.
  intros (t & Ht & Hty). destruct Heof as (pre & e & -> & He).
  unfold token_at in Ht. rewrite length_app. simpl.
  assert (position st < List.length (pre ++ [e])) as Hlt by (apply nth_error_Some; congruence).
  rewrite length_app in Hlt. simpl in Hlt.
  destruct (Nat.eq_dec (position st) (List.length pre)) as [Heq|]; [|lia].
  rewrite Heq, nth_error_app2, Nat.sub_diag in Ht by lia. simpl in Ht. congruence.
Qed.

Lemma peek_spec st :
  inv st -> returns (_peek tokens) st (fun t st' => st' = st /\ token_at tokens (position st) = Some t).
Proof.
  intros H. destruct (inv_token st H) as [t Ht]. exists t, st. unfold _peek. rewrite Ht. auto.
Qed.

Lemma is_at_end_spec st :
  inv st ->
  returns (_is_at_end tokens) st
          (fun b st' => st' = st /\ if b then ~ not_at_end st else not_at_end st).
Proof.
  intros H. destruct (inv_token st H) as [t Ht].
  unfold returns, _is_at_end, bind, _peek, ret.
  replace (List.length tokens <=? position st) with false
    by (symmetry; apply Nat.leb_gt; exact H).
  rewrite Ht. eexists _, st. split; [reflexivity|]. split; [reflexivity|].
  destruct (TokenType_eqb (type t) EOF) eqn:E.
  - apply TokenType_eqb_eq in E. intros (t' & Ht' & Hty). congruence.
  - exists t. split; [assumption|]. now apply TokenType_eqb_neq.
Qed.

Lemma current_not_at_end ty st : current_type ty st -> ty <> EOF -> not_at_end st.
Proof. intros (t & Ht & Hty) Hne. exists t. split; [assumption|congruence]. Qed.

Lemma check_spec ty st :
  inv st ->
  returns (_check tokens ty) st
          (fun b st' => st' = st /\ (b = true <-> not_at_end st /\ current_type ty st)).
Proof.
  intros H. unfold _check. eapply returns_bind; [now apply is_at_end_spec|].
  intros [|] st' [-> Hne]; cbv beta.
  - apply returns_ret. split; [reflexivity|]. split; [discriminate|]. now intros [? _].
  - eapply returns_bind; [now apply peek_spec|]. intros t st' [-> Ht]. apply returns_ret.
    split; [reflexivity|]. split.
    + intros E. split; [assumption|]. exists t. split; [assumption|]. now apply TokenType_eqb_eq.
    + intros [_ (t' & Ht' & Hty)]. apply TokenType_eqb_eq. congruence.
Qed.

Lemma previous_spec st :
  inv st -> returns (previous tokens) st (fun _ st' => st' = st).
Proof.
  intros H. unfold returns, previous, ParserInv.inv in *.
  destruct (position st) as [|p] eqn:Ep.
  - destruct (nth_error tokens (List.length tokens - 1)) eqn:E; [eauto|].
    apply nth_error_None in E. lia.
  - destruct (nth_error tokens p) eqn:E; [eauto|]. apply nth_error_None in E. lia.
Qed.

Lemma advance_spec st :
  inv st ->
  returns (_advance tokens) st
          (fun _ st' => onward st st' /\ (not_at_end st -> position st' = S (position st))).
Proof.
  intros H. unfold _advance. eapply returns_bind; [now apply is_at_end_spec|].
  intros at_end st' [-> Hne]. cbv beta.
  destruct at_end.
  - eapply returns_bind; [apply (returns_ret tt st (fun _ st' => st' = st)); reflexivity|].
    intros ? st' ->. eapply returns_weaken; [now apply previous_spec|]. intros ? st' ->.
    split; [now apply onward_refl|]. intros Hn. contradiction.
  - apply not_at_end_next in Hne.
    set (st1 := mkState (position st + 1) (variables st) (components st) (printed st)).
    apply (returns_bind _ _ st (fun _ st' => st' = st1)).
    { now exists tt, st1. }
    intros ? st' ->.
    assert (inv st1) as H1 by (unfold ParserInv.inv; simpl; lia).
    eapply returns_weaken; [now apply previous_spec|]. intros ? st' ->.
    split; [split; [assumption|simpl; lia]|]. intros _. simpl. lia.
Qed.

Lemma error_spec msg st :
  returns (_error msg) st (fun _ st' => position st' = position st).
Proof. eexists tt, _. split; reflexivity. Qed.

Lemma consume_spec ty st :
  inv st ->
  returns (_consume tokens ty) st
          (fun _ st' => onward st st'
                        /\ (current_type ty st -> ty <> EOF -> position st' = S (position st))).
Proof.
  intros H. unfold _consume. eapply returns_bind; [now apply check_spec|].
  intros ok st' [-> Hok]. cbv beta. destruct ok.
  - destruct (proj1 Hok eq_refl) as [Hne _].
    eapply returns_weaken; [now apply advance_spec|].
    intros ? st' [Hon Hpos]. split; [assumption|]. intros _ _. now apply Hpos.
  - eapply returns_bind; [now apply peek_spec|]. intros t st' [-> Ht]. cbv beta.
    eapply returns_bind; [apply error_spec|]. intros ? st' Hpos. cbv beta in *.
    apply returns_ret. split.
    + split; [unfold ParserInv.inv in *|]; lia.
    + intros Hcur Hty.
      assert (false = true) by (apply Hok; split; [now apply (current_not_at_end ty)|assumption]).
      discriminate.
Qed.

(** *** Calls that return without moving back *)

Lemma safe_of_spec {A} n (m : M A) (Q : State -> A -> State -> Prop) :
  (forall st, inv st -> returns m st (Q st)) ->
  (forall st a st', inv st -> Q st a st' -> onward st st') ->
  safe_at n m.
Proof.
  intros Hm HQ st Hinv _. eapply returns_weaken; [now apply Hm|].
  intros a st' H. now apply (HQ st a).
Qed.

Lemma safe_peek n : safe_at n (_peek tokens).
Proof.
  apply (safe_of_spec n _ (fun st t st' => st' = st /\ token_at tokens (position st) = Some t)).
  - apply peek_spec.
  - intros st a st' Hinv [-> _]. now apply onward_refl.
Qed.

Lemma safe_is_at_end n : safe_at n (_is_at_end tokens).
Proof.
  intros st Hinv _. eapply returns_weaken; [now apply is_at_end_spec|].
  intros a st' [-> _]. now apply onward_refl.
Qed.

Lemma safe_check n ty : safe_at n (_check tokens ty).
Proof.
  intros st Hinv _. eapply returns_weaken; [now apply check_spec|].
  intros a st' [-> _]. now apply onward_refl.
Qed.

Lemma safe_advance n : safe_at n (_advance tokens).
Proof.
  intros st Hinv _. eapply returns_weaken; [now apply advance_spec|].
  now intros a st' [? _].
Qed.

Lemma safe_consume n ty : safe_at n (_consume tokens ty).
Proof.
  intros st Hinv _. eapply returns_weaken; [now apply consume_spec|].
  now intros a st' [? _].
Qed.

Lemma safe_error n msg : safe_at n (_error msg).
Proof.
  intros st Hinv _. eexists tt, _. split; [reflexivity|].
  split; [exact Hinv|simpl; lia].
Qed.

Lemma safe_get_variables n : safe_at n get_variables.
Proof. intros st Hinv _. eexists _, st. split; [reflexivity|]. now apply onward_refl. Qed.

Lemma safe_set_variable n k v : safe_at n (set_variable k v).
Proof.
  intros st Hinv _. eexists tt, _. split; [reflexivity|]. split; [exact Hinv|simpl; lia].
Qed.

Lemma safe_set_component n k c : safe_at n (set_component k c).
Proof.
  intros st Hinv _. eexists tt, _. split; [reflexivity|]. split; [exact Hinv|simpl; lia].
Qed.

Ltac safe :=
  repeat first
    [ assumption
    | apply safe_ret | apply safe_peek | apply safe_is_at_end | apply safe_check
    | apply safe_advance | apply safe_consume | apply safe_error
    | apply safe_get_variables | apply safe_set_variable | apply safe_set_component
    | apply safe_bind; [|intro]
    | match goal with
      | |- ParserInv.safe_at _ _ (if ?b then _ else _) => destruct b
      | |- ParserInv.safe_at _ _ (match ?x with _ => _ end) => destruct x
      end ].

Lemma safe_parse_variable_declaration n : safe_at n (_parse_variable_declaration tokens).
Proof. unfold _parse_variable_declaration. safe. Qed.

Lemma safe_parse_multiline_string n : safe_at n (_parse_multiline_string tokens).
Proof. unfold _parse_multiline_string. safe. Qed.

Lemma safe_parse_attributes n s : safe_at n (_parse_attributes s).
Proof. unfold _parse_attributes. safe. Qed.

Lemma safe_parse_content n : safe_at n (_parse_content tokens).
Proof. unfold _parse_content. safe. Qed.

Lemma safe_parse_arguments n : forall args acc, safe_at n (parse_arguments args acc).
Proof. induction args as [|arg args IH]; intros acc; cbn [parse_arguments]; safe; apply IH. Qed.

Lemma safe_parse_component_use n : safe_at n (_parse_component_use tokens).
Proof. unfold _parse_component_use. safe; apply safe_parse_arguments. Qed.

Section WithBlock.

Variable block : M (list ASTNode).
Variable n : nat.
Hypothesis Hblock : safe_at n block.

Lemma safe_indented_block : safe_at n (indented_block tokens block).
Proof. unfold indented_block. safe. Qed.

Lemma safe_parse_element : safe_at n (_parse_element tokens block).
Proof. unfold _parse_element. safe; apply safe_parse_attributes || apply safe_parse_content. Qed.

Lemma safe_parse_for_loop : safe_at n (_parse_for_loop tokens block).
Proof. unfold _parse_for_loop. safe; apply safe_indented_block. Qed.

Lemma safe_parse_conditional : safe_at n (_parse_conditional tokens block).
Proof. unfold _parse_conditional. safe; apply safe_indented_block. Qed.

Lemma safe_parse_component_definition : safe_at n (_parse_component_definition tokens block).
Proof. unfold _parse_component_definition. safe; apply safe_indented_block. Qed.

End WithBlock.

(** A parser that starts by consuming the current token, of type [ty],
    moves forward. *)
Lemma consume_then {A} n ty (k : Token -> M A) st :
  ty <> EOF -> inv st -> remaining st <= S n -> current_type ty st ->
  (forall t, safe_at n (k t)) ->
  returns (bind (_consume tokens ty) k) st (fun _ st' => forward st st').
Proof.
  intros Hty Hinv Hrem Hcur Hk. eapply returns_bind; [now apply consume_spec|].
  intros t st' [Hon Hpos]. cbv beta in *. specialize (Hpos Hcur Hty).
  eapply returns_weaken.
  - apply Hk; [apply Hon|]. unfold ParserInv.remaining in *. lia.
  - intros a st'' [Hinv'' Hle]. cbv beta. split; [assumption|lia].
Qed.

Lemma some_forward {A} (m : M A) st :
  returns m st (fun _ st' => forward st st') ->
  returns (some m) st (fun _ st' => forward st st').
Proof.
  intros H. unfold some. eapply returns_bind; [exact H|].
  intros a st' Hf. now apply returns_ret.
Qed.

Lemma skip_forward st :
  inv st -> not_at_end st ->
  returns (_advance tokens ;;; ret (@None ASTNode)) st (fun _ st' => forward st st').
Proof.
  intros Hinv Hne. eapply returns_bind; [now apply advance_spec|].
  intros t st' [[Hinv' _] Hpos]. cbv beta in *. apply returns_ret.
  split; [assumption|]. rewrite (Hpos Hne). lia.
Qed.

Lemma unexpected_forward msg st :
  inv st -> not_at_end st ->
  returns (_error msg ;;; _advance tokens ;;; ret (@None ASTNode)) st
          (fun _ st' => forward st st').
Proof.
  intros Hinv Hne. eapply returns_bind; [apply error_spec|].
  intros u st1 Hpos. cbv beta in *.
  assert (inv st1) as Hinv1 by (unfold ParserInv.inv in *; lia).
  assert (not_at_end st1) as Hne1 by (unfold ParserInv.not_at_end in *; now rewrite Hpos).
  eapply returns_weaken; [now apply skip_forward|].
  intros a st' [? ?]. cbv beta. split; [assumption|lia].
Qed.

Ltac block_safe :=
  safe;
  first [ apply safe_indented_block | apply safe_parse_attributes | apply safe_parse_content
        | apply safe_parse_arguments ];
  assumption.

Lemma parse_statement_dispatch n (budget' : nat) st :
  safe_at n (_parse_block tokens budget') ->
  inv st -> remaining st <= S n -> not_at_end st ->
  returns (_parse_statement tokens (S budget')) st (fun _ st' => forward st st').
Proof.
  intros Hb Hinv Hrem Hne. cbn [_parse_statement].
  eapply returns_bind; [now apply peek_spec|]. intros t st' [-> Ht]. cbv beta.
  assert (Hcur : current_type (type t) st) by (now exists t).
  destruct (type t) eqn:Ety;
    try (now apply unexpected_forward); try (now apply skip_forward);
    apply some_forward.
  - unfold _parse_element. apply (consume_then n); try assumption; [discriminate|].
    intro. block_safe.
  - unfold _parse_variable_declaration. apply (consume_then n); try assumption; [discriminate|].
    intro. safe.
  - unfold _parse_for_loop. apply (consume_then n); try assumption; [discriminate|].
    intro. block_safe.
  - unfold _parse_conditional. apply (consume_then n); try assumption; [discriminate|].
    intro. block_safe.
  - unfold _parse_component_definition. apply (consume_then n); try assumption; [discriminate|].
    intro. block_safe.
  - unfold _parse_component_use. apply (consume_then n); try assumption; [discriminate|].
    intro. block_safe.
  - unfold _parse_multiline_string. apply (consume_then n); try assumption; [discriminate|].
    intro. safe.
Qed.

Lemma inv_remaining st : inv st -> 1 <= remaining st.
Proof. unfold ParserInv.inv, ParserInv.remaining. lia. Qed.

Lemma parse_statement_block_ok : forall budget,
  (forall n st, 2 * n <= budget -> inv st -> remaining st <= n -> not_at_end st ->
     returns (_parse_statement tokens budget) st (fun _ st' => forward st st'))
  /\ (forall n, 2 * n + 1 <= budget -> safe_at n (_parse_block tokens budget)).
Proof.
  induction budget as [|budget [IHs IHb]]; split.
  - intros n st Hn Hinv Hrem _. apply inv_remaining in Hinv. lia.
  - intros n Hn. lia.
  - intros n st Hn Hinv Hrem Hne. pose proof (inv_remaining st Hinv) as H1.
    destruct n as [|n]; [lia|].
    apply (parse_statement_dispatch n); try assumption. apply IHb. lia.
  - intros n Hn st Hinv Hrem. cbn [_parse_block].
    eapply returns_bind; [now apply is_at_end_spec|].
    intros at_end st' [-> Hend]. cbv beta in *. destruct at_end.
    { apply returns_ret. now apply onward_refl. }
    eapply returns_bind; [now apply check_spec|].
    intros is_dedent st' [-> _]. cbv beta. destruct is_dedent.
    { apply returns_ret. now apply onward_refl. }
    eapply returns_bind; [apply (IHs n); try assumption; lia|].
    intros stmt st1 [Hinv1 Hlt]. cbv beta in *.
    pose proof (inv_remaining st Hinv) as H1.
    eapply returns_bind.
    { apply (IHb (n - 1)); [lia|assumption|]. unfold ParserInv.remaining in *. lia. }
    intros stmts st2 [Hinv2 Hle]. cbv beta in *. apply returns_ret.
    split; [assumption|lia].
Qed.

Lemma parse_loop_ok : forall budget n,
  2 * n + 1 <= budget -> safe_at n (parse_loop tokens budget).
Proof.
  induction budget as [|budget IH]; intros n Hn; [lia|].
  intros st Hinv Hrem. cbn [parse_loop].
  eapply returns_bind; [now apply is_at_end_spec|].
  intros at_end st' [-> Hend]. cbv beta in *. destruct at_end.
  { apply returns_ret. now apply onward_refl. }
  eapply returns_bind; [now apply peek_spec|].
  intros t st' [-> Ht]. cbv beta. destruct (TokenType_eqb (type t) EOF).
  { apply returns_ret. now apply onward_refl. }
  eapply returns_bind.
  { apply (proj1 (parse_statement_block_ok budget) n); try assumption; lia. }
  intros stmt st1 [Hinv1 Hlt]. cbv beta in *.
  pose proof (inv_remaining st Hinv) as H1.
  eapply returns_bind.
  { apply (IH (n - 1)); [lia|assumption|]. unfold ParserInv.remaining in *. lia. }
  intros stmts st2 [Hinv2 Hle]. cbv beta in *. apply returns_ret.
  split; [assumption|lia].
Qed.

(** On a token list that ends with EOF, [parse] returns a document. *)
Lemma parse_returns : exists ast st, parse tokens = Return ast st.
Proof.
  assert (inv init) as Hinit.
  { destruct Heof as (pre & e & -> & _). unfold ParserInv.inv. rewrite length_app. simpl. lia. }
  destruct (parse_loop_ok (parse_budget tokens) (List.length tokens)) with (st := init)
    as (children & st & Hrun & _);
    [unfold parse_budget; lia|assumption|unfold ParserInv.remaining; simpl; lia|].
  unfold parse, bind. rewrite Hrun. now eexists _, _.
Qed.

End WithTokens.
End ParserFacts.

(** ** Dictionaries *)

Module DictFacts.

Lemma get_set_same {V} k (v : V) d : Dict.get k (Dict.set k v d) = Some v.
Proof.
  induction d as [|[k' v'] d IH]; simpl.
  - now rewrite String.eqb_refl.
  - destruct (String.eqb k' k) eqn:E; simpl; rewrite E; [reflexivity|exact IH].
Qed.

Lemma get_set_other {V} k k' (v : V) d : k <> k' -> Dict.get k (Dict.set k' v d) = Dict.get k d.
Proof.
  intros Hne. induction d as [|[k0 v0] d IH]; simpl.
  - destruct (String.eqb k' k) eqn:E; [|reflexivity]. apply String.eqb_eq in E. congruence.
  - destruct (String.eqb k0 k') eqn:E; simpl.
    + apply String.eqb_eq in E. subst k0.
      destruct (String.eqb k' k) eqn:E'; [|reflexivity]. apply String.eqb_eq in E'. congruence.
    + now rewrite IH.
Qed.

Lemma get_del_same {V} k (d : Dict.t V) : Dict.get k (Dict.del k d) = None.
Proof.
  induction d as [|[k' v'] d IH]; simpl; [reflexivity|].
  destruct (String.eqb k' k) eqn:E; simpl; [exact IH|now rewrite E].
Qed.

Lemma mem_false_get {V} k (d : Dict.t V) : Dict.mem k d = false -> Dict.get k d = None.
Proof. unfold Dict.mem. now destruct (Dict.get k d). Qed.

(** Writes under other keys leave a key as it is. *)
Lemma get_update_with_other {V} (f : string -> string) k : forall (other d : Dict.t V),
  (forall p, f p = k -> Dict.get p other = None) ->
  Dict.get k (Dict.update_with f other d) = Dict.get k d.
Proof.
  unfold Dict.update_with. induction other as [|[p v] other IH]; intros d Hk; simpl; [reflexivity|].
  rewrite IH.
  - apply get_set_other. intros Heq. specialize (Hk p (eq_sym Heq)). simpl in Hk.
    now rewrite String.eqb_refl in Hk.
  - intros q Hq. specialize (Hk q Hq). simpl in Hk.
    destruct (String.eqb p q); [discriminate|assumption].
Qed.

(** The value written for a key is the value read under it afterwards. *)
Lemma get_update_with {V} (f : string -> string) :
  (forall p q, f p = f q -> p = q) ->
  forall (other d : Dict.t V) p v,
    Dict.unique_keys other = true -> Dict.get p other = Some v ->
    Dict.get (f p) (Dict.update_with f other d) = Some v.
Proof.
  intros Hinj. induction other as [|[k v0] other IH]; intros d p v Hu Hg; [discriminate|].
  simpl in Hu, Hg. apply andb_true_iff in Hu as [Hk Hu]. apply negb_true_iff in Hk.
  change (Dict.update_with f ((k, v0) :: other) d)
    with (Dict.update_with f other (Dict.set (f k) v0 d)).
  destruct (String.eqb k p) eqn:E.
  - apply String.eqb_eq in E. subst k. injection Hg as ->.
    rewrite get_update_with_other; [apply get_set_same|].
    intros q Hq. apply Hinj in Hq. subst q. now apply mem_false_get.
  - now apply IH.
Qed.

Lemma unique_keys_set {V} k (v : V) d :
  Dict.unique_keys d = true -> Dict.unique_keys (Dict.set k v d) = true.
Proof.
  induction d as [|[k' v'] d IH]; intros Hu; simpl in *; [reflexivity|].
  apply andb_true_iff in Hu as [Hk Hu]. destruct (String.eqb k' k) eqn:E; simpl.
  - now rewrite Hk, Hu.
  - rewrite (IH Hu), andb_true_r. apply negb_true_iff in Hk. apply negb_true_iff.
    unfold Dict.mem in *. rewrite get_set_other; [assumption|].
    intros <-. now rewrite String.eqb_refl in E.
Qed.

End DictFacts.

(** ** The generator *)

Module CompilerFacts.
Import PyStr AST Compiler CompilerInv DictFacts.

Lemma grows_refl st : grows st st.
Proof. exists []. now rewrite app_nil_r. Qed.

Lemma grows_trans a b c : grows a b -> grows b c -> grows a c.
Proof. intros [e1 H1] [e2 H2]. exists (e1 ++ e2)%list. now rewrite H2, H1, app_assoc. Qed.

Lemma grows_same a b : output_lines b = output_lines a -> grows a b.
Proof. intros H. exists []. now rewrite app_nil_r. Qed.

Lemma grows_append l st : grows st (append_line l st).
Proof. now exists [l]. Qed.

Lemma update_last_snoc f (ls : list string) x : update_last f (ls ++ [x]) = (ls ++ [f x])%list.
Proof. unfold update_last. now rewrite removelast_last, last_last. Qed.

Lemma grows_fold_append (g : State -> string -> string) : forall ls st,
  grows st (fold_left (fun st line => append_line (g st line) st) ls st).
Proof.
  induction ls as [|l ls IH]; intros st; simpl; [apply grows_refl|].
  eapply grows_trans; [apply grows_append|apply IH].
Qed.

Lemma special_element_grows tag attrs children st :
  grows st (_compile_special_element tag attrs children st).
Proof.
  unfold _compile_special_element.
  eapply grows_trans; [|apply grows_append].
  eapply grows_trans; [apply grows_append|].
  destruct (if truthy_str _ then _ else _) as [s|]; [|apply grows_refl].
  destruct (nonempty s); [|apply grows_refl].
  apply (grows_fold_append (fun st line => spaces (indentation st + 2) ++ line)).
Qed.

(** An evaluation without effect keeps every relation that holds of a
    state and itself. *)
Lemma without_effect_keeps (R : State -> State -> Prop) eval :
  (forall st, R st st) -> without_effect eval -> eval_keeps R eval.
Proof.
  intros HR H condition st. specialize (H condition st).
  destruct (eval condition st) as [b st'|e st'|e|]; try exact I; subst st'; apply HR.
Qed.

(** What [_compile_conditional] does once the evaluation of its condition
    has come back with a value, or with an exception that is caught. *)
Lemma conditional_decided eval f condition if_body else_body st :
  _compile_conditional eval f condition if_body else_body st
  = match eval (substitute_condition (variables st) condition) st with
    | Value result st1 => compile_nodes f (chosen_body result if_body else_body) st1
    | Raises e st1 =>
        compile_nodes f (chosen_body false if_body else_body)
          (print ("Warning: Failed to evaluate condition "
                  ++ substitute_condition (variables st) condition ++ ": " ++ e) st1)
    | Escapes e => Error (Escaped e)
    | Hangs => Error NoReturn
    end.
Proof.
  unfold _compile_conditional, chosen_body.
  destruct (eval _ st) as [[|] st1|e st1|e|]; cbn [rbind]; try reflexivity;
    now destruct else_body as [[|n ns]|].
Qed.

Section WithEval.

Variable eval : string -> State -> EvalResult.
Hypothesis Heval : eval_keeps grows eval.

Section WithNode.

Variable f : ASTNode -> State -> result Failure State.
Hypothesis Hf : forall node st st', f node st = Ok st' -> grows st st'.

Lemma compile_nodes_grows : forall nodes st st',
  compile_nodes f nodes st = Ok st' -> grows st st'.
Proof.
  induction nodes as [|node nodes IH]; intros st st' H; simpl in H.
  - injection H as <-. apply grows_refl.
  - destruct (f node st) as [st1|] eqn:E; [|discriminate].
    eapply grows_trans; [apply (Hf node); exact E|now apply IH].
Qed.

Lemma loop_over_grows tv body : forall items st st',
  loop_over f tv body items st = Ok st' -> grows st st'.
Proof.
  induction items as [|item items IH]; intros st st' H; simpl in H.
  - injection H as <-. apply grows_refl.
  - destruct (compile_nodes f body _) as [st1|] eqn:E; [|discriminate].
    apply compile_nodes_grows in E. apply IH in H.
    eapply grows_trans; [|exact H].
    eapply grows_trans; [apply grows_same|eapply grows_trans; [exact E|]].
    + reflexivity.
    + destruct (Dict.mem tv (variables st1)); [now apply grows_same|apply grows_refl].
Qed.

Lemma dispatch_grows node st st' : dispatch eval f node st = Ok st' -> grows st st'.
Proof.
  destruct node as [name attributes children content | value | n value | n
                    | iterator iterable body | condition if_body else_body
                    | n ps dv b | name arguments | c | c | v fmt];
    cbn [dispatch]; intros H; try (injection H as <-; apply grows_refl).
  - (* Element *)
    unfold _compile_element in H.
    destruct (String.eqb name "document").
    { destruct (compile_nodes f children _) as [st1|] eqn:E; [|discriminate].
      injection H as <-. apply compile_nodes_grows in E.
      eapply grows_trans; [|apply grows_append].
      eapply grows_trans; [|exact E].
      eapply grows_trans; apply grows_append. }
    destruct (String.eqb name "style" || String.eqb name "script").
    { injection H as <-. apply special_element_grows. }
    destruct (truthy_str content).
    { injection H as <-. unfold grows. cbn [output_lines set_output append_line].
      rewrite update_last_snoc. eauto. }
    destruct children as [|child children].
    { injection H as <-. eapply grows_trans; apply grows_append. }
    destruct (compile_nodes f (child :: children) _) as [st1|] eqn:E; [|discriminate].
    injection H as <-. apply compile_nodes_grows in E.
    eapply grows_trans; [|apply grows_append].
    eapply grows_trans; [apply grows_append|].
    eapply grows_trans; [apply grows_same|eapply grows_trans; [exact E|now apply grows_same]].
    reflexivity.
  - (* TextContent *) injection H as <-. apply grows_append.
  - (* VariableDeclaration *) injection H as <-. now apply grows_same.
  - (* ForLoop *)
    unfold _compile_for_loop in H. destruct (startswith "$" iterable).
    + destruct (Dict.get iterable (variables st)).
      * now apply loop_over_grows in H.
      * injection H as <-. now apply grows_same.
    + injection H as <-. now apply grows_same.
  - (* Conditional *)
    rewrite conditional_decided in H.
    pose proof (Heval (substitute_condition (variables st) condition) st) as Hk.
    destruct (eval _ st) as [result st1|e st1|e|]; try discriminate.
    + eapply grows_trans; [exact Hk|]. now apply compile_nodes_grows in H.
    + eapply grows_trans; [exact Hk|]. apply compile_nodes_grows in H.
      eapply grows_trans; [|exact H]. now apply grows_same.
  - (* ComponentUse *)
    unfold _compile_component_use in H.
    destruct (Dict.get name (components st)) as [component|].
    + destruct (compile_nodes f (body component) _) as [st1|] eqn:E; [|discriminate].
      injection H as <-. apply compile_nodes_grows in E.
      eapply grows_trans; [apply grows_same|eapply grows_trans; [exact E|now apply grows_same]].
      reflexivity.
    + injection H as <-. now apply grows_same.
Qed.

End WithNode.

Lemma compile_node_grows depth : forall node st st',
  _compile_node eval depth node st = Ok st' -> grows st st'.
Proof.
  induction depth as [|depth IH]; intros node st st' H; [discriminate|].
  cbn [_compile_node] in H. now apply (dispatch_grows (_compile_node eval depth) IH) in H.
Qed.


End WithEval.

Lemma append_assoc (a b c : string) : (a ++ b) ++ c = a ++ (b ++ c).
Proof. induction a as [|x a IH]; simpl; [reflexivity|now rewrite IH]. Qed.

Lemma length_append (a b : string) : String.length (a ++ b) = String.length a + String.length b.
Proof. induction a as [|x a IH]; simpl; [reflexivity|now rewrite IH]. Qed.

Lemma stake_append (a b : string) : stake (String.length a) (a ++ b) = a.
Proof. induction a as [|x a IH]; simpl; [now destruct b|now rewrite IH]. Qed.

(** Dropping the last character of a string that ends with [c]. *)
Lemma slice_neg_last (a : string) (c : ascii) : slice_neg 0 1 (a ++ String c "") = a.
Proof.
  unfold slice_neg, slice. rewrite length_append. simpl.
  replace (String.length a + 1 - 1 - 0) with (String.length a) by lia.
  apply stake_append.
Qed.

Lemma dollar_injective p q : dollar p = dollar q -> p = q.
Proof. unfold dollar. simpl. now intros [= ->]. Qed.

Lemma split_nonempty sep s : split sep s <> [].
Proof.
  destruct s as [|c s]; simpl; [discriminate|].
  destruct (c =? sep)%char; [discriminate|]. now destruct (split sep s).
Qed.

Lemma loop_items_nonempty raw_value : loop_items raw_value <> [].
Proof.
  unfold loop_items. destruct (startswith "[" raw_value && endswith "]" raw_value); [|discriminate].
  pose proof (split_nonempty "," (slice_neg 1 1 raw_value)) as H.
  destruct (split "," (slice_neg 1 1 raw_value)) as [|x xs]; [contradiction|].
  simpl. now destruct (quoted_by dq (strip x) && forallb (quoted_by dq) (map strip xs)).
Qed.

(** Replacing a text that does not occur changes nothing, so the test
    for an occurrence before a replacement changes nothing either. *)
Lemma replace_without_occurrence old new : old <> "" ->
  forall s, contains old s = false -> replace old new s = s.
Proof.
  intros Hold. unfold replace. destruct old as [|o old]; [contradiction|].
  induction s as [|c s IH]; intros H; [reflexivity|].
  cbn [contains] in H. apply orb_false_iff in H as [Hp Hc].
  cbn [replace_go]. rewrite Hp. now rewrite IH.
Qed.

Lemma contains_empty s : contains "" s = true.
Proof. now destruct s. Qed.

Lemma replace_where_it_occurs old new s :
  (if contains old s then replace old new s else s) = replace old new s.
Proof.
  destruct (contains old s) eqn:E; [reflexivity|].
  destruct old as [|o old]; [now rewrite contains_empty in E|].
  symmetry. now apply replace_without_occurrence.
Qed.

Lemma replace_chain (vars : Dict.t string) : forall text,
  fold_left (fun text kv => if contains (fst kv) text then replace (fst kv) (snd kv) text
                            else text) vars text
  = fold_left (fun text kv => replace (fst kv) (snd kv) text) vars text.
Proof.
  induction vars as [|kv vars IH]; intros text; [reflexivity|].
  cbn [fold_left]. now rewrite replace_where_it_occurs, IH.
Qed.

Lemma quote_variables_substitute : forall vars condition,
  substitute_condition vars condition = quote_variables vars condition.
Proof.
  unfold substitute_condition. induction vars as [|[k v] vars IH]; intros condition; [reflexivity|].
  cbn [fold_left quote_variables fst snd]. now rewrite replace_where_it_occurs, IH.
Qed.

Section WithEval.
Variable eval : string -> State -> EvalResult.

Lemma loop_over_unbinds f tv body : forall items st st',
  items <> [] -> loop_over f tv body items st = Ok st' ->
  Dict.get tv (variables st') = None.
Proof.
  induction items as [|item items IH]; intros st st' Hne H; [contradiction|].
  cbn [loop_over] in H.
  destruct (compile_nodes f body _) as [st1|]; [|discriminate].
  destruct items as [|item' items'].
  - cbn [loop_over] in H. injection H as <-.
    destruct (Dict.mem tv (variables st1)) eqn:E; simpl.
    + apply get_del_same.
    + now apply mem_false_get.
  - apply IH in H; [assumption|discriminate].
Qed.

(** C9: after a for-loop over a bound variable has completed, the
    iterator's name is unbound, whatever was bound to it before the loop;
    such a loop always has at least one item. *)
Theorem for_loop_unbinds_iterator depth iterator iterable body st st' raw_value :
  startswith "$" iterable = true ->
  Dict.get iterable (variables st) = Some raw_value ->
  _compile_node eval (S depth) (ForLoop iterator iterable body) st = Ok st' ->
  loop_items raw_value <> [] /\ Dict.get ("$" ++ iterator) (variables st') = None.
Proof.
  intros Hd Hg H. split; [apply loop_items_nonempty|].
  cbn [_compile_node dispatch] in H. unfold _compile_for_loop in H. rewrite Hd, Hg in H.
  eapply loop_over_unbinds; [apply loop_items_nonempty|exact H].
Qed.

(** C4: a use of a known component leaves the variable environment as it
    was before the use, and its body is emitted in an environment in which
    every supplied argument is bound to the supplied value, also where the
    component has a default for it. *)
Theorem component_use_restores_environment depth component_name arguments st st' component :
  Dict.get component_name (components st) = Some component ->
  Dict.unique_keys arguments = true ->
  _compile_node eval (S depth) (ComponentUse component_name arguments) st = Ok st' ->
  variables st' = variables st
  /\ exists body_env st_body,
       compile_nodes (_compile_node eval depth) (body component) (set_variables body_env st)
       = Ok st_body
       /\ st' = set_variables (variables st) st_body
       /\ forall param value,
            Dict.get param arguments = Some value ->
            Dict.get ("$" ++ param) body_env = Some value.
Proof.
  intros Hc Hu H. cbn [_compile_node dispatch] in H. unfold _compile_component_use in H.
  rewrite Hc in H. cbn [variables set_variables] in H.
  destruct (compile_nodes _ _ _) as [st_body|] eqn:E; [|discriminate].
  injection H as <-. split; [reflexivity|].
  eexists _, st_body. split; [exact E|]. split; [reflexivity|].
  intros param value Hp. now apply (get_update_with dollar dollar_injective).
Qed.

(** C2 (as amended): a for-loop whose iterable is not a variable reference,
    or is a reference to an unbound variable, prints one warning and leaves
    output and environment as they were; a reference bound to a value
    that is not bracketed runs the body once, with the iterator bound to
    that value. *)
Theorem for_loop_skipped_or_single_item depth iterator iterable body st :
  (startswith "$" iterable = false \/ Dict.get iterable (variables st) = None ->
   exists st' warning,
     _compile_node eval (S depth) (ForLoop iterator iterable body) st = Ok st'
     /\ output_lines st' = output_lines st
     /\ variables st' = variables st
     /\ printed st' = (printed st ++ [warning])%list)
  /\ (forall raw_value,
        startswith "$" iterable = true ->
        Dict.get iterable (variables st) = Some raw_value ->
        startswith "[" raw_value && endswith "]" raw_value = false ->
        _compile_node eval (S depth) (ForLoop iterator iterable body) st
        = match compile_nodes (_compile_node eval depth) body
                  (set_variables (Dict.set ("$" ++ iterator) raw_value (variables st)) st) with
          | Ok st1 =>
              Ok (if Dict.mem ("$" ++ iterator) (variables st1)
                  then set_variables (Dict.del ("$" ++ iterator) (variables st1)) st1
                  else st1)
          | Error f => Error f
          end).
Proof.
  split.
  - intros H. cbn [_compile_node dispatch]. unfold _compile_for_loop.
    destruct (startswith "$" iterable) eqn:Hd.
    + destruct H as [H|H]; [discriminate|]. rewrite H. eexists _, _. now repeat split.
    + eexists _, _. now repeat split.
  - intros raw_value Hd Hg Hb. cbn [_compile_node dispatch]. unfold _compile_for_loop.
    rewrite Hd, Hg. unfold loop_items. rewrite Hb. cbn [loop_over].
    now destruct (compile_nodes _ _ _).
Qed.


Lemma opening_tag_head tag attributes st :
  opening_tag tag attributes st = tag_head tag attributes (indentation st) ++ ">".
Proof.
  unfold opening_tag, tag_head. destruct (nonempty (_compile_attributes attributes));
    now rewrite !append_assoc.
Qed.

Section WithNode.

Variable f : ASTNode -> State -> result Failure State.
Hypothesis Hf : forall node st st', f node st = Ok st' -> grows st st'.

Lemma element_first_line tag attributes children content st st' :
  String.eqb tag "document" = false ->
  _compile_element f tag attributes children content st = Ok st' ->
  exists tail more,
    output_lines st'
    = (output_lines st
       ++ (tag_head tag attributes (indentation st) ++ ">" ++ tail)%string :: more)%list.
Proof.
  intros Hdoc H. unfold _compile_element in H. rewrite Hdoc in H.
  assert (Hopen : forall st1, grows (append_line (opening_tag tag attributes st) st) st1 ->
            exists tail more,
              output_lines st1
              = (output_lines st
                 ++ (tag_head tag attributes (indentation st) ++ ">" ++ tail)%string :: more)%list).
  { intros st1 [e He]. exists "", e. rewrite He. cbn [output_lines append_line].
    now rewrite <- app_assoc, opening_tag_head. }
  destruct (String.eqb tag "style" || String.eqb tag "script").
  { injection H as <-. unfold _compile_special_element.
    apply Hopen. eapply grows_trans; [|apply grows_append].
    destruct (if truthy_str _ then _ else _) as [s|]; [|apply grows_refl].
    destruct (nonempty s); [|apply grows_refl].
    apply (grows_fold_append (fun st line => spaces (indentation st + 2) ++ line)). }
  destruct (truthy_str content).
  { injection H as <-. cbn [output_lines set_output append_line].
    rewrite update_last_snoc, opening_tag_head, slice_neg_last. eexists _, []. reflexivity. }
  destruct children as [|child children].
  { injection H as <-. apply Hopen. apply grows_append. }
  destruct (compile_nodes f (child :: children) _) as [st1|] eqn:E; [|discriminate].
  injection H as <-. apply Hopen. apply (compile_nodes_grows f Hf) in E.
  eapply grows_trans; [|apply grows_append].
  eapply grows_trans; [apply grows_same|eapply grows_trans; [exact E|now apply grows_same]].
  reflexivity.
Qed.

End WithNode.

End WithEval.

(** A value in which no registered variable name occurs is stored as it is. *)
Lemma substitute_no_occurrence : forall (vars : Dict.t string) value,
  (forall kv, In kv vars -> contains (fst kv) value = false) ->
  Parser.substitute vars value = value.
Proof.
  unfold Parser.substitute. induction vars as [|kv vars IH]; intros value H; [reflexivity|].
  simpl. rewrite (H kv (or_introl eq_refl)). apply IH. intros kv' Hin. apply H. now right.
Qed.


Section WithEval.
Variable eval : string -> State -> EvalResult.

(** *** A larger recursion budget changes no result *)

Section Monotone.

Variables f g : ASTNode -> State -> result Failure State.
Hypothesis Hfg : forall node st, f node st <> Error RecursionDepth -> g node st = f node st.

Lemma compile_nodes_mono : forall nodes st,
  compile_nodes f nodes st <> Error RecursionDepth ->
  compile_nodes g nodes st = compile_nodes f nodes st.
Proof.
  induction nodes as [|node nodes IH]; intros st H; simpl in *; [reflexivity|].
  destruct (f node st) as [st1|e] eqn:E.
  - rewrite Hfg, E by (rewrite E; discriminate). now apply IH.
  - rewrite Hfg, E by (now rewrite E). reflexivity.
Qed.

Lemma loop_over_mono tv body : forall items st,
  loop_over f tv body items st <> Error RecursionDepth ->
  loop_over g tv body items st = loop_over f tv body items st.
Proof.
  induction items as [|item items IH]; intros st H; simpl in *; [reflexivity|].
  destruct (compile_nodes f body _) as [st1|e] eqn:E.
  - rewrite compile_nodes_mono, E by (rewrite E; discriminate). now apply IH.
  - rewrite compile_nodes_mono, E by (now rewrite E). reflexivity.
Qed.

Ltac through_nodes E H :=
  first [ rewrite compile_nodes_mono, E by (rewrite E; discriminate); reflexivity
        | rewrite compile_nodes_mono, E by (now rewrite E); reflexivity ].

Lemma dispatch_mono node st :
  dispatch eval f node st <> Error RecursionDepth ->
  dispatch eval g node st = dispatch eval f node st.
Proof.
  destruct node as [name attributes children content | value | n value | n
                    | iterator iterable body | condition if_body else_body
                    | n ps dv b | name arguments | c | c | v fmt];
    cbn [dispatch]; intros H; try reflexivity.
  - unfold _compile_element in *.
    destruct (String.eqb name "document").
    { destruct (compile_nodes f children _) as [st1|e] eqn:E; through_nodes E H. }
    destruct (String.eqb name "style" || String.eqb name "script"); [reflexivity|].
    destruct (truthy_str content); [reflexivity|].
    destruct children as [|child children]; [reflexivity|].
    destruct (compile_nodes f (child :: children) _) as [st1|e] eqn:E; through_nodes E H.
  - unfold _compile_for_loop in *. destruct (startswith "$" iterable); [|reflexivity].
    destruct (Dict.get iterable (variables st)); [|reflexivity].
    now apply loop_over_mono.
  - rewrite !conditional_decided in *.
    destruct (eval _ st) as [result st1|e st1|e|]; try reflexivity;
      now apply compile_nodes_mono.
  - unfold _compile_component_use in *.
    destruct (Dict.get name (components st)) as [component|]; [|reflexivity].
    destruct (compile_nodes f (body component) _) as [st1|e] eqn:E; through_nodes E H.
Qed.

End Monotone.

(** What emission comes to within some depth, if it is not the depth
    being reached, it comes to within every greater depth. *)
Lemma compile_node_deeper : forall depth node st,
  _compile_node eval depth node st <> Error RecursionDepth ->
  _compile_node eval (S depth) node st = _compile_node eval depth node st.
Proof.
  induction depth as [|depth IH]; intros node st H; [now contradiction H|].
  cbn [_compile_node] in *. now apply (dispatch_mono _ _ IH).
Qed.

Lemma compile_node_stable depth depth' node st :
  depth <= depth' ->
  _compile_node eval depth node st <> Error RecursionDepth ->
  _compile_node eval depth' node st = _compile_node eval depth node st.
Proof.
  induction 1 as [|depth' _ IH]; intros H; [reflexivity|].
  rewrite <- (IH H). apply compile_node_deeper. now rewrite (IH H).
Qed.

Lemma compile_node_depth_mono depth depth' node st st' :
  depth <= depth' ->
  _compile_node eval depth node st = Ok st' ->
  _compile_node eval depth' node st = Ok st'.
Proof.
  intros Hle H. rewrite (compile_node_stable depth depth' node st Hle); [exact H|].
  now rewrite H.
Qed.

End WithEval.

Section WithEval.
Variable eval : string -> State -> EvalResult.
Hypothesis Heval : eval_keeps frame eval.

(** *** Emission keeps the indentation and the component table *)

Lemma frame_refl st : frame st st.
Proof. now split. Qed.

Lemma frame_trans a b c : frame a b -> frame b c -> frame a c.
Proof. intros [? ?] [? ?]. split; congruence. Qed.

Lemma frame_fold_append (g : State -> string -> string) : forall ls st,
  frame st (fold_left (fun st line => append_line (g st line) st) ls st).
Proof.
  induction ls as [|l ls IH]; intros st; simpl; [apply frame_refl|].
  eapply frame_trans; [|apply IH]. now split.
Qed.

Lemma special_element_frame tag attrs children st :
  frame st (_compile_special_element tag attrs children st).
Proof.
  unfold _compile_special_element.
  set (st1 := append_line (opening_tag tag attrs st) st).
  assert (H : frame st st1) by now split.
  eapply frame_trans; [exact H|]. clearbody st1.
  match goal with
  | |- frame _ (append_line _ ?x) => assert (Hx : frame st1 x); [|destruct Hx; now split]
  end.
  destruct (if truthy_str _ then _ else _) as [s|]; [|apply frame_refl].
  destruct (nonempty s); [|apply frame_refl].
  apply (frame_fold_append (fun st line => spaces (indentation st + 2) ++ line)).
Qed.

Section WithNode.

Variable f : ASTNode -> State -> result Failure State.
Hypothesis Hf : forall node st st', f node st = Ok st' -> frame st st'.

Lemma compile_nodes_frame : forall nodes st st',
  compile_nodes f nodes st = Ok st' -> frame st st'.
Proof.
  induction nodes as [|node nodes IH]; intros st st' H; simpl in H.
  - injection H as <-. apply frame_refl.
  - destruct (f node st) as [st1|] eqn:E; [|discriminate].
    eapply frame_trans; [apply (Hf node); exact E|now apply IH].
Qed.

Lemma loop_over_frame tv body : forall items st st',
  loop_over f tv body items st = Ok st' -> frame st st'.
Proof.
  induction items as [|item items IH]; intros st st' H; simpl in H.
  - injection H as <-. apply frame_refl.
  - destruct (compile_nodes f body _) as [st1|] eqn:E; [|discriminate].
    apply compile_nodes_frame in E. apply IH in H.
    eapply frame_trans; [|exact H].
    eapply frame_trans; [|eapply frame_trans; [exact E|]].
    + now split.
    + destruct (Dict.mem tv (variables st1)); now split.
Qed.

Lemma dispatch_frame node st st' : dispatch eval f node st = Ok st' -> frame st st'.
Proof.
  destruct node as [name attributes children content | value | n value | n
                    | iterator iterable body | condition if_body else_body
                    | n ps dv b | name arguments | c | c | v fmt];
    cbn [dispatch]; intros H; try (injection H as <-; now split).
  - unfold _compile_element in H.
    destruct (String.eqb name "document").
    { destruct (compile_nodes f children _) as [st1|] eqn:E; [|discriminate].
      injection H as <-. apply compile_nodes_frame in E.
      eapply frame_trans; [|now split]. eapply frame_trans; [|exact E]. now split. }
    destruct (String.eqb name "style" || String.eqb name "script").
    { injection H as <-. apply special_element_frame. }
    destruct (truthy_str content); [injection H as <-; now split|].
    destruct children as [|child children]; [injection H as <-; now split|].
    destruct (compile_nodes f (child :: children) _) as [st1|] eqn:E; [|discriminate].
    injection H as <-. apply compile_nodes_frame in E. destruct E as [Ei Ec].
    simpl in Ei, Ec. split; simpl; [lia|assumption].
  - unfold _compile_for_loop in H. destruct (startswith "$" iterable).
    + destruct (Dict.get iterable (variables st)).
      * now apply loop_over_frame in H.
      * injection H as <-. now split.
    + injection H as <-. now split.
  - rewrite conditional_decided in H.
    pose proof (Heval (substitute_condition (variables st) condition) st) as Hk.
    destruct (eval _ st) as [result st1|e st1|e|]; try discriminate.
    + eapply frame_trans; [exact Hk|]. now apply compile_nodes_frame in H.
    + eapply frame_trans; [exact Hk|]. apply compile_nodes_frame in H.
      eapply frame_trans; [|exact H]. now split.
  - unfold _compile_component_use in H.
    destruct (Dict.get name (components st)) as [component|].
    + destruct (compile_nodes f (body component) _) as [st1|] eqn:E; [|discriminate].
      injection H as <-. apply compile_nodes_frame in E.
      eapply frame_trans; [|eapply frame_trans; [exact E|]]; now split.
    + injection H as <-. now split.
Qed.

End WithNode.

(** When the evaluation of conditions leaves the indentation counter and
    the component table alone, emission of a node leaves the counter as
    it found it and never writes to the table. *)
Lemma compile_node_frame depth : forall node st st',
  _compile_node eval depth node st = Ok st' ->
  indentation st' = indentation st /\ components st' = components st.
Proof.
  induction depth as [|depth IH]; intros node st st' H; [discriminate|].
  cbn [_compile_node] in H. now apply (dispatch_frame (_compile_node eval depth) IH) in H.
Qed.

End WithEval.

End CompilerFacts.

(** ** The pipeline, and the claims on concrete documents *)

Module ClarityFacts.
Import PyStr AST Lexer LexerInv LexerFacts Parser ParserInv ParserFacts Compiler CompilerInv
       CompilerFacts Clarity Examples.

(** Conjuncts that hold by evaluation, up to the last one. *)
Ltac compute_conj := repeat (apply conj; [vm_compute; reflexivity|]).

(** *** C1 *)

(** On the document of the first example the pipeline emits the div
    unindented and without the quoted line: the claimed text is not what
    it returns. *)
Lemma hello_is_unindented_and_textless :
  compile_source eval_raises 3 src_hello = Html actual_hello_html
  /\ String.eqb actual_hello_html claimed_hello_html = false.
Proof. split; vm_compute; reflexivity. Qed.

(** C1 (as amended): on the document of the first example the pipeline
    returns HTML whose first lines are the DOCTYPE, the html tag and the
    opening div tag, and whose last lines are the closing div and html
    tags, none of them indented: the document root does not indent its
    children.  A text node inside the div, in a tree that has one, is
    emitted two spaces inside the unindented div. *)
Theorem hello_div_is_not_indented eval depth :
  (exists middle,
     compile_source eval (3 + depth) src_hello
     = Html (join lf (["<!DOCTYPE html>"; "<html>"; "<div>"] ++ middle
                      ++ ["</div>"; "</html>"])%list))
  /\ Compiler.compile eval (3 + depth) hello_tree
     = Ok (join lf ["<!DOCTYPE html>"; "<html>"; "<div>"; "  Hello"; "</div>"; "</html>"]).
Proof. split; [exists []|]; vm_compute; reflexivity. Qed.

(** *** C3 *)

Lemma self_use_never_returns eval : forall depth st,
  Dict.get "A" (Compiler.components st)
  = Some (mkComponent "A" [] [] [ComponentUse "A" []]) ->
  _compile_node eval depth (ComponentUse "A" []) st = Error RecursionDepth.
Proof.
  induction depth as [|depth IH]; intros st H; [reflexivity|].
  cbn [_compile_node dispatch]. unfold _compile_component_use. rewrite H.
  cbn [body compile_nodes]. now rewrite IH.
Qed.

Lemma self_use_tree_never_returns eval depth :
  Compiler.compile eval depth self_use_tree = Error RecursionDepth.
Proof.
  unfold Compiler.compile, Compiler.run. cbn [children self_use_tree compile_nodes].
  destruct depth as [|depth]; [reflexivity|].
  change (_compile_node eval (S depth) (ComponentDefinition "A" [] [] [ComponentUse "A" []])
                        (_collect_components
                           [ComponentDefinition "A" [] [] [ComponentUse "A" []];
                            ComponentUse "A" []] Compiler.init))
    with (Ok (E := Failure)
              (_collect_components
                  [ComponentDefinition "A" [] [] [ComponentUse "A" []]; ComponentUse "A" []]
                  Compiler.init)).
  cbv iota. now rewrite self_use_never_returns.
Qed.


(** HTML returned within some depth is returned within every greater
    depth: only a document on which emission never returns is at the
    recursion limit for every depth. *)
Lemma compile_source_deeper eval depth depth' source html_output :
  depth <= depth' ->
  compile_source eval depth source = Html html_output ->
  compile_source eval depth' source = Html html_output.
Proof.
  intros Hle. unfold compile_source.
  destruct (tokenize source) as [tokens|]; [|discriminate].
  destruct (parse tokens) as [ast pst| |]; try discriminate.
  unfold Compiler.compile, Compiler.run.
  destruct (compile_nodes (_compile_node eval depth) _ _) as [st|[]] eqn:E; try discriminate.
  rewrite (compile_nodes_mono (_compile_node eval depth) (_compile_node eval depth')), E.
  - trivial.
  - intros node st0. now apply compile_node_stable.
  - now rewrite E.
Qed.

(** Each of the three errors is raised on some source. *)
Lemma unterminated_string_raises :
  tokenize (dq ++ "abc") = Error (Raised (UnterminatedString 1)).
Proof. vm_compute. reflexivity. Qed.

Lemma unterminated_multiline_string_raises :
  tokenize (triple_quote ++ "abc") = Error (Raised (UnterminatedMultilineString 1)).
Proof. vm_compute. reflexivity. Qed.

Lemma skipped_dedent_raises :
  tokenize ("a:" ++ lf ++ "    b:" ++ lf ++ "  c:" ++ lf)
  = Error (Raised (InconsistentIndentation 3)).
Proof. vm_compute. reflexivity. Qed.

(** A quote that is never closed is an error only where the lexer scans a
    string: in the value of a declaration or in a comment it is text. *)
Example unclosed_quote_in_a_declaration :
  compile_source eval_raises 2 ("$x = " ++ dq ++ "abc" ++ lf ++ "p: $x" ++ lf)
  = Html ("<p>" ++ dq ++ "abc</p>").
Proof. vm_compute. reflexivity. Qed.

Example unclosed_quote_in_a_comment :
  compile_source eval_raises 2 ("# " ++ dq ++ "abc" ++ lf ++ "p: hi" ++ lf) = Html "<p>hi</p>".
Proof. vm_compute. reflexivity. Qed.

(** A comment line may stand at any width. *)
Example comment_line_at_a_width_not_on_the_stack :
  compile_source eval_raises 2
    ("div:" ++ lf ++ "    p: hi" ++ lf ++ "  # note" ++ lf ++ "    p: ho" ++ lf)
  = Html ("<div>" ++ lf ++ "  <p>hi</p>" ++ lf ++ "  <p>ho</p>" ++ lf ++ "</div>").
Proof. vm_compute. reflexivity. Qed.

Lemma tokens_end_with_eof source tokens : tokenize source = Ok tokens -> ends_with_eof tokens.
Proof.
  intros E. pose proof (tokenize_outcome source) as H. rewrite E in H.
  destruct H as (st & _ & _ & ->). eexists (_ ++ _)%list, _. split.
  - now rewrite <- app_assoc.
  - reflexivity.
Qed.

(** *** C6 *)

(** C6, on a document the code handles otherwise: definitions inside a
    component body, a loop body and an if-body are not in the component
    table after the first pass, and the uses that follow find no
    component: the emission prints a warning for each and emits nothing. *)
Theorem nested_definitions_are_not_collected :
  exists tokens ast pst st,
    tokenize src_hidden_definitions = Ok tokens
    /\ parse tokens = Return ast pst
    /\ map fst (Compiler.components (_collect_components (children ast) Compiler.init))
       = ["Outer"]
    /\ Compiler.run eval_true 4 ast = Ok st
    /\ output_lines st = []
    /\ Compiler.printed st
       = ["Warning: Unknown component: Inner"; "Warning: Unknown component: InLoop";
          "Warning: Unknown component: InIf"].
Proof. eexists _, _, _, _. compute_conj. vm_compute. reflexivity. Qed.

(** Definitions at the top level and below elements are collected, also
    when they follow their use. *)
Lemma definition_after_use_is_collected eval :
  Compiler.compile eval 3
    (mkDocument [ComponentUse "B" [];
                 Element "div" [] [ComponentDefinition "B" [] [] [TextContent "b"]] None])
  = Ok (join lf ["b"; "<div>"; "</div>"]).
Proof. vm_compute. reflexivity. Qed.

(** *** C2 *)

(** A loop over a variable bound to plain text runs its body once and
    prints no warning. *)
Lemma loop_over_plain_value_runs_body :
  exists st',
    _compile_node eval_raises 2 plain_loop plain_loop_state = Ok st'
    /\ output_lines st' = ["Hello World"]
    /\ Compiler.printed st' = [].
Proof. eexists. compute_conj. vm_compute. reflexivity. Qed.

Lemma for_loop_skipped_or_single_item_witness :
  startswith "$" "xs" = false
  /\ (exists st' warning,
        _compile_node eval_raises 2 (ForLoop "x" "xs" [TextContent "Hello $x"]) plain_loop_state
        = Ok st'
        /\ output_lines st' = output_lines plain_loop_state
        /\ Compiler.variables st' = Compiler.variables plain_loop_state
        /\ Compiler.printed st' = (Compiler.printed plain_loop_state ++ [warning])%list)
  /\ startswith "$" "$name" = true
  /\ Dict.get "$name" (Compiler.variables plain_loop_state) = Some "World"
  /\ startswith "[" "World" && endswith "]" "World" = false
  /\ output_lines (final (_compile_node eval_raises 2 plain_loop plain_loop_state))
     = ["Hello World"].
Proof.
  apply conj; [reflexivity|]. apply conj.
  { apply (for_loop_skipped_or_single_item eval_raises 1 "x" "xs" [TextContent "Hello $x"]
             plain_loop_state).
    left. reflexivity. }
  compute_conj. unfold plain_loop.
  rewrite (proj2 (for_loop_skipped_or_single_item eval_raises 1 "x" "$name"
                    [TextContent "Hello $x"] plain_loop_state) "World");
    reflexivity.
Defined.

(** *** Witnesses *)

Lemma tokenize_indent_dedent_balanced_witness :
  tokenize src_hello = Ok hello_tokens
  /\ count_type INDENT hello_tokens = count_type DEDENT hello_tokens
  /\ exists st,
       main_loop src_hello (String.length src_hello) Lexer.init = Ok st
       /\ hello_tokens
          = (Lexer.tokens st
             ++ repeat (mkToken DEDENT "" (cur_line st) (cur_column st))
                       (List.length (indent_stack st) - 1)
             ++ [mkToken EOF "" (cur_line st) (cur_column st)])%list.
Proof.
  split; [vm_compute; reflexivity|].
  apply (tokenize_indent_dedent_balanced src_hello hello_tokens). vm_compute. reflexivity.
Defined.

(** The evaluations that have no effect on the compiler. *)
Lemma eval_true_without_effect : without_effect eval_true.
Proof. intros condition st. reflexivity. Qed.

Lemma eval_raises_without_effect : without_effect eval_raises.
Proof. intros condition st. reflexivity. Qed.

(** *** C8 *)



Lemma for_loop_unbinds_iterator_witness :
  startswith "$" "$xs" = true
  /\ Dict.get "$xs" (Compiler.variables shadowing_loop_state) = Some "[a, b]"
  /\ Dict.get "$x" (Compiler.variables shadowing_loop_state) = Some "old"
  /\ _compile_node eval_raises 2 shadowing_loop shadowing_loop_state
     = Ok (final (_compile_node eval_raises 2 shadowing_loop shadowing_loop_state))
  /\ output_lines (final (_compile_node eval_raises 2 shadowing_loop shadowing_loop_state))
     = ["item a"; "item b"]
  /\ loop_items "[a, b]" <> []
  /\ Dict.get "$x" (Compiler.variables
                      (final (_compile_node eval_raises 2 shadowing_loop shadowing_loop_state)))
     = None.
Proof.
  compute_conj.
  apply (for_loop_unbinds_iterator eval_raises 1 "x" "$xs" [TextContent "item $x"]
           shadowing_loop_state _ "[a, b]"); vm_compute; reflexivity.
Defined.

Lemma component_use_restores_environment_witness :
  Dict.get "Card" (Compiler.components card_state) = Some card
  /\ Dict.unique_keys [("color", "red")] = true
  /\ _compile_node eval_raises 3 card_use card_state
     = Ok (final (_compile_node eval_raises 3 card_use card_state))
  /\ output_lines (final (_compile_node eval_raises 3 card_use card_state)) = ["<p>red</p>"]
  /\ Compiler.variables (final (_compile_node eval_raises 3 card_use card_state))
     = Compiler.variables card_state
  /\ exists body_env st_body,
       compile_nodes (_compile_node eval_raises 2) (body card) (set_variables body_env card_state)
       = Ok st_body
       /\ final (_compile_node eval_raises 3 card_use card_state)
          = set_variables (Compiler.variables card_state) st_body
       /\ forall param value,
            Dict.get param [("color", "red")] = Some value ->
            Dict.get ("$" ++ param) body_env = Some value.
Proof.
  compute_conj.
  apply (component_use_restores_environment eval_raises 2 "Card" [("color", "red")]
           card_state _ card); vm_compute; reflexivity.
Defined.

(** *** C10 *)



(** The parser fixes an attribute value with its registry: a name that is
    in the registry is replaced, a name that is not is kept. *)
Example attribute_value_is_fixed_by_the_registry :
  Parser._parse_attributes ("class=" ++ dq ++ "$c" ++ dq ++ " id=" ++ dq ++ "$x" ++ dq)
                           (Parser.mkState 0 [("$c", "red")] [] [])
  = Return [("class", AttrStr "red"); ("id", AttrStr "$x")]
           (Parser.mkState 0 [("$c", "red")] [] []).
Proof. vm_compute. reflexivity. Qed.

(** *** C7 *)



(** The lines of that element under the two environments. *)
Lemma link_lines :
  output_lines (final (_compile_node eval_raises 2 link
                                     (set_variables [("$x", "1")] Compiler.init)))
  = ["<a href=" ++ dq ++ "$x" ++ dq ++ ">1</a>"]
  /\ output_lines (final (_compile_node eval_raises 2 link
                                        (set_variables [("$x", "2")] Compiler.init)))
     = ["<a href=" ++ dq ++ "$x" ++ dq ++ ">2</a>"].
Proof. split; vm_compute; reflexivity. Qed.

(** *** The embedding on small inputs *)

Example replace_is_leftmost_non_overlapping : replace "aa" "b" "aaa" = "ba".
Proof. reflexivity. Qed.

Example replace_of_empty_pattern : replace "" "-" "abc" = "-a-b-c-".
Proof. reflexivity. Qed.

Example split_keeps_empty_pieces : split "," "a,b," = ["a"; "b"; ""] /\ split "," "" = [""].
Proof. split; reflexivity. Qed.

Example strip_both_ends : strip "  a b  " = "a b".
Proof. reflexivity. Qed.

Example slice_of_single_quote_character : slice_neg 1 1 dq = "".
Proof. reflexivity. Qed.

Example for_loop_pattern_groups :
  option_map (fun m => (Regex.group 1 m, Regex.group 2 m))
             (Regex.re_match Regex.for_loop_re "for  x in $xs")
  = Some (Some "x", Some "$xs").
Proof. vm_compute. reflexivity. Qed.

Example component_use_pattern_groups :
  option_map (Regex.group 2) (Regex.re_match Regex.component_use_re "@A") = Some None
  /\ option_map (Regex.group 2) (Regex.re_match Regex.component_use_re "@A()") = Some (Some "").
Proof. split; vm_compute; reflexivity. Qed.

Example hello_token_types :
  map type hello_tokens
  = [ELEMENT; COLON; NEWLINE; INDENT; ELEMENT; COLON; NEWLINE; INDENT; STRING; NEWLINE;
     DEDENT; DEDENT; EOF].
Proof. reflexivity. Qed.

(** [for] followed by one space and a name is not a loop header to the
    lexer: the boundary test looks at the character after the space. *)
Example for_with_one_space_is_an_element :
  match tokenize ("for x in $xs:" ++ lf) with
  | Ok tokens => map (fun t => (type t, Lexer.value t)) tokens
  | Error _ => []
  end
  = [(ELEMENT, "for"); (ATTRIBUTE, "x in $xs"); (COLON, ":"); (NEWLINE, lf); (EOF, "")].
Proof. vm_compute. reflexivity. Qed.

Example hello_parse :
  parse hello_tokens
  = Return (mkDocument [Element "document" [] [Element "div" [] [] None] None])
           (Parser.mkState 12 [] []
              ["Parser Error: Unexpected token: Token(TokenType.STRING, '" ++ dq ++ "Hello" ++ dq
               ++ "', line=3, col=22)"]).
Proof. vm_compute. reflexivity. Qed.

Example variable_in_inline_content :
  compile_source eval_raises 2
    ("$name = " ++ dq ++ "World" ++ dq ++ lf ++ "p: " ++ dq ++ "Hello, $name!" ++ dq ++ lf)
  = Html "<p>Hello, World!</p>".
Proof. vm_compute. reflexivity. Qed.

Example loop_over_list_literal :
  compile_source eval_raises 3
    ("$items = [" ++ dq ++ "a" ++ dq ++ ", " ++ dq ++ "b" ++ dq ++ "]" ++ lf
     ++ "for  x in $items:" ++ lf ++ "  li: $x" ++ lf)
  = Html ("<li>a</li>" ++ lf ++ "<li>b</li>").
Proof. vm_compute. reflexivity. Qed.

(** A loop iterator is not in the parser's registry: in an attribute it
    stays as written, in inline content it is replaced at emission. *)
Example iterator_in_attribute_is_not_substituted :
  compile_source eval_raises 3
    ("$items = [a, b]" ++ lf ++ "for  x in $items:" ++ lf
     ++ "  li id=" ++ dq ++ "$x" ++ dq ++ ": $x" ++ lf)
  = Html ("<li id=" ++ dq ++ "$x" ++ dq ++ ">a</li>" ++ lf
          ++ "<li id=" ++ dq ++ "$x" ++ dq ++ ">b</li>").
Proof. vm_compute. reflexivity. Qed.

(** A variable declared before the element is in the registry. *)
Example declared_variable_in_attribute_is_substituted :
  compile_source eval_raises 2
    ("$c = " ++ dq ++ "red" ++ dq ++ lf ++ "p class=" ++ dq ++ "$c" ++ dq ++ ": hi" ++ lf)
  = Html ("<p class=" ++ dq ++ "red" ++ dq ++ ">hi</p>").
Proof. vm_compute. reflexivity. Qed.


End ClarityFacts.

(** * Further properties of the three stages *)

(** ** Strings *)

Module PyStrProps.
Import PyStr PyStrFacts CompilerFacts.


Lemma prefix_append p : forall x, prefix p (p ++ x) = true.
Proof.
  induction p as [|a p IH]; intros x; simpl; [now destruct x|].
  destruct (ascii_dec a a); [apply IH|contradiction].
Qed.

Lemma sdrop_append (a b : string) : sdrop (String.length a) (a ++ b) = b.
Proof. induction a as [|x a IH]; simpl; [now destruct b|exact IH]. Qed.

Lemma prefix_cons a b p s : prefix (String a p) (String b s) = (a =? b)%char && prefix p s.
Proof.
  cbn [prefix]. destruct (ascii_dec a b) as [->|Hne].
  - now rewrite Ascii.eqb_refl.
  - apply Ascii.eqb_neq in Hne. now rewrite Hne.
Qed.

Lemma prefix_nil s : prefix "" s = true.
Proof. now destruct s. Qed.

Lemma prefix_refl s : prefix s s = true.
Proof. induction s as [|c s IH]; [reflexivity|]. now rewrite prefix_cons, Ascii.eqb_refl. Qed.

Lemma prefix_trans : forall a b c, prefix a b = true -> prefix b c = true -> prefix a c = true.
Proof.
  induction a as [|x a IH]; intros b c Hab Hbc; [apply prefix_nil|].
  destruct b as [|y b]; [discriminate|]. destruct c as [|z c]; [discriminate|].
  rewrite prefix_cons in *. apply andb_true_iff in Hab as [Hxy Hab], Hbc as [Hyz Hbc].
  apply Ascii.eqb_eq in Hxy, Hyz. subst. rewrite Ascii.eqb_refl. simpl. now apply (IH b).
Qed.

Lemma stake_prefix : forall n s, prefix (stake n s) s = true.
Proof.
  induction n as [|n IH]; intros [|c s]; simpl stake; try reflexivity.
  now rewrite prefix_cons, Ascii.eqb_refl, IH.
Qed.

Lemma rstrip_prefix : forall s, prefix (rstrip s) s = true.
Proof.
  induction s as [|c s IH]; [reflexivity|]. cbn [rstrip].
  destruct (rstrip s) as [|r rs] eqn:E.
  - destruct (isspace c); [reflexivity|]. now rewrite prefix_cons, Ascii.eqb_refl, prefix_nil.
  - now rewrite prefix_cons, Ascii.eqb_refl, IH.
Qed.

(** Stripping a text that does not start with whitespace leaves a
    prefix of the text. *)
Lemma strip_prefix c s : isspace c = false -> prefix (strip (String c s)) (String c s) = true.
Proof.
  intros Hc. unfold strip, lstrip. cbn [span_len]. rewrite Hc. cbn [sdrop]. apply rstrip_prefix.
Qed.

Lemma length_stake : forall n s, String.length (stake n s) = Nat.min n (String.length s).
Proof. induction n as [|n IH]; intros [|c s]; simpl; try reflexivity. now rewrite IH. Qed.

Lemma length_sdrop : forall n s, String.length (sdrop n s) = String.length s - n.
Proof. induction n as [|n IH]; intros [|c s]; simpl; try reflexivity; try lia. now rewrite IH. Qed.

Lemma sdrop_sdrop : forall a b s, sdrop a (sdrop b s) = sdrop (b + a) s.
Proof.
  intros a b. revert a. induction b as [|b IH]; intros a s; [reflexivity|].
  destruct s as [|c s]; simpl; [now destruct a|apply IH].
Qed.

Lemma sdrop_stake : forall a b s, sdrop a (stake (a + b) s) = stake b (sdrop a s).
Proof.
  induction a as [|a IH]; intros b s; [reflexivity|].
  destruct s as [|c s]; simpl; [now destruct b|apply IH].
Qed.

Lemma get_sdrop_add : forall n s i, String.get i (sdrop n s) = String.get (n + i) s.
Proof.
  induction n as [|n IH]; intros s i; [reflexivity|].
  destruct s as [|c s]; simpl; [now destruct i|apply IH].
Qed.

Lemma get_stake : forall n s i, i < n -> String.get i (stake n s) = String.get i s.
Proof.
  induction n as [|n IH]; intros s i Hi; [lia|].
  destruct s as [|c s]; [reflexivity|]. destruct i as [|i]; simpl; [reflexivity|].
  apply IH. lia.
Qed.

Lemma prefix_stake p : forall s, prefix p s = true -> stake (String.length p) s = p.
Proof.
  induction p as [|a p IH]; intros s H; [now destruct s|].
  destruct s as [|b s]; [discriminate|]. rewrite prefix_cons in H.
  apply andb_true_iff in H as [Hab H]. apply Ascii.eqb_eq in Hab. subst b.
  simpl. now rewrite IH.
Qed.

Lemma prefix_of_stake p : forall n s,
  prefix p s = true -> String.length p <= n -> prefix p (stake n s) = true.
Proof.
  induction p as [|a p IH]; intros n s H Hn; [apply prefix_nil|].
  destruct s as [|b s]; [discriminate|]. destruct n as [|n]; [simpl in Hn; lia|].
  rewrite prefix_cons in H. apply andb_true_iff in H as [Hab H].
  cbn [stake]. rewrite prefix_cons, Hab. simpl. apply IH; [exact H|simpl in Hn; lia].
Qed.

(** A text whose first and last characters are [q]. *)
Lemma quoted_by_ends q s :
  2 <= String.length s -> String.get 0 s = Some q ->
  String.get (String.length s - 1) s = Some q ->
  quoted_by (String q "") s = true.
Proof.
  intros Hlen H0 Hl. unfold quoted_by, startswith, endswith. apply andb_true_iff. split.
  - destruct s as [|c s]; [discriminate|]. simpl in H0. injection H0 as ->.
    now rewrite prefix_cons, Ascii.eqb_refl, prefix_nil.
  - cbn [String.length]. apply andb_true_iff. split; [apply Nat.leb_le; lia|].
    apply String.eqb_eq.
    assert (Hd := get_sdrop _ _ _ Hl). rewrite Hd.
    f_equal. assert (String.length (sdrop (S (String.length s - 1)) s) = 0) as Hz.
    { rewrite length_sdrop. lia. }
    now destruct (sdrop (S (String.length s - 1)) s).
Qed.

Lemma endswith_append p a : endswith p (a ++ p) = true.
Proof.
  unfold endswith. rewrite length_append.
  replace (String.length a + String.length p - String.length p) with (String.length a) by lia.
  rewrite sdrop_append, String.eqb_refl, andb_true_r. apply Nat.leb_le. lia.
Qed.

(** [(a + b + c)[len(a):-len(c)]] is [b]. *)
Lemma slice_neg_middle (a b c : string) :
  slice_neg (String.length a) (String.length c) (a ++ b ++ c) = b.
Proof.
  unfold slice_neg, slice. rewrite !length_append, sdrop_append.
  replace (String.length a + (String.length b + String.length c) - String.length c
           - String.length a) with (String.length b) by lia.
  apply stake_append.
Qed.

Lemma rstrip_keeps_nonspace_end c : isspace c = false ->
  forall a, rstrip (a ++ String c "") = a ++ String c "".
Proof.
  intros Hc. induction a as [|x a IH]; simpl.
  - now rewrite Hc.
  - rewrite IH. now destruct a.
Qed.

(** A text that starts and ends with a character that is not whitespace
    is left as it is by [strip]. *)
Lemma strip_between_nonspace c1 c2 m :
  isspace c1 = false -> isspace c2 = false ->
  strip (String c1 (m ++ String c2 "")) = String c1 (m ++ String c2 "").
Proof.
  intros H1 H2. unfold strip, lstrip. simpl span_len. rewrite H1. simpl sdrop.
  apply (rstrip_keeps_nonspace_end c2 H2 (String c1 m)).
Qed.

Lemma length_split sep : forall s, List.length (split sep s) = S (TextShape.occurrences sep s).
Proof.
  induction s as [|c s IH]; simpl; [reflexivity|].
  destruct (c =? sep)%char; simpl; [now rewrite IH|].
  destruct (split sep s) as [|h t] eqn:E; [now apply split_nonempty in E|].
  simpl in *. exact IH.
Qed.

End PyStrProps.

(** ** Trees *)

Module ASTFacts.
Import AST.

(** Induction on a node with the property available for the nodes of
    every list below it. *)
Lemma ASTNode_nested_ind (P : ASTNode -> Prop) :
  (forall name attributes children content,
     Forall P children -> P (Element name attributes children content)) ->
  (forall iterator iterable body, Forall P body -> P (ForLoop iterator iterable body)) ->
  (forall condition if_body else_body,
     Forall P if_body ->
     match else_body with Some nodes => Forall P nodes | None => True end ->
     P (Conditional condition if_body else_body)) ->
  (forall name parameters default_values body,
     Forall P body -> P (ComponentDefinition name parameters default_values body)) ->
  (forall node,
     match node with
     | Element _ _ _ _ | ForLoop _ _ _ | Conditional _ _ _ | ComponentDefinition _ _ _ _ => False
     | _ => True
     end -> P node) ->
  forall node, P node.
Proof.
  intros HE HF HC HD HO. fix IH 1.
  assert (Hall : forall nodes, Forall P nodes).
  { fix IHl 1. intros [|node nodes]; constructor; [apply IH|apply IHl]. }
  intros [name attributes children content | value | n value | n
          | iterator iterable body | condition if_body else_body
          | n ps dv b | name arguments | c | c | v fmt];
    try (apply HO; exact I).
  - apply HE, Hall.
  - apply HF, Hall.
  - apply HC; [apply Hall|]. destruct else_body; [apply Hall|exact I].
  - apply HD, Hall.
Qed.

End ASTFacts.

(** ** The lexer: what the tokens of a source look like *)

Module LexerProps.
Import PyStr Lexer LexerInv TextShape LexerShape PyStrFacts PyStrProps LexerFacts.

(** *** Nesting and ascending lines *)

Lemma nesting_app : forall a b open,
  nesting open (a ++ b) = match nesting open a with
                          | Some open' => nesting open' b
                          | None => None
                          end.
Proof.
  induction a as [|t a IH]; intros b open; [reflexivity|].
  cbn [app nesting]. destruct (type t); try apply IH.
  destruct open; [reflexivity|apply IH].
Qed.

Lemma nesting_lexemes source : forall ts open,
  Forall (lexeme_ok source) ts -> nesting open ts = Some open.
Proof.
  induction ts as [|t ts IH]; intros open H; [reflexivity|].
  inversion H as [|? ? (_ & Hi & Hd) Hts]; subst. cbn [nesting].
  destruct (type t); try (now apply IH); contradiction.
Qed.

Lemma nesting_dedents t : type t = DEDENT -> forall n open,
  n <= open -> nesting open (repeat t n) = Some (open - n).
Proof.
  intros Ht. induction n as [|n IH]; intros open Hn; simpl.
  - f_equal. lia.
  - rewrite Ht. destruct open as [|open]; [lia|]. rewrite IH by lia. reflexivity.
Qed.

(** Counting instead of walking: the levels open at the end. *)
Lemma nesting_counts : forall ts open open',
  nesting open ts = Some open' ->
  open + count_type INDENT ts = open' + count_type DEDENT ts.
Proof.
  induction ts as [|t ts IH]; intros open open' H.
  - injection H as <-. reflexivity.
  - change (t :: ts) with ([t] ++ ts)%list. rewrite !count_type_app, !count_type_one.
    cbn [nesting] in H. destruct (type t) eqn:Et; cbn [TokenType_eqb];
      try (apply IH in H; lia).
    destruct open as [|open]; [discriminate|]. apply IH in H. lia.
Qed.

Lemma nesting_prefix : forall a b open open',
  nesting open (a ++ b) = Some open' -> exists mid, nesting open a = Some mid.
Proof.
  intros a b open open' H. rewrite nesting_app in H.
  destruct (nesting open a) as [mid|]; [now exists mid|discriminate].
Qed.

Lemma ascending_le : forall l lo lo', lo' <= lo -> ascending lo l -> ascending lo' l.
Proof. intros [|x l] lo lo' Hle; simpl; [easy|]. intros [? ?]. split; [lia|assumption]. Qed.

Lemma ascending_app : forall l1 l2 lo mid,
  ascending lo l1 -> Forall (fun x => x <= mid) l1 -> lo <= mid -> ascending mid l2 ->
  ascending lo (l1 ++ l2).
Proof.
  induction l1 as [|x l1 IH]; intros l2 lo mid H1 Hb Hlo H2; simpl.
  - now apply (ascending_le l2 mid).
  - destruct H1 as [Hx H1]. inversion Hb; subst. split; [assumption|].
    now apply (IH l2 x mid).
Qed.

Lemma ascending_repeat x : forall n lo, lo <= x -> ascending lo (repeat x n).
Proof. induction n as [|n IH]; intros lo Hlo; simpl; [exact I|]. split; [exact Hlo|now apply IH]. Qed.

(** In an ascending list an element is at most every later one. *)
Lemma ascending_between : forall l1 lo x l2 y l3,
  ascending lo (l1 ++ x :: l2 ++ y :: l3) -> lo <= x /\ x <= y.
Proof.
  assert (Hin : forall l (y lo : nat), ascending lo l -> In y l -> lo <= y).
  { induction l as [|z l IH]; intros y lo H Hy; [contradiction|].
    destruct H as [Hz H]. destruct Hy as [->|Hy]; [exact Hz|].
    specialize (IH y z H Hy). lia. }
  induction l1 as [|z l1 IH]; intros lo x l2 y l3 H; cbn [app ascending] in H.
  - destruct H as [Hx H]. split; [exact Hx|].
    apply (Hin _ y x H). apply in_or_app. right. now left.
  - destruct H as [Hz H]. destruct (IH z x l2 y l3 H) as [? ?]. split; [lia|assumption].
Qed.

Section WithSource.

Variable source : string.

#[local] Abbreviation emits := (LexerShape.emits source).
#[local] Abbreviation lexeme_ok := (LexerShape.lexeme_ok source).
#[local] Abbreviation token_ok := (LexerShape.token_ok source).
#[local] Abbreviation read_back := (LexerShape.read_back source).
#[local] Abbreviation lexed := (LexerShape.lexed source).

(** *** Tokens of one lexeme *)

Lemma emits_none st st' :
  indent_stack st' = indent_stack st -> tokens st' = tokens st -> cur_line st <= cur_line st' ->
  emits st st'.
Proof.
  intros Hs Ht Hl. split; [exact Hs|]. split; [exact Hl|].
  exists []. rewrite app_nil_r. split; [exact Ht|]. split; [constructor|].
  split; [exact I|constructor].
Qed.

Lemma emits_one st st' t :
  indent_stack st' = indent_stack st -> tokens st' = (tokens st ++ [t])%list ->
  lexeme_ok t -> cur_line st <= line t -> line t <= cur_line st' ->
  emits st st'.
Proof.
  intros Hs Ht Hok H1 H2. split; [exact Hs|]. split; [lia|].
  exists [t]. split; [exact Ht|]. split; [now constructor|].
  split; [simpl; auto|]. now constructor.
Qed.

Lemma emits_two st st' t1 t2 :
  indent_stack st' = indent_stack st -> tokens st' = (tokens st ++ [t1; t2])%list ->
  lexeme_ok t1 -> lexeme_ok t2 ->
  cur_line st <= line t1 -> line t1 <= line t2 -> line t2 <= cur_line st' ->
  emits st st'.
Proof.
  intros Hs Ht Hok1 Hok2 H1 H2 H3. split; [exact Hs|]. split; [lia|].
  exists [t1; t2]. split; [exact Ht|]. split; [auto|].
  split; [simpl; auto|]. repeat (constructor; [lia|]). constructor.
Qed.

Lemma lexeme_sliced ty v ln col :
  sliced ty = true ->
  read_back (mkToken ty v ln col) ->
  LexerShape.shape source (mkToken ty v ln col) ->
  lexeme_ok (mkToken ty v ln col).
Proof.
  intros Hs Hr Hshape. unfold LexerShape.lexeme_ok, LexerShape.token_ok. cbn [type].
  split; [split; [|split]|split]; try (intros E; subst ty; discriminate).
  - intros _. exact Hr.
  - exact Hshape.
Qed.

Lemma lexeme_plain ty v ln col :
  sliced ty = false -> ty <> EOF -> ty <> INDENT -> ty <> DEDENT ->
  LexerShape.shape source (mkToken ty v ln col) ->
  lexeme_ok (mkToken ty v ln col).
Proof.
  intros Hs H1 H2 H3 Hshape. unfold LexerShape.lexeme_ok, LexerShape.token_ok. cbn [type].
  split; [split; [|split]|split]; try assumption.
  intros E. congruence.
Qed.

Lemma read_back_slice ty a b ln : read_back (mkToken ty (slice a b source) ln (a + 1)).
Proof.
  unfold LexerShape.read_back. cbn [column value]. split; [lia|].
  rewrite Nat.add_sub. apply stake_prefix.
Qed.

Lemma read_back_strip_slice ty a b ln c :
  at_pos source a = Some c -> isspace c = false ->
  read_back (mkToken ty (strip (slice a b source)) ln (a + 1)).
Proof.
  intros Hc Hs. unfold LexerShape.read_back. cbn [column value]. split; [lia|].
  rewrite Nat.add_sub. unfold slice. rewrite (get_sdrop _ _ _ Hc).
  destruct (b - a) as [|n]; [reflexivity|]. cbn [stake].
  eapply prefix_trans; [now apply strip_prefix|].
  now rewrite prefix_cons, Ascii.eqb_refl, stake_prefix.
Qed.

Ltac one_token := eapply emits_one; [reflexivity|reflexivity| |cbn; lia|cbn; lia].

Lemma comment_emits st : emits st (_tokenize_comment source st).
Proof.
  unfold _tokenize_comment. one_token.
  apply lexeme_sliced; [reflexivity|apply read_back_slice|exact I].
Qed.

Lemma all_chars_span p : forall s, all_chars p (stake (span_len p s) s) = true.
Proof.
  induction s as [|c s IH]; [reflexivity|]. cbn [span_len].
  destruct (p c) eqn:E; [|reflexivity]. cbn [stake all_chars]. now rewrite E, IH.
Qed.

(** The text between a position and the end of the run of characters
    that satisfy [p] from there. *)
Lemma slice_span p a : slice a (a + span_len p (rest source a)) source
                       = stake (span_len p (rest source a)) (rest source a).
Proof. unfold slice, rest. now rewrite Nat.add_comm, Nat.add_sub. Qed.

Lemma variable_reference_emits st :
  at_pos source (position st) = Some "$"%char ->
  emits st (_tokenize_variable_reference source st).
Proof.
  intros Hc. unfold _tokenize_variable_reference. one_token.
  apply lexeme_sliced; [reflexivity|apply read_back_slice|].
  unfold LexerShape.shape. cbn [type value position advance_while _advance].
  exists (stake (span_len isword (rest source (position st + 1))) (rest source (position st + 1))).
  split; [|apply all_chars_span].
  unfold slice. rewrite <- Nat.add_assoc, Nat.add_comm, Nat.add_sub.
  fold (rest source (position st)). rewrite (rest_at source _ _ Hc). cbn [Nat.add stake].
  now rewrite Nat.add_1_r.
Qed.

Lemma variable_declaration_emits st st' c :
  at_pos source (position st) = Some c -> isspace c = false ->
  _tokenize_variable_declaration source st = Ok st' -> emits st st'.
Proof.
  intros Hc Hs. unfold _tokenize_variable_declaration.
  destruct (char_is source _ "="); [|discriminate]. intros [= <-].
  one_token. apply lexeme_sliced; [reflexivity| |exact I].
  now apply (read_back_strip_slice _ _ _ _ c).
Qed.

Lemma header_token_emits ty include_colon st c :
  sliced ty = true ->
  (forall v ln, LexerShape.shape source (mkToken ty v ln (position st + 1))) ->
  at_pos source (position st) = Some c -> isspace c = false ->
  emits st (header_token source ty include_colon st).
Proof.
  intros Hty Hshape Hc Hs. unfold header_token.
  destruct (include_colon && char_is source _ ":");
    (one_token; apply lexeme_sliced;
     [assumption|now apply (read_back_strip_slice _ _ _ _ c)|apply Hshape]).
Qed.

Lemma for_loop_shape st v ln :
  _is_for_loop source st = true ->
  LexerShape.shape source (mkToken FOR_LOOP v ln (position st + 1)).
Proof.
  intros Hfor. unfold _is_for_loop in Hfor.
  apply andb_true_iff in Hfor as [Hp Hb].
  unfold LexerShape.shape, LexerShape.for_gap. cbn [type column].
  rewrite Nat.add_sub. split; [exact Hp|]. intros c' Hc'.
  unfold _check_keyword_boundary, at_pos in Hb. rewrite Hc' in Hb.
  now apply negb_true_iff in Hb.
Qed.

Lemma name_is_made_of_name_characters st c :
  at_pos source (position st) = Some c -> name_char c = true ->
  let name := slice (position st) (position (advance_while source name_char st)) source in
  name <> "" /\ all_chars name_char name = true.
Proof.
  intros Hc Hn name. unfold name. cbn [position advance_while _advance].
  rewrite slice_span. split; [|apply all_chars_span].
  rewrite (rest_at source _ _ Hc). cbn [span_len]. rewrite Hn. discriminate.
Qed.

Lemma element_or_attribute_emits st c :
  at_pos source (position st) = Some c -> name_char c = true ->
  emits st (_tokenize_element_or_attribute source st).
Proof.
  intros Hc Hn. pose proof (name_is_made_of_name_characters st c Hc Hn) as Hname.
  cbv zeta in Hname. unfold _tokenize_element_or_attribute.
  destruct (match at_pos source _ with Some _ => _ | None => false end).
  - destruct (char_is source _ ":").
    + one_token. apply lexeme_sliced; [reflexivity|apply read_back_slice|exact Hname].
    + destruct (nonempty _).
      * eapply emits_two;
          [reflexivity
          |cbn [tokens emit advance_while _advance]; rewrite <- app_assoc; reflexivity
          | | |cbn; lia|cbn; lia|cbn; lia].
        -- apply lexeme_sliced; [reflexivity|apply read_back_slice|exact Hname].
        -- apply lexeme_plain; try reflexivity; try discriminate; exact I.
      * one_token. apply lexeme_sliced; [reflexivity|apply read_back_slice|exact Hname].
  - one_token. apply lexeme_sliced; [reflexivity|apply read_back_slice|exact Hname].
Qed.

(** *** Strings *)

Lemma scan_string_closing q : forall s prev pos ln col p l c,
  scan_string q prev s pos ln col = Closing p l c ->
  pos <= p /\ ln <= l /\ String.get (p - pos) s = Some q.
Proof.
  induction s as [|a s IH]; intros prev pos ln col p l c; cbn [scan_string]; [discriminate|].
  destruct ((a =? q)%char && ((pos =? 0) || negb (prev =? BACKSLASH)%char)) eqn:E.
  - intros [= <- <- <-]. apply andb_true_iff in E as [E _]. apply Ascii.eqb_eq in E. subst a.
    rewrite Nat.sub_diag. repeat split; lia || reflexivity.
  - destruct (a =? LF)%char; intros H; apply IH in H as (H1 & H2 & H3);
      (repeat split; [lia|lia|]);
      replace (p - pos) with (S (p - (pos + 1))) by lia; exact H3.
Qed.

Lemma scan_multiline_closing : forall s pos ln col p l c,
  scan_multiline s pos ln col = Some (p, l, c) ->
  pos <= p /\ ln <= l /\ prefix triple_quote (sdrop (p - pos) s) = true.
Proof.
  induction s as [|a s IH]; intros pos ln col p l c; [discriminate|].
  cbn [scan_multiline].
  destruct (String.length (String a s) <? 3); [discriminate|].
  destruct (prefix triple_quote (String a s)) eqn:E.
  - intros [= <- <- <-]. rewrite Nat.sub_diag. repeat split; lia || exact E.
  - destruct (a =? LF)%char; intros H; apply IH in H as (H1 & H2 & H3);
      (repeat split; [lia|lia|]);
      replace (p - pos) with (S (p - (pos + 1))) by lia; exact H3.
Qed.

Lemma string_emits q st st' :
  at_pos source (position st) = Some q -> (q =? DQ)%char || (q =? SQ)%char = true ->
  _tokenize_string source q st = Ok st' -> emits st st'.
Proof.
  intros Hq Hquote. unfold _tokenize_string.
  destruct (scan_string _ _ _ _ _ _) as [p l c|] eqn:E; [|discriminate].
  intros [= <-]. apply scan_string_closing in E as (Hp & Hl & Hg).
  cbn [position cur_line _advance] in Hp, Hl, Hg.
  unfold rest in Hg. rewrite get_sdrop_add in Hg.
  replace (position st + 1 + (p - (position st + 1))) with p in Hg by lia.
  pose proof (get_some_length _ _ _ Hg) as Hlen.
  eapply emits_one; [reflexivity|reflexivity| |cbn; lia|cbn; lia].
  set (v := slice (position st) (p + 1) source).
  assert (Hv : String.length v = p + 1 - position st).
  { unfold v, slice. rewrite length_stake, length_sdrop. lia. }
  assert (Hquoted : quoted_by (String q "") v = true).
  { apply quoted_by_ends.
    - lia.
    - unfold v, slice. rewrite get_stake by lia. rewrite get_sdrop_add, Nat.add_0_r. exact Hq.
    - rewrite Hv. unfold v, slice. rewrite get_stake by lia. rewrite get_sdrop_add.
      replace (position st + (p + 1 - position st - 1)) with p by lia. exact Hg. }
  apply lexeme_sliced; [reflexivity|apply read_back_slice|].
  unfold LexerShape.shape. cbn [type value]. fold v. split; [lia|].
  apply orb_true_iff in Hquote as [H|H]; apply Ascii.eqb_eq in H; subst q;
    apply orb_true_iff; [left|right]; exact Hquoted.
Qed.

Lemma multiline_string_emits st st' :
  prefix triple_quote (rest source (position st)) = true ->
  _tokenize_multiline_string source st = Ok st' -> emits st st'.
Proof.
  intros Hopen. unfold _tokenize_multiline_string.
  destruct (scan_multiline _ _ _ _) as [[[p l] c]|] eqn:E; [|discriminate].
  intros [= <-]. apply scan_multiline_closing in E as (Hp & Hl & Hclose).
  cbn [position cur_line _advance] in Hp, Hl, Hclose.
  unfold rest in Hclose, Hopen. rewrite sdrop_sdrop in Hclose.
  replace (position st + 3 + (p - (position st + 3))) with p in Hclose by lia.
  pose proof (prefix_length _ _ Hclose) as Hlen. rewrite length_sdrop in Hlen.
  cbn [String.length triple_quote] in Hlen.
  eapply emits_one; [reflexivity|reflexivity| |cbn; lia|cbn; lia].
  set (v := slice (position st) (p + 3) source).
  assert (Hv : String.length v = p + 3 - position st).
  { unfold v, slice. rewrite length_stake, length_sdrop. lia. }
  apply lexeme_sliced; [reflexivity|apply read_back_slice|].
  unfold LexerShape.shape. cbn [type value]. fold v. split; [lia|]. split.
  { unfold startswith, v, slice. apply prefix_of_stake; [exact Hopen|].
    cbn [String.length triple_quote]. lia. }
  unfold endswith. rewrite Hv. cbn [String.length triple_quote].
    apply andb_true_iff. split; [apply Nat.leb_le; lia|].
    apply String.eqb_eq. unfold v, slice.
    replace (p + 3 - position st - 3) with (p - position st) by lia.
    replace (p + 3 - position st) with (p - position st + 3) by lia.
    rewrite sdrop_stake, sdrop_sdrop.
    replace (position st + (p - position st)) with p by lia.
    exact (prefix_stake triple_quote _ Hclose).
Qed.

(** *** One iteration of the main loop *)

Lemma token_ok_of_lexeme ts : Forall lexeme_ok ts -> Forall token_ok ts.
Proof. apply Forall_impl. now intros t [H _]. Qed.

Lemma emits_lexed st st' :
  emits st st' -> lexed st ->
  lexed st' /\ exists ts, tokens st' = (tokens st ++ ts)%list.
Proof.
  intros (Hs & Hl & ts & Ht & Hok & Hasc & Hup) (Hn & Hall & Hlines & Hbound & H1).
  split; [|now exists ts]. unfold LexerShape.lexed. rewrite Ht, Hs.
  split; [|split; [|split; [|split]]].
  - rewrite nesting_app, Hn. now apply (nesting_lexemes source).
  - apply Forall_app. split; [exact Hall|now apply token_ok_of_lexeme].
  - rewrite map_app. apply (ascending_app _ _ 1 (cur_line st)); try assumption.
    apply Forall_map. exact Hbound.
  - apply Forall_app. split; [|exact Hup].
    eapply Forall_impl; [|exact Hbound]. intros t Hle. cbv beta in *. lia.
  - lia.
Qed.

Lemma token_ok_indent v ln col : token_ok (mkToken INDENT v ln col).
Proof.
  unfold LexerShape.token_ok. cbn [type].
  split; [discriminate|]. split; [intros E; discriminate E|exact I].
Qed.

Lemma token_ok_dedent v ln col : token_ok (mkToken DEDENT v ln col).
Proof.
  unfold LexerShape.token_ok. cbn [type].
  split; [discriminate|]. split; [intros E; discriminate E|exact I].
Qed.

Lemma handle_indentation_lexed st st1 :
  inv st -> lexed st -> _handle_indentation source st = Ok st1 ->
  lexed st1 /\ exists ts, tokens st1 = (tokens st ++ ts)%list.
Proof.
  intros [Hstack _] (Hn & Hall & Hlines & Hbound & H1). unfold _handle_indentation.
  set (indent := span_len _ _).
  destruct (char_is _ _ _ || char_is _ _ _).
  { intros [= <-]. split; [|exists []; now rewrite app_nil_r].
    unfold LexerShape.lexed. cbn [tokens indent_stack cur_line _advance]. auto. }
  cbn [indent_stack _advance].
  destruct (indent_stack st) as [|current_indent below] eqn:Estk; [discriminate|].
  destruct (current_indent <? indent).
  { intros [= <-]. split; [|now eexists].
    unfold LexerShape.lexed. cbn [tokens indent_stack cur_line _advance emit set_stack].
    split; [|split; [|split; [|split]]].
    - rewrite nesting_app, Hn. cbn [nesting type List.length]. f_equal. lia.
    - apply Forall_app. split; [exact Hall|]. constructor; [apply token_ok_indent|constructor].
    - rewrite map_app. apply (ascending_app _ _ 1 (cur_line st)); try assumption.
      + apply Forall_map. exact Hbound.
      + cbn. auto.
    - apply Forall_app. split; [exact Hbound|]. constructor; [cbn; lia|constructor].
    - exact H1. }
  destruct (indent <? current_indent); [|intros [= <-]; split;
    [unfold LexerShape.lexed; cbn [tokens indent_stack cur_line _advance];
     rewrite Estk; auto|exists []; now rewrite app_nil_r]].
  rewrite <- Estk in *.
  destruct (pop_while_deeper_ok indent (indent_stack st) 0 Hstack)
    as (stk' & n' & Hpop & Hok' & Hlen).
  rewrite Hpop. cbn [rbind].
  destruct stk' as [|top rest']; [discriminate|].
  destruct (indent =? top); [|discriminate].
  intros [= <-]. split; [|now eexists].
  unfold LexerShape.lexed. cbn [tokens indent_stack cur_line _advance emit_many set_stack].
  assert (Hn' : S (List.length rest') + n' = List.length (indent_stack st))
    by (simpl in Hlen; lia).
  split; [|split; [|split; [|split]]].
  - rewrite nesting_app, Hn, nesting_dedents by (reflexivity || lia).
    f_equal. simpl. lia.
  - apply Forall_app. split; [exact Hall|].
    apply Forall_forall. intros t Hin. apply repeat_spec in Hin. subst t. apply token_ok_dedent.
  - rewrite map_app. apply (ascending_app _ _ 1 (cur_line st)); try assumption.
    + apply Forall_map. exact Hbound.
    + rewrite map_repeat. now apply ascending_repeat.
  - apply Forall_app. split; [exact Hbound|].
    apply Forall_forall. intros t Hin. apply repeat_spec in Hin. subst t. cbn. lia.
  - exact H1.
Qed.

Lemma first_char pos char a p :
  at_pos source pos = Some char -> prefix (String a p) (rest source pos) = true -> char = a.
Proof.
  intros Hc Hp. rewrite (rest_at source _ _ Hc), prefix_cons in Hp.
  apply andb_true_iff in Hp as [Hp _]. apply Ascii.eqb_eq in Hp. now subst.
Qed.

Lemma step_lexed st st' :
  inv st -> lexed st -> step source st = Ok st' ->
  lexed st' /\ exists ts, tokens st' = (tokens st ++ ts)%list.
Proof.
  intros Hinv Hlexed. unfold step.
  assert (Hfirst : forall st1,
    (if (position st =? 0) || char_is source (position st - 1) LF
     then _handle_indentation source st else Ok st) = Ok st1 ->
    lexed st1 /\ exists ts, tokens st1 = (tokens st ++ ts)%list).
  { intros st1. destruct ((position st =? 0) || char_is source (position st - 1) LF).
    - now apply handle_indentation_lexed.
    - intros [= <-]. split; [assumption|]. exists []. now rewrite app_nil_r. }
  destruct (if (position st =? 0) || char_is source (position st - 1) LF
            then _handle_indentation source st else Ok st) as [st1|f]; [|discriminate].
  destruct (Hfirst st1 eq_refl) as [Hlexed1 [ts1 Hts1]]. cbn [rbind]. clear Hfirst.
  assert (Hem : forall st', emits st1 st' ->
            lexed st' /\ exists ts, tokens st' = (tokens st ++ ts)%list).
  { intros st2 He. destruct (emits_lexed st1 st2 He Hlexed1) as [Hl [ts2 Hts2]].
    split; [exact Hl|]. exists (ts1 ++ ts2)%list. now rewrite Hts2, Hts1, app_assoc. }
  destruct (at_pos source (position st1)) as [char|] eqn:Hc.
  2:{ intros [= <-]. split; [assumption|now exists ts1]. }
  destruct (prefix triple_quote _) eqn:Etq.
  { intros H. apply Hem. now apply multiline_string_emits. }
  destruct (char =? "#")%char.
  { intros [= <-]. apply Hem, comment_emits. }
  destruct ((char =? DQ)%char || (char =? SQ)%char) eqn:Eq.
  { intros H. apply Hem. now apply (string_emits char). }
  destruct (char =? "$")%char eqn:E1.
  { apply Ascii.eqb_eq in E1. subst char.
    destruct (_is_variable_declaration source st1).
    - intros H. apply Hem. now apply (variable_declaration_emits st1 st' "$").
    - intros [= <-]. now apply Hem, variable_reference_emits. }
  destruct (char =? ":")%char.
  { intros [= <-]. apply Hem. eapply emits_one; [reflexivity|reflexivity| |cbn; lia|cbn; lia].
    apply lexeme_plain; try reflexivity; try discriminate; exact I. }
  destruct (char =? "@")%char eqn:E3.
  { apply Ascii.eqb_eq in E3. subst char.
    destruct (_is_component_definition source st1); intros [= <-]; apply Hem;
      now apply (header_token_emits _ _ st1 "@"). }
  destruct (char =? LF)%char.
  { intros [= <-]. apply Hem. eapply emits_one; [reflexivity|reflexivity| |cbn; lia|cbn; lia].
    apply lexeme_plain; try reflexivity; try discriminate; exact I. }
  destruct (_is_for_loop source st1) eqn:Efor.
  { intros [= <-]. apply Hem. pose proof Efor as Efor'. unfold _is_for_loop in Efor'.
    apply andb_true_iff in Efor' as [Efor' _]. apply (first_char _ _ _ _ Hc) in Efor'.
    subst char. apply (header_token_emits _ _ st1 "f"); try reflexivity; [|exact Hc].
    intros v ln. now apply for_loop_shape. }
  destruct (_is_if_statement source st1) eqn:Eif.
  { intros [= <-]. apply Hem. unfold _is_if_statement in Eif.
    apply andb_true_iff in Eif as [Eif _]. apply (first_char _ _ _ _ Hc) in Eif. subst char.
    now apply (header_token_emits _ _ st1 "i"). }
  destruct (_is_else_statement source st1) eqn:Eelse.
  { intros [= <-]. apply Hem. unfold _is_else_statement in Eelse.
    destruct (at_pos source (position st1 + 4)); [|discriminate].
    assert (char = "e"%char) as ->.
    { apply orb_true_iff in Eelse as [E|E].
      - now apply (first_char _ _ _ _ Hc) in E.
      - apply andb_true_iff in E as [E _]. now apply (first_char _ _ _ _ Hc) in E. }
    now apply (header_token_emits _ _ st1 "e"). }
  destruct (isalpha char || (char =? "_")%char) eqn:Ename.
  { intros [= <-]. apply Hem, (element_or_attribute_emits st1 char Hc).
    unfold name_char, isalnum. apply orb_true_iff in Ename as [-> | ->];
      rewrite ?orb_true_r; reflexivity. }
  intros [= <-]. apply Hem. now apply emits_none.
Qed.

(** *** The main loop and the final tokens *)

Lemma main_loop_lexed : forall budget st st',
  inv st -> lexed st -> main_loop source budget st = Ok st' ->
  lexed st' /\ exists ts, tokens st' = (tokens st ++ ts)%list.
Proof.
  induction budget as [|budget IH]; intros st st' Hinv Hlexed; cbn [main_loop];
    destruct (position st <? String.length source) eqn:E;
    try (intros [= <-]; split; [assumption|exists []; now rewrite app_nil_r]);
    [discriminate|].
  apply Nat.ltb_lt in E. pose proof (step_ok source st Hinv E) as Hstep.
  destruct (step source st) as [st1|f] eqn:Es; [|discriminate].
  destruct Hstep as [Hinv1 _]. cbn [rbind]. intros H.
  destruct (step_lexed st st1 Hinv Hlexed Es) as [Hlexed1 [ts1 Hts1]].
  destruct (IH st1 st' Hinv1 Hlexed1 H) as [Hl [ts2 Hts2]].
  split; [exact Hl|]. exists (ts1 ++ ts2)%list. now rewrite Hts2, Hts1, app_assoc.
Qed.

End WithSource.

Lemma lexed_init source : lexed source init.
Proof.
  unfold lexed. cbn. repeat split; auto.
Qed.

(** The tokens of a source on which [tokenize] returns: the tokens of the
    main loop, which satisfy the invariant, one DEDENT for every level
    still open, and the EOF token. *)
Lemma tokenize_lexed source toks :
  tokenize source = Ok toks ->
  exists st,
    inv st /\ lexed source st
    /\ toks = (tokens st
               ++ repeat (mkToken DEDENT "" (cur_line st) (cur_column st))
                         (List.length (indent_stack st) - 1)
               ++ [mkToken EOF "" (cur_line st) (cur_column st)])%list.
Proof.
  intros E. pose proof (tokenize_outcome source) as H. rewrite E in H.
  destruct H as (st & Hloop & Hinv & ->). exists st. split; [exact Hinv|].
  split; [|reflexivity].
  assert (Hinit : inv init) by (split; reflexivity).
  exact (proj1 (main_loop_lexed source _ init st Hinit (lexed_init source) Hloop)).
Qed.

Lemma count_type_none ty ts : Forall (fun t => type t <> ty) ts -> count_type ty ts = 0.
Proof.
  induction 1 as [|t ts Ht _ IH]; [reflexivity|].
  change (t :: ts) with ([t] ++ ts)%list. rewrite count_type_app, count_type_one, IH.
  destruct (TokenType_eqb (type t) ty) eqn:E; [|reflexivity].
  exfalso. apply Ht. destruct (type t), ty; try discriminate E; reflexivity.
Qed.

(** What the invariant says of one token of the result. *)
Lemma tokenize_token_ok source toks t :
  tokenize source = Ok toks -> In t toks ->
  (sliced (type t) = true -> read_back source t) /\ shape source t.
Proof.
  intros E Hin. destruct (tokenize_lexed source toks E) as (st & _ & (_ & Hall & _) & ->).
  apply in_app_or in Hin as [Hin|Hin].
  - rewrite Forall_forall in Hall. now destruct (Hall t Hin) as [_ H].
  - assert (Ht : type t = DEDENT \/ type t = EOF).
    { apply in_app_or in Hin as [Hin|[<-|[]]]; [|now right].
      apply repeat_spec in Hin. subst t. now left. }
    unfold shape. destruct Ht as [Ht|Ht]; rewrite Ht; (split; [intros H'; discriminate H'|exact I]).
Qed.

Lemma tokenize_ascending source toks :
  tokenize source = Ok toks -> ascending 1 (map line toks).
Proof.
  intros E.
  destruct (tokenize_lexed source toks E) as (st & _ & (_ & _ & Hlines & Hbound & H1) & ->).
  rewrite map_app. apply (ascending_app _ _ 1 (cur_line st)); try assumption.
  - apply Forall_map. exact Hbound.
  - rewrite map_app, map_repeat. cbn [map line].
    apply (ascending_app _ _ _ (cur_line st)).
    + now apply ascending_repeat.
    + apply Forall_forall. intros x Hx. apply repeat_spec in Hx. lia.
    + lia.
    + cbn. auto.
Qed.

Lemma tokenize_one_eof source toks :
  tokenize source = Ok toks ->
  exists pre eof,
    toks = (pre ++ [eof])%list /\ type eof = EOF /\ value eof = ""
    /\ count_type EOF pre = 0.
Proof.
  intros E. destruct (tokenize_lexed source toks E) as (st & _ & (_ & Hall & _) & ->).
  eexists (_ ++ _)%list, _. split; [now rewrite <- app_assoc|].
  split; [reflexivity|]. split; [reflexivity|].
  rewrite count_type_app, count_type_repeat. cbn [type TokenType_eqb].
  rewrite count_type_none; [reflexivity|].
  eapply Forall_impl; [|exact Hall]. now intros t [H _].
Qed.

(** X1: the tokens of a source end with the EOF token, which has the empty
    text as its value, and hold no other EOF token. *)
Theorem tokens_end_with_the_only_eof source toks :
  tokenize source = Ok toks ->
  exists pre eof,
    toks = (pre ++ [eof])%list /\ type eof = EOF /\ value eof = ""
    /\ count_type EOF pre = 0.
Proof. apply tokenize_one_eof. Qed.

(** X2: the INDENT and DEDENT tokens of a source are nested like brackets:
    read from the left, a DEDENT always closes a level that an INDENT has
    opened, and at the end no level is open.  In every initial part of
    the tokens there are at most as many DEDENT as INDENT tokens. *)
Theorem indentation_tokens_are_nested source toks :
  tokenize source = Ok toks ->
  nesting 0 toks = Some 0
  /\ forall pre post, toks = (pre ++ post)%list ->
                      count_type DEDENT pre <= count_type INDENT pre.
Proof.
  intros E. destruct (tokenize_lexed source toks E) as (st & [Hstack _] & (Hn & _) & ->).
  assert (Hall : nesting 0 (tokens st
                            ++ repeat (mkToken DEDENT "" (cur_line st) (cur_column st))
                                      (List.length (indent_stack st) - 1)
                            ++ [mkToken EOF "" (cur_line st) (cur_column st)]) = Some 0).
  { rewrite nesting_app, Hn, nesting_app, nesting_dedents by (reflexivity || lia).
    rewrite Nat.sub_diag. reflexivity. }
  split; [exact Hall|]. intros pre post Hpre. rewrite Hpre in Hall.
  destruct (nesting_prefix _ _ _ _ Hall) as [mid Hmid].
  apply nesting_counts in Hmid. lia.
Qed.

(** X3: the line numbers of the tokens of a source start at one or above and
    never decrease from a token to a later one. *)
Theorem token_lines_never_decrease source toks :
  tokenize source = Ok toks ->
  (forall t, In t toks -> 1 <= line t)
  /\ forall pre t mid t' post,
       toks = (pre ++ t :: mid ++ t' :: post)%list -> line t <= line t'.
Proof.
  intros E. pose proof (tokenize_ascending source toks E) as Hasc. split.
  - intros t Hin. apply in_split in Hin as (pre & post & ->).
    rewrite map_app in Hasc. cbn [map] in Hasc.
    clear E. revert Hasc. generalize 1 as lo.
    induction pre as [|x pre IH]; intros lo; cbn [app map ascending].
    + now intros [H _].
    + intros [Hx H]. specialize (IH _ H). lia.
  - intros pre t mid t' post ->.
    rewrite map_app in Hasc. cbn [map] in Hasc. rewrite map_app in Hasc. cbn [map] in Hasc.
    now apply ascending_between in Hasc.
Qed.

(** X4: a STRING token has its two quotes, of the same kind, as the first
    and last characters of its value, and a MULTILINE_STRING token has
    the two triple-quote delimiters at the ends of its value. *)
Theorem string_tokens_keep_their_delimiters source toks t :
  tokenize source = Ok toks -> In t toks ->
  (type t = STRING ->
   2 <= String.length (value t)
   /\ quoted_by dq (value t) || quoted_by sq (value t) = true)
  /\ (type t = MULTILINE_STRING ->
      6 <= String.length (value t)
      /\ startswith triple_quote (value t) = true
      /\ endswith triple_quote (value t) = true).
Proof.
  intros E Hin. destruct (tokenize_token_ok source toks t E Hin) as [_ H].
  unfold shape in H. split; intros Hty; now rewrite Hty in H.
Qed.

(** X5: the value of a token that is cut out of the source stands in the
    source at the offset that the column field of the token gives: the
    field holds the offset from the start of the text, counted from one,
    not the column within the line. *)
Theorem token_values_are_read_from_the_source source toks t :
  tokenize source = Ok toks -> In t toks -> sliced (type t) = true ->
  1 <= column t /\ prefix (value t) (sdrop (column t - 1) source) = true.
Proof.
  intros E Hin Hs. destruct (tokenize_token_ok source toks t E Hin) as [H _].
  exact (H Hs).
Qed.

(** X6: a FOR_LOOP token is produced only where the source has [for], a
    space, and then a character that cannot be part of a name (or the end
    of the text): a loop header with one space between [for] and the name
    of the iterator is not tokenized as a loop. *)
Theorem for_loop_tokens_need_a_gap source toks t :
  tokenize source = Ok toks -> In t toks -> type t = FOR_LOOP ->
  prefix "for " (sdrop (column t - 1) source) = true
  /\ forall c, String.get (column t + 3) source = Some c -> isword c = false.
Proof.
  intros E Hin Hty. destruct (tokenize_token_ok source toks t E Hin) as [Hr Hg].
  unfold shape in Hg. rewrite Hty in Hg. destruct Hg as [Hp Hc]. split; [exact Hp|].
  assert (1 <= column t) as Hcol by (apply Hr; now rewrite Hty).
  intros c H. apply Hc. now replace (column t - 1 + 4) with (column t + 3) by lia.
Qed.

(** X7: the value of an ELEMENT or CONTENT token is a name: it is not empty
    and made of letters, digits, underscores and hyphens only.  The value
    of a VARIABLE_REF token is a dollar sign followed by letters, digits
    and underscores only. *)
Theorem name_tokens_hold_names source toks t :
  tokenize source = Ok toks -> In t toks ->
  (type t = ELEMENT \/ type t = CONTENT ->
   value t <> "" /\ all_chars name_char (value t) = true)
  /\ (type t = VARIABLE_REF ->
      exists name, value t = String "$" name /\ all_chars isword name = true).
Proof.
  intros E Hin. destruct (tokenize_token_ok source toks t E Hin) as [_ H].
  unfold shape in H. split.
  - intros [Hty|Hty]; now rewrite Hty in H.
  - intros Hty. now rewrite Hty in H.
Qed.

(** *** The errors and their lines *)

Lemma handle_indentation_error_line source st e :
  inv st -> _handle_indentation source st = Error (Raised e) ->
  e = InconsistentIndentation (cur_line st).
Proof.
  intros [Hstack _]. unfold _handle_indentation.
  set (indent := span_len _ _).
  destruct (char_is _ _ _ || char_is _ _ _); [discriminate|].
  cbn [indent_stack _advance].
  destruct (indent_stack st) as [|current_indent below] eqn:Estk; [discriminate|].
  destruct (current_indent <? indent); [discriminate|].
  destruct (indent <? current_indent); [|discriminate].
  rewrite <- Estk in *.
  destruct (pop_while_deeper_ok indent (indent_stack st) 0 Hstack)
    as (stk' & n' & Hpop & _ & _).
  rewrite Hpop. cbn [rbind].
  destruct stk' as [|top rest']; [discriminate|].
  destruct (indent =? top); [discriminate|]. now intros [= <-].
Qed.

(** X8: on a line that is neither blank nor a comment, the indentation
    error is raised exactly when the line is indented less than the
    current level and its width is not the width of an open level; the
    error names the current line, and it is the only error raised
    there. *)
Theorem dedent_to_a_width_never_opened_raises source st :
  inv st ->
  let indent := span_len (fun c => isspace c && negb (c =? LF)%char)
                         (rest source (position st)) in
  char_is source (position st + indent) LF || char_is source (position st + indent) "#" = false ->
  (_handle_indentation source st = Error (Raised (InconsistentIndentation (cur_line st)))
   <-> (exists top below, indent_stack st = top :: below /\ indent < top)
       /\ ~ In indent (indent_stack st))
  /\ forall e, _handle_indentation source st = Error (Raised e) ->
               e = InconsistentIndentation (cur_line st).
Proof.
  intros Hinv indent Hline.
  pose proof (handle_indentation_raises_iff source st Hinv Hline) as Hiff. fold indent in Hiff.
  split; [|intros e; now apply handle_indentation_error_line].
  split.
  - intros H. apply Hiff. exists (cur_line st). exact H.
  - intros H. apply Hiff in H as [l H].
    pose proof (handle_indentation_error_line source st _ Hinv H) as [= ->]. exact H.
Qed.

(** X9: the search for the end of a multi-line string fails exactly when no
    triple quote follows the opening one; the error then names the line
    on which the string starts.  In the other case the tokenizer
    returns. *)
Theorem unterminated_multiline_string_iff source st :
  (_tokenize_multiline_string source st
   = Error (Raised (UnterminatedMultilineString (cur_line st)))
   <-> contains triple_quote (rest source (position st + 3)) = false)
  /\ ((exists st', _tokenize_multiline_string source st = Ok st')
      <-> contains triple_quote (rest source (position st + 3)) = true).
Proof.
  unfold _tokenize_multiline_string. cbn [position cur_line cur_column _advance].
  pose proof (scan_multiline_none_iff (rest source (position st + 3)) (position st + 3)
                (cur_line st) (cur_column st + 3)) as Hiff.
  destruct (scan_multiline _ _ _ _) as [[[p l] c]|];
    destruct (contains triple_quote (rest source (position st + 3))).
  - split; split; try (intros H; discriminate H); [reflexivity|now eexists].
  - discriminate (proj2 Hiff eq_refl).
  - discriminate (proj1 Hiff eq_refl).
  - split; split; try reflexivity; try (intros H; discriminate H). now intros [st' H].
Qed.

Lemma scan_string_no_closing q : forall s prev pos ln col l,
  scan_string q prev s pos ln col = NoClosing l -> l = ln + occurrences LF s.
Proof.
  induction s as [|c s IH]; intros prev pos ln col l; cbn [scan_string occurrences].
  - intros [= <-]. lia.
  - destruct ((c =? q)%char && ((pos =? 0) || negb (prev =? BACKSLASH)%char)); [discriminate|].
    destruct (c =? LF)%char; intros H; apply IH in H; lia.
Qed.

(** X10: a string that is not closed is the only failure of the tokenizer of
    strings, and the error names the last line of the source: the line
    on which the string starts, and one more for every newline after the
    opening quote. *)
Theorem unterminated_string_reports_the_last_line source q st f :
  _tokenize_string source q st = Error f ->
  f = Raised (UnterminatedString
                (cur_line st + occurrences LF (rest source (position st + 1)))).
Proof.
  unfold _tokenize_string. cbn [position cur_line cur_column _advance].
  destruct (scan_string _ _ _ _ _ _) as [p l c|l] eqn:E; [discriminate|].
  apply scan_string_no_closing in E. intros [= <-]. now rewrite E.
Qed.

End LexerProps.

(** ** The parser: what it reads and what it builds *)

Module ParserProps.
Import PyStr Lexer AST Regex Parser ParserInv ParserShape PyStrFacts LexerFacts ParserFacts
       ASTFacts.

Section WithTokens.

Variable tokens : list Token.

(** *** Consuming a token *)

Lemma in_range_position st t :
  token_at tokens (position st) = Some t -> (List.length tokens <=? position st) = false.
Proof.
  intros Ht. apply Nat.leb_gt. apply nth_error_Some. unfold token_at in Ht. congruence.
Qed.

Lemma consume_expected expected st t :
  token_at tokens (position st) = Some t -> type t = expected -> expected <> EOF ->
  _consume tokens expected st
  = Return t (mkState (position st + 1) (variables st) (components st) (printed st)).
Proof.
  intros Ht Hty Hne. pose proof (in_range_position st t Ht) as Hlt.
  unfold _consume, _check, _is_at_end, bind, _peek, ret.
  rewrite Hlt, Ht. rewrite Hty.
  replace (TokenType_eqb expected EOF) with false
    by (symmetry; now apply TokenType_eqb_neq).
  rewrite Ht.
  replace (TokenType_eqb (type t) expected) with true
    by (symmetry; now apply TokenType_eqb_eq).
  unfold _advance, _is_at_end, bind, _peek, ret. rewrite Hlt, Ht, Hty.
  replace (TokenType_eqb expected EOF) with false
    by (symmetry; now apply TokenType_eqb_neq).
  unfold move_on, previous. cbn [position].
  rewrite Nat.add_1_r. unfold token_at in Ht. now rewrite Ht.
Qed.

Lemma consume_unexpected expected st t :
  token_at tokens (position st) = Some t -> type t <> expected \/ expected = EOF ->
  _consume tokens expected st
  = Return t (mkState (position st) (variables st) (components st)
                (printed st
                 ++ ["Parser Error: Expected " ++ TokenType_str expected ++ " but got "
                     ++ TokenType_str (type t) ++ " at line " ++ str_of_nat (line t)])).
Proof.
  intros Ht Hmis. pose proof (in_range_position st t Ht) as Hlt.
  unfold _consume, _check, _is_at_end, bind, _peek, ret.
  rewrite Hlt, Ht.
  destruct (TokenType_eqb (type t) EOF) eqn:Eeof.
  - rewrite Ht. reflexivity.
  - rewrite Ht.
    replace (TokenType_eqb (type t) expected) with false.
    + rewrite Ht. reflexivity.
    + symmetry. apply TokenType_eqb_neq. destruct Hmis as [H|H]; [exact H|].
      subst expected. now apply TokenType_eqb_neq.
Qed.

(** X11: [_consume] returns the current token in every case.  When the token
    has the expected type, and is not the EOF token, the position moves on
    by one and nothing is printed; otherwise the position stays and one
    error line is printed. *)
Theorem consume_takes_or_reports expected st t :
  token_at tokens (position st) = Some t ->
  (type t = expected -> expected <> EOF ->
   _consume tokens expected st
   = Return t (mkState (position st + 1) (variables st) (components st) (printed st)))
  /\ (type t <> expected \/ expected = EOF ->
      _consume tokens expected st
      = Return t (mkState (position st) (variables st) (components st)
                    (printed st
                     ++ ["Parser Error: Expected " ++ TokenType_str expected ++ " but got "
                         ++ TokenType_str (type t) ++ " at line " ++ str_of_nat (line t)]))).
Proof.
  intros Ht. split; [now apply consume_expected|now apply consume_unexpected].
Qed.

(** *** The parser reads the tokens to the end *)

Section ToTheEnd.

Hypothesis Heof : ends_with_eof tokens.

#[local] Abbreviation inv := (ParserInv.inv tokens).
#[local] Abbreviation remaining := (ParserInv.remaining tokens).
#[local] Abbreviation not_at_end := (ParserInv.not_at_end tokens).

Lemma parse_loop_stops : forall budget n,
  2 * n + 1 <= budget ->
  forall st, inv st -> remaining st <= n ->
  returns (parse_loop tokens budget) st
          (fun _ st' => inv st' /\ position st <= position st' /\ ~ not_at_end st').
Proof.
  induction budget as [|budget IH]; intros n Hn; [lia|].
  intros st Hinv Hrem. cbn [parse_loop].
  eapply returns_bind; [now apply is_at_end_spec|].
  intros at_end st' [-> Hend]. cbv beta in *. destruct at_end.
  { apply returns_ret. auto. }
  eapply returns_bind; [now apply peek_spec|].
  intros t st' [-> Ht]. cbv beta. destruct (TokenType_eqb (type t) EOF) eqn:Et.
  { apply returns_ret. split; [assumption|]. split; [lia|].
    apply TokenType_eqb_eq in Et. intros (t' & Ht' & Hne). congruence. }
  eapply returns_bind.
  { apply (proj1 (parse_statement_block_ok tokens Heof budget) n); try assumption; lia. }
  intros stmt st1 [Hinv1 Hlt]. cbv beta in *.
  pose proof (inv_remaining tokens st Hinv) as H1.
  eapply returns_bind.
  { apply (IH (n - 1)); [lia|assumption|]. unfold ParserInv.remaining in *. lia. }
  intros stmts st2 (Hinv2 & Hle & Hstop). cbv beta in *. apply returns_ret.
  split; [assumption|]. split; [lia|assumption].
Qed.

Lemma parse_stops_at_eof ast st :
  parse tokens = Return ast st ->
  exists t, token_at tokens (position st) = Some t /\ type t = EOF.
Proof.
  intros H.
  assert (inv init) as Hinit.
  { destruct Heof as (pre & e & -> & _). unfold ParserInv.inv. rewrite length_app. simpl. lia. }
  destruct (parse_loop_stops (parse_budget tokens) (List.length tokens)) with (st := init)
    as (children & st1 & Hrun & Hinv1 & _ & Hstop);
    [unfold parse_budget; lia|assumption|unfold ParserInv.remaining; simpl; lia|].
  unfold parse, bind in H. rewrite Hrun in H. injection H as _ <-.
  destruct (inv_token tokens st1 Hinv1) as [t Ht]. exists t. split; [exact Ht|].
  destruct (type t) eqn:Ety; try reflexivity;
    exfalso; apply Hstop; exists t; (split; [exact Ht|congruence]).
Qed.

End ToTheEnd.

End WithTokens.

Lemma count_type_in ty t ts : In t ts -> type t = ty -> 1 <= count_type ty ts.
Proof.
  intros Hin Hty. apply in_split in Hin as (a & b & ->).
  change (t :: b) with ([t] ++ b)%list. rewrite !count_type_app, count_type_one.
  replace (TokenType_eqb (type t) ty) with true; [lia|].
  symmetry. now apply TokenType_eqb_eq.
Qed.

(** X12: the parser reads the tokens of the lexer to the end: when [parse]
    returns, its position is that of the EOF token, the last token, so
    that no token is left unread. *)
Theorem parse_reads_every_token source toks ast pst :
  tokenize source = Ok toks ->
  parse toks = Return ast pst ->
  position pst = List.length toks - 1
  /\ exists eof, token_at toks (position pst) = Some eof /\ type eof = EOF.
Proof.
  intros E Hp.
  destruct (LexerProps.tokenize_one_eof source toks E) as (pre & eof & -> & Heof & _ & Hnone).
  assert (Hends : ends_with_eof (pre ++ [eof])) by now exists pre, eof.
  destruct (parse_stops_at_eof _ Hends ast pst Hp) as (t & Ht & Hty).
  split; [|now exists t].
  rewrite length_app. cbn [List.length]. unfold token_at in Ht.
  assert (position pst < List.length (pre ++ [eof])) as Hlt by (apply nth_error_Some; congruence).
  rewrite length_app in Hlt. cbn [List.length] in Hlt.
  destruct (Nat.eq_dec (position pst) (List.length pre)) as [->|Hne]; [lia|].
  rewrite nth_error_app1 in Ht by lia. apply nth_error_In in Ht.
  pose proof (count_type_in EOF t pre Ht Hty). lia.
Qed.

(** *** The nodes the parser builds *)

Lemma bind_returns {A B} (m : M A) (k : A -> M B) st b st' :
  bind m k st = Return b st' ->
  exists a st1, m st = Return a st1 /\ k a st1 = Return b st'.
Proof. unfold bind. destruct (m st) as [a st1| |]; [eauto|discriminate|discriminate]. Qed.

Lemma ret_returns {A} (a b : A) st st' : ret a st = Return b st' -> a = b.
Proof. now intros [= -> _]. Qed.

Ltac run_parser H :=
  repeat
    match type of H with
    | bind _ _ _ = Return _ _ =>
        let a := fresh "a" in
        let st1 := fresh "st" in
        let E := fresh "E" in
        apply bind_returns in H as (a & st1 & E & H)
    | (if ?b then _ else _) _ = Return _ _ => destruct b
    | (let '(_, _) := ?p in _) _ = Return _ _ => destruct p
    | match ?x with _ => _ end _ = Return _ _ => destruct x
    end.

Section WithTokens.

Variable tokens : list Token.

Section WithBlock.

Variable block : M (list ASTNode).
Hypothesis Hblock : forall st l st',
  block st = Return l st' -> forallb (parser_node tokens) l = true.

Lemma indented_block_nodes st l st' :
  indented_block tokens block st = Return l st' -> forallb (parser_node tokens) l = true.
Proof.
  unfold indented_block. intros H. run_parser H. apply ret_returns in H. subst l.
  eapply Hblock; eassumption.
Qed.

Lemma parse_element_node st node st' :
  _parse_element tokens block st = Return node st' -> parser_node tokens node = true.
Proof.
  unfold _parse_element. intros H. run_parser H; apply ret_returns in H; subst node;
    try reflexivity.
  cbn [parser_node]. eapply Hblock; eassumption.
Qed.

Lemma parse_for_loop_node st node st' :
  _parse_for_loop tokens block st = Return node st' -> parser_node tokens node = true.
Proof.
  unfold _parse_for_loop. intros H. run_parser H; apply ret_returns in H; subst node;
    try reflexivity.
  cbn [parser_node]. eapply indented_block_nodes; eassumption.
Qed.

Lemma parse_conditional_node st node st' :
  _parse_conditional tokens block st = Return node st' -> parser_node tokens node = true.
Proof.
  unfold _parse_conditional. intros H. run_parser H; apply ret_returns in H; subst node;
    try reflexivity; cbn [parser_node];
    repeat match goal with
           | E : indented_block _ _ _ = Return ?l _ |- _ =>
               apply indented_block_nodes in E; rewrite E
           end; reflexivity.
Qed.

Lemma parse_component_definition_node st node st' :
  _parse_component_definition tokens block st = Return node st' ->
  parser_node tokens node = true.
Proof.
  unfold _parse_component_definition. intros H. run_parser H; apply ret_returns in H;
    subst node; try reflexivity; cbn [parser_node];
    eapply indented_block_nodes; eassumption.
Qed.

End WithBlock.

Lemma parse_variable_declaration_node st node st' :
  _parse_variable_declaration tokens st = Return node st' -> parser_node tokens node = true.
Proof.
  unfold _parse_variable_declaration. intros H. run_parser H; apply ret_returns in H;
    now subst node.
Qed.

Lemma multiline_value_of_token t :
  In t tokens -> type t = MULTILINE_STRING -> multiline_value tokens (value t) = true.
Proof.
  intros Hin Hty. unfold multiline_value. apply existsb_exists. exists t.
  split; [exact Hin|]. now rewrite Hty, String.eqb_refl.
Qed.

(** A text node holds the value of the MULTILINE_STRING token the parser
    is at. *)
Lemma parse_multiline_string_node st node st' t :
  token_at tokens (position st) = Some t -> type t = MULTILINE_STRING ->
  _parse_multiline_string tokens st = Return node st' -> parser_node tokens node = true.
Proof.
  intros Ht Hty. unfold _parse_multiline_string, bind.
  rewrite (consume_expected tokens MULTILINE_STRING st t Ht Hty) by discriminate.
  intros H. apply ret_returns in H. subst node. cbn [parser_node].
  apply multiline_value_of_token; [|exact Hty]. unfold token_at in Ht.
  now apply nth_error_In in Ht.
Qed.

Lemma parse_component_use_node st node st' :
  _parse_component_use tokens st = Return node st' -> parser_node tokens node = true.
Proof.
  unfold _parse_component_use. intros H. run_parser H; apply ret_returns in H;
    now subst node.
Qed.

Lemma some_node (m : M ASTNode) st o st' :
  (forall node, m st = Return node st' -> parser_node tokens node = true) ->
  some m st = Return o st' ->
  match o with Some node => parser_node tokens node = true | None => True end.
Proof.
  intros Hm H. unfold some in H. run_parser H. injection H as <- <-. now apply Hm.
Qed.

Lemma forallb_append_if (o : option ASTNode) l :
  match o with Some node => parser_node tokens node = true | None => True end ->
  forallb (parser_node tokens) l = true ->
  forallb (parser_node tokens) (append_if o l) = true.
Proof. destruct o as [node|]; simpl; [intros -> ->; reflexivity|auto]. Qed.

Lemma peek_returns st t st1 :
  _peek tokens st = Return t st1 -> st1 = st /\ token_at tokens (position st) = Some t.
Proof.
  unfold _peek. destruct (token_at tokens (position st)); [|discriminate].
  now intros [= -> ->].
Qed.

Lemma parse_statement_block_nodes : forall budget,
  (forall st o st', _parse_statement tokens budget st = Return o st' ->
     match o with Some node => parser_node tokens node = true | None => True end)
  /\ (forall st l st', _parse_block tokens budget st = Return l st' ->
        forallb (parser_node tokens) l = true).
Proof.
  induction budget as [|budget [IHs IHb]]; split; try discriminate.
  - intros st o st' H. cbn [_parse_statement] in H.
    apply bind_returns in H as (token & st1 & Epeek & H).
    apply peek_returns in Epeek as [-> Ht].
    destruct (type token) eqn:Ety;
      try (revert H; apply some_node; intros node;
           first [ apply parse_element_node | apply parse_for_loop_node
                 | apply parse_conditional_node | apply parse_component_definition_node ];
           exact IHb);
      try (revert H; apply some_node; intros node;
           first [ apply parse_variable_declaration_node
                 | apply parse_component_use_node
                 | now apply (parse_multiline_string_node st node st' token) ]);
      run_parser H; apply ret_returns in H; now subst o.
  - intros st l st' H. cbn [_parse_block] in H. run_parser H;
      apply ret_returns in H; subst l; try reflexivity.
    apply forallb_append_if; [eapply IHs|eapply IHb]; eassumption.
Qed.

Lemma parse_loop_nodes : forall budget st l st',
  parse_loop tokens budget st = Return l st' -> forallb (parser_node tokens) l = true.
Proof.
  induction budget as [|budget IH]; intros st l st' H; [discriminate|].
  cbn [parse_loop] in H. run_parser H; apply ret_returns in H; subst l; try reflexivity.
  apply forallb_append_if; [|eapply IH; eassumption].
  eapply (proj1 (parse_statement_block_nodes budget)); eassumption.
Qed.

Lemma parse_nodes ast st :
  parse tokens = Return ast st -> forallb (parser_node tokens) (children ast) = true.
Proof.
  unfold parse. intros H. run_parser H. apply ret_returns in H. subst ast. cbn [children].
  eapply parse_loop_nodes; eassumption.
Qed.

(** X13: every node of a parsed document is of a kind that the generator
    emits or stores: the parser builds no variable-reference, style-block,
    script-block or string-literal node.  An element that it builds has
    inline content or children, never both, and a text node that it
    builds holds the value of a MULTILINE_STRING token. *)
Theorem parse_builds_emitted_nodes_only ast st :
  parse tokens = Return ast st -> forallb (parser_node tokens) (children ast) = true.
Proof. apply parse_nodes. Qed.

End WithTokens.

(** *** Text nodes *)


Lemma forallb_texts tokens nodes :
  Forall (fun node => parser_node tokens node = true ->
                      forall v, In v (text_values node) -> multiline_value tokens v = true)
         nodes ->
  forallb (parser_node tokens) nodes = true ->
  forall v, In v (flat_map text_values nodes) -> multiline_value tokens v = true.
Proof.
  induction 1 as [|node nodes Hnode _ IH]; intros Hall v Hin; [contradiction|].
  cbn [forallb flat_map] in *. apply andb_true_iff in Hall as [H1 H2].
  apply in_app_or in Hin as [Hin|Hin]; [now apply Hnode|now apply IH].
Qed.

Lemma parser_node_texts tokens : forall node,
  parser_node tokens node = true ->
  forall v, In v (text_values node) -> multiline_value tokens v = true.
Proof.
  induction node as [name attributes children content Hch | iterator iterable body Hb
                    | condition if_body else_body Hi He | name ps dv body Hb | node Hleaf]
    using ASTNode_nested_ind; cbn [parser_node text_values]; intros Hn v Hin.
  - apply (forallb_texts tokens children Hch); [|exact Hin].
    destruct content, children; try discriminate; assumption.
  - now apply (forallb_texts tokens body Hb).
  - apply andb_true_iff in Hn as [H1 H2]. apply in_app_or in Hin as [Hin|Hin].
    + now apply (forallb_texts tokens if_body Hi).
    + destruct else_body as [nodes|]; [|contradiction].
      now apply (forallb_texts tokens nodes He).
  - now apply (forallb_texts tokens body Hb).
  - destruct node; try contradiction; cbn [parser_node text_values] in *;
      try contradiction.
    destruct Hin as [<-|[]]. exact Hn.
Qed.

(** X14: every text node of the document parsed from a source holds a block
    with its triple-quote delimiters: text nodes come from multi-line
    strings only. *)
Theorem text_nodes_are_delimited_blocks source toks ast pst :
  tokenize source = Ok toks ->
  parse toks = Return ast pst ->
  forall v, In v (flat_map text_values (children ast)) ->
            6 <= String.length v
            /\ startswith triple_quote v = true
            /\ endswith triple_quote v = true.
Proof.
  intros E Hp v Hin.
  assert (Hv : multiline_value toks v = true).
  { apply (forallb_texts toks (children ast)); [|now apply (parse_nodes toks ast pst)|exact Hin].
    apply Forall_forall. intros node _. apply parser_node_texts. }
  unfold multiline_value in Hv. apply existsb_exists in Hv as (t & Ht & Hv).
  apply andb_true_iff in Hv as [Hty Hval]. apply TokenType_eqb_eq in Hty.
  apply String.eqb_eq in Hval. subst v.
  destruct (LexerProps.tokenize_token_ok source toks t E Ht) as [_ H].
  unfold LexerShape.shape in H. now rewrite Hty in H.
Qed.

End ParserProps.

(** ** The pattern of a declaration *)

Module RegexProps.
Import PyStr Lexer AST Regex Parser TextShape PyStrFacts PyStrProps CompilerFacts ParserFacts
       ParserProps.

(** A greedy repetition takes a run of matching characters whole when the
    rest of the pattern matches what follows the run. *)
Lemma many_all p k r : forall a b,
  all_chars p a = true -> starts_without p b = true -> k b = Some r ->
  many p (a ++ b) k = Some r.
Proof.
  induction a as [|x a IH]; intros b Ha Hb Hk; cbn [append many].
  - destruct b as [|c b]; [exact Hk|]. cbn [many]. simpl in Hb.
    apply negb_true_iff in Hb. now rewrite Hb.
  - simpl in Ha. apply andb_true_iff in Ha as [Hx Ha]. rewrite Hx.
    now rewrite (IH b Ha Hb Hk).
Qed.

Lemma space_is_not_word c : isspace c = true -> isword c = false.
Proof.
  destruct c as [[] [] [] [] [] [] [] []]; vm_compute; intros H; try discriminate H;
    reflexivity.
Qed.

Lemma starts_without_gap p q gap tail :
  (forall c, q c = true -> p c = false) ->
  all_chars q gap = true -> starts_without p tail = true ->
  starts_without p (gap ++ tail) = true.
Proof.
  intros Hpq Hgap Htail. destruct gap as [|c gap]; [exact Htail|].
  simpl in *. apply andb_true_iff in Hgap as [Hc _]. now rewrite (Hpq c Hc).
Qed.

Lemma variable_declaration_match name gap1 gap2 text :
  name <> "" -> all_chars isword name = true ->
  all_chars isspace gap1 = true -> all_chars isspace gap2 = true ->
  all_chars dot text = true -> starts_without isspace text = true ->
  re_match variable_declaration_re ("$" ++ name ++ gap1 ++ "=" ++ gap2 ++ text)
  = Some [(2, text); (1, name)].
Proof.
  intros Hne Hname Hgap1 Hgap2 Htext Hstart.
  destruct name as [|n0 name]; [contradiction|]. simpl in Hname.
  apply andb_true_iff in Hname as [Hn0 Hname].
  unfold re_match, variable_declaration_re. cbn [run].
  rewrite (prefix_append "$"). cbn [String.length sdrop append].
  change (word n0) with (isword n0). rewrite Hn0.
  apply many_all; [exact Hname| |].
  { apply (starts_without_gap _ isspace); [apply space_is_not_word|exact Hgap1|reflexivity]. }
  apply many_all; [exact Hgap1|reflexivity|].
  rewrite prefix_cons, Ascii.eqb_refl, prefix_nil. cbn [andb].
  apply many_all; [exact Hgap2|exact Hstart|].
  assert (Hnil : forall s, s ++ "" = s) by (induction s; simpl; congruence).
  rewrite <- (Hnil text) at 1. apply many_all; [exact Htext|reflexivity|].
  cbn [String.length]. rewrite Nat.sub_0_r.
  rewrite <- (Hnil text) at 2. rewrite stake_append.
  replace (S (String.length (name ++ gap1 ++ String "=" (gap2 ++ text)))
           - String.length (gap1 ++ String "=" (gap2 ++ text)))
    with (String.length (String n0 name))
    by (cbn [String.length]; rewrite length_append; lia).
  change (String n0 (name ++ gap1 ++ String "=" (gap2 ++ text)))
    with (String n0 name ++ gap1 ++ String "=" (gap2 ++ text)).
  now rewrite stake_append.
Qed.

(** X15: a declaration token of the form dollar sign, name, [=], text, with
    optional whitespace around the [=], makes the parser return the
    declaration of the name with the text stripped of surrounding
    whitespace, and without its double quotes when it has one at each
    end; single quotes stay.  The value is registered under the name with
    its dollar sign, and the position moves past the token. *)
Theorem declaration_binds_the_stripped_text tokens st t name gap1 gap2 text :
  token_at tokens (position st) = Some t -> type t = VARIABLE_DECL ->
  value t = "$" ++ name ++ gap1 ++ "=" ++ gap2 ++ text ->
  name <> "" -> all_chars isword name = true ->
  all_chars isspace gap1 = true -> all_chars isspace gap2 = true ->
  all_chars dot text = true -> starts_without isspace text = true ->
  let stored := if quoted_by dq (strip text) then slice_neg 1 1 (strip text) else strip text in
  _parse_variable_declaration tokens st
  = Return (VariableDeclaration name stored)
           (mkState (position st + 1) (Dict.set ("$" ++ name) stored (variables st))
                    (components st) (printed st)).
Proof.
  intros Ht Hty Hv Hne Hname Hgap1 Hgap2 Htext Hstart stored.
  unfold _parse_variable_declaration, bind.
  rewrite (consume_expected tokens VARIABLE_DECL st t Ht Hty) by discriminate.
  rewrite Hv, (variable_declaration_match name gap1 gap2 text) by assumption.
  unfold group_str. cbn [group Nat.eqb]. unfold unquote. cbn [existsb].
  rewrite orb_false_r. fold stored. reflexivity.
Qed.

End RegexProps.

(** ** The generator: the lines of an element, the environment, the two passes *)

Module CompilerProps.
Import PyStr AST Compiler CompilerInv TextShape CompilerShape PyStrFacts PyStrProps DictFacts
       CompilerFacts ASTFacts Examples.

Section WithEval.
Variable eval : string -> State -> EvalResult.



(** *** The lines of an element *)

Lemma nonempty_true s : s <> "" -> nonempty s = true.
Proof. now destruct s. Qed.

(** X18: an element with inline content is emitted on one line: opening tag,
    the content with the variables of the environment replaced, closing
    tag.  Its children are not emitted. *)
Theorem inline_content_is_one_line depth tag attributes children c st :
  String.eqb tag "document" = false ->
  String.eqb tag "style" || String.eqb tag "script" = false ->
  c <> "" ->
  _compile_node eval (S depth) (Element tag attributes children (Some c)) st
  = Ok (append_line (tag_head tag attributes (indentation st) ++ ">"
                       ++ _replace_variables (variables st) c ++ "</" ++ tag ++ ">") st).
Proof.
  intros Hdoc Hspecial Hc. cbn [_compile_node dispatch]. unfold _compile_element.
  rewrite Hdoc, Hspecial. cbn [truthy_str]. rewrite (nonempty_true c Hc).
  cbn [output_lines append_line variables]. rewrite update_last_snoc.
  rewrite opening_tag_head, slice_neg_last. reflexivity.
Qed.



(** *** Style and script elements *)

Lemma fold_append_lines (g : string -> string) : forall ls st,
  fold_left (fun st line => append_line (g line) st) ls st
  = set_output (output_lines st ++ map g ls) st.
Proof.
  induction ls as [|l ls IH]; intros st; simpl.
  - rewrite app_nil_r. now destruct st.
  - rewrite IH. unfold set_output, append_line. simpl. now rewrite <- app_assoc.
Qed.

Lemma fold_append_indented n : forall ls st,
  indentation st = n ->
  fold_left (fun st line => append_line (spaces (indentation st + 2) ++ line) st) ls st
  = set_output (output_lines st ++ map (fun line => spaces (n + 2) ++ line) ls) st.
Proof.
  induction ls as [|l ls IH]; intros st Hn; simpl.
  - rewrite app_nil_r. now destruct st.
  - rewrite IH by exact Hn. unfold set_output, append_line. simpl.
    now rewrite Hn, <- app_assoc.
Qed.

Lemma special_tag_is_not_document tag :
  String.eqb tag "style" || String.eqb tag "script" = true -> String.eqb tag "document" = false.
Proof.
  intros H. apply orb_true_iff in H as [H|H]; apply String.eqb_eq in H; now subst.
Qed.

Lemma triple_quoted_block body :
  let content := triple_quote ++ body ++ triple_quote in
  strip content = content
  /\ startswith triple_quote content = true
  /\ endswith triple_quote content = true
  /\ slice_neg 3 3 content = body.
Proof.
  intros content. split; [|split; [|split]].
  - unfold content, triple_quote. cbn [append].
    replace (body ++ String DQ (String DQ (String DQ "")))
      with ((body ++ String DQ (String DQ "")) ++ String DQ "")
      by (rewrite append_assoc; reflexivity).
    apply (strip_between_nonspace DQ DQ
             (String DQ (String DQ (body ++ String DQ (String DQ ""))))); reflexivity.
  - apply prefix_append.
  - unfold content. rewrite <- append_assoc. apply endswith_append.
  - apply (slice_neg_middle triple_quote body triple_quote).
Qed.

(** X21: a [style] or [script] element whose first child is a text node
    holding a triple-quoted block is emitted as its opening tag, the lines
    of the block between the delimiters, each moved two columns in from
    the tag, and its closing tag.  The lines of the block are copied as
    they are: no variable is replaced in them, and neither the other
    children nor the inline content of the element are emitted. *)
Theorem special_element_emits_block depth tag attributes body others content st :
  String.eqb tag "style" || String.eqb tag "script" = true ->
  body <> "" ->
  exists st',
    _compile_node eval (S depth)
      (Element tag attributes (TextContent (triple_quote ++ body ++ triple_quote) :: others)
               content) st
    = Ok st'
    /\ output_lines st'
       = (output_lines st ++ [opening_tag tag attributes st]
          ++ map (fun line => (spaces (indentation st + 2) ++ line)%string) (split LF body)
          ++ [(spaces (indentation st) ++ "</" ++ tag ++ ">")%string])%list
    /\ variables st' = variables st /\ printed st' = printed st.
Proof.
  intros Htag Hbody. cbn [_compile_node dispatch]. unfold _compile_element.
  rewrite (special_tag_is_not_document tag Htag), Htag. eexists. split; [reflexivity|].
  unfold _compile_special_element. cbn [direct_multiline].
  destruct (triple_quoted_block body) as (Hs & Hp & He & Hm). cbv zeta in Hs, Hp, He, Hm.
  rewrite Hs, Hp, He, Hm. cbn [andb truthy_str]. rewrite (nonempty_true body Hbody).
  cbv iota. rewrite (nonempty_true body Hbody).
  rewrite (fold_append_indented (indentation st)) by reflexivity.
  unfold closing_tag. cbn [output_lines indentation variables printed set_output append_line].
  split; [|split; reflexivity]. now rewrite <- !app_assoc.
Qed.

(** *** The items of a loop *)

(** X22: a loop variable bound to a bracketed value has one item for every
    piece between commas, each piece stripped of surrounding whitespace:
    one more item than there are commas, so that the empty brackets give
    one item, the empty text.  The double quotes around the items are
    removed only when every item has them. *)
Theorem loop_items_of_bracketed_value inner :
  loop_items ("[" ++ inner ++ "]")
  = (if forallb (quoted_by dq) (map strip (split "," inner))
     then map (slice_neg 1 1) (map strip (split "," inner))
     else map strip (split "," inner))
  /\ List.length (loop_items ("[" ++ inner ++ "]")) = S (occurrences "," inner).
Proof.
  assert (E : loop_items ("[" ++ inner ++ "]")
              = (if forallb (quoted_by dq) (map strip (split "," inner))
                 then map (slice_neg 1 1) (map strip (split "," inner))
                 else map strip (split "," inner))).
  { unfold loop_items. unfold startswith. rewrite (prefix_append "[").
    replace ("[" ++ inner ++ "]") with (("[" ++ inner) ++ "]") at 1
      by (now rewrite append_assoc).
    rewrite endswith_append. cbn [andb].
    pose proof (slice_neg_middle "[" inner "]") as Hm. cbn [String.length] in Hm.
    now rewrite Hm. }
  split; [exact E|]. rewrite E.
  destruct (forallb _ _); rewrite ?length_map; apply length_split.
Qed.

(** *** The names in the environment *)

Lemma in_set {V} k (v : V) d x : In x (Dict.set k v d) -> In x d \/ x = (k, v).
Proof.
  induction d as [|[k' v'] d IH]; simpl.
  - intros [<-|[]]. now right.
  - destruct (String.eqb k' k) eqn:E; simpl.
    + apply String.eqb_eq in E. subst k'. intros [<-|H]; [now right|left; now right].
    + intros [<-|H]; [left; now left|]. destruct (IH H) as [?|?]; [left; now right|now right].
Qed.

Lemma in_del {V} k (d : Dict.t V) x : In x (Dict.del k d) -> In x d.
Proof.
  induction d as [|[k' v'] d IH]; simpl; [easy|].
  destruct (String.eqb k' k); simpl.
  - intros H. right. now apply IH.
  - intros [<-|H]; [now left|right; now apply IH].
Qed.

Lemma startswith_dollar p : startswith "$" (dollar p) = true.
Proof. unfold dollar. apply (prefix_append "$"). Qed.

Lemma dollar_keys_set k v d :
  startswith "$" k = true -> dollar_keys d -> dollar_keys (Dict.set k v d).
Proof.
  intros Hk Hd k' v' Hin. apply in_set in Hin as [Hin|[= -> ->]]; [now apply (Hd k' v')|exact Hk].
Qed.

Lemma dollar_keys_del k d : dollar_keys d -> dollar_keys (Dict.del k d).
Proof. intros Hd k' v' Hin. apply in_del in Hin. now apply (Hd k' v'). Qed.

Lemma dollar_keys_update_with : forall other d,
  dollar_keys d -> dollar_keys (Dict.update_with dollar other d).
Proof.
  unfold Dict.update_with. induction other as [|[p v] other IH]; intros d Hd; simpl; [exact Hd|].
  apply IH. apply dollar_keys_set; [apply startswith_dollar|exact Hd].
Qed.

Lemma fold_append_keeps_variables (g : State -> string -> string) : forall ls st,
  variables (fold_left (fun st line => append_line (g st line) st) ls st) = variables st.
Proof. induction ls as [|l ls IH]; intros st; simpl; [reflexivity|now rewrite IH]. Qed.

Lemma special_element_keeps_variables tag attrs children st :
  variables (_compile_special_element tag attrs children st) = variables st.
Proof.
  unfold _compile_special_element. cbn [variables append_line].
  destruct (if truthy_str _ then _ else _) as [s|]; [|reflexivity].
  destruct (nonempty s); [|reflexivity].
  exact (fold_append_keeps_variables (fun st line => spaces (indentation st + 2) ++ line) _ _).
Qed.

Section DollarNames.

Hypothesis Heval : eval_keeps keeps_dollar_keys eval.

Variable f : ASTNode -> State -> result Failure State.
Hypothesis Hf : forall node st st',
  f node st = Ok st' -> dollar_keys (variables st) -> dollar_keys (variables st').

Lemma compile_nodes_dollar : forall nodes st st',
  compile_nodes f nodes st = Ok st' -> dollar_keys (variables st) -> dollar_keys (variables st').
Proof.
  induction nodes as [|node nodes IH]; intros st st' H Hd; simpl in H.
  - now injection H as <-.
  - destruct (f node st) as [st1|] eqn:E; [|discriminate].
    apply (IH _ _ H). now apply (Hf node st).
Qed.

Lemma loop_over_dollar tv body : startswith "$" tv = true -> forall items st st',
  loop_over f tv body items st = Ok st' ->
  dollar_keys (variables st) -> dollar_keys (variables st').
Proof.
  intros Htv. induction items as [|item items IH]; intros st st' H Hd; simpl in H.
  - now injection H as <-.
  - destruct (compile_nodes f body _) as [st1|] eqn:E; [|discriminate].
    apply compile_nodes_dollar in E; [|now apply dollar_keys_set].
    apply (IH _ _ H). destruct (Dict.mem tv (variables st1)); [|exact E].
    now apply dollar_keys_del.
Qed.

Lemma dispatch_dollar node st st' :
  dispatch eval f node st = Ok st' -> dollar_keys (variables st) -> dollar_keys (variables st').
Proof.
  destruct node as [name attributes children content | value | n value | n
                    | iterator iterable body | condition if_body else_body
                    | n ps dv b | name arguments | c | c | v fmt];
    cbn [dispatch]; intros H Hd; try (injection H as <-; exact Hd).
  - unfold _compile_element in H.
    destruct (String.eqb name "document").
    { destruct (compile_nodes f children _) as [st1|] eqn:E; [|discriminate].
      injection H as <-. now apply compile_nodes_dollar in E. }
    destruct (String.eqb name "style" || String.eqb name "script").
    { injection H as <-. now rewrite special_element_keeps_variables. }
    destruct (truthy_str content); [injection H as <-; exact Hd|].
    destruct children as [|child children]; [injection H as <-; exact Hd|].
    destruct (compile_nodes f (child :: children) _) as [st1|] eqn:E; [|discriminate].
    injection H as <-. now apply compile_nodes_dollar in E.
  - injection H as <-. cbn [variables _compile_variable_declaration set_variables].
    apply dollar_keys_set; [apply (prefix_append "$")|exact Hd].
  - unfold _compile_for_loop in H. destruct (startswith "$" iterable).
    + destruct (Dict.get iterable (variables st)).
      * apply (loop_over_dollar _ _ (prefix_append "$" iterator) _ _ _ H Hd).
      * injection H as <-. exact Hd.
    + injection H as <-. exact Hd.
  - rewrite conditional_decided in H.
    pose proof (Heval (substitute_condition (variables st) condition) st) as Hk.
    destruct (eval _ st) as [result st1|e st1|e|]; try discriminate.
    + apply compile_nodes_dollar in H; [exact H|]. now apply Hk.
    + apply compile_nodes_dollar in H; [exact H|]. now apply Hk.
  - unfold _compile_component_use in H.
    destruct (Dict.get name (components st)) as [component|].
    + destruct (compile_nodes f (body component) _) as [st1|] eqn:E; [|discriminate].
      injection H as <-. exact Hd.
    + injection H as <-. exact Hd.
Qed.

End DollarNames.

Lemma compile_node_dollar (Heval : eval_keeps keeps_dollar_keys eval) depth :
  forall node st st',
  _compile_node eval depth node st = Ok st' ->
  dollar_keys (variables st) -> dollar_keys (variables st').
Proof.
  induction depth as [|depth IH]; intros node st st' H; [discriminate|].
  cbn [_compile_node] in H. exact (dispatch_dollar Heval (_compile_node eval depth) IH _ _ _ H).
Qed.


Lemma dollar_name_does_not_occur k : startswith "$" k = true ->
  forall text, occurrences "$" text = 0 -> contains k text = false.
Proof.
  intros Hk. destruct k as [|c k]; [discriminate|].
  unfold startswith in Hk. cbn [prefix] in Hk.
  destruct (ascii_dec "$" c) as [<-|]; [|discriminate].
  induction text as [|c text IH]; intros Ho; [reflexivity|].
  cbn [occurrences] in Ho. cbn [contains].
  destruct (c =? "$")%char eqn:E; [simpl in Ho; lia|].
  rewrite IH by (simpl in Ho; lia). rewrite orb_false_r. cbn [prefix].
  destruct (ascii_dec "$" c) as [<-|]; [discriminate|reflexivity].
Qed.

(** X24: a text without a dollar sign is emitted as it is written, behind the
    indentation, when every name of the environment starts with a dollar
    sign: no replacement touches it. *)
Theorem text_without_dollar_is_emitted_as_written depth text st :
  (forall k v, In (k, v) (variables st) -> startswith "$" k = true) ->
  occurrences "$" text = 0 ->
  _replace_variables (variables st) text = text
  /\ _compile_node eval (S depth) (TextContent text) st
     = Ok (append_line (spaces (indentation st) ++ text) st).
Proof.
  intros Hd Ho.
  assert (E : _replace_variables (variables st) text = text).
  { apply (substitute_no_occurrence (variables st) text). intros [k v] Hin.
    apply dollar_name_does_not_occur; [now apply (Hd k v)|exact Ho]. }
  split; [exact E|]. cbn [_compile_node dispatch]. unfold _compile_text. now rewrite E.
Qed.

(** X25: the replacement of variables in a text is the replacement of every
    name of the environment by its value, one name after the other in
    the order of the environment, each in the text that the replacements
    before it have left: the test for an occurrence changes nothing. *)
Theorem replace_variables_is_replacement_in_turn vars text :
  (forall k v, In (k, v) vars -> k <> "") ->
  _replace_variables vars text
  = fold_left (fun text kv => replace (fst kv) (snd kv) text) vars text.
Proof.
  unfold _replace_variables. revert text.
  induction vars as [|[k v] vars IH]; intros text Hk; [reflexivity|].
  cbn [fold_left fst snd]. destruct (contains k text) eqn:E.
  - apply IH. intros k' v' Hin. apply (Hk k' v'). now right.
  - rewrite (replace_without_occurrence k v (Hk k v (or_introl eq_refl)) text E).
    apply IH. intros k' v' Hin. apply (Hk k' v'). now right.
Qed.

(** *** The environment of a component body *)

(** X26: in the environment in which the body of a used component is emitted,
    a parameter that has a default and no argument is bound to the
    default, and a name that is neither a defaulted parameter nor an
    argument is bound as at the place of use: the body sees the variables
    of its user. *)
Theorem component_body_sees_defaults_and_user depth component_name arguments st st' component :
  Dict.get component_name (components st) = Some component ->
  Dict.unique_keys (default_values component) = true ->
  _compile_node eval (S depth) (ComponentUse component_name arguments) st = Ok st' ->
  exists body_env st_body,
    compile_nodes (_compile_node eval depth) (body component) (set_variables body_env st)
    = Ok st_body
    /\ (forall param default,
          Dict.get param (default_values component) = Some default ->
          Dict.get param arguments = None ->
          Dict.get ("$" ++ param) body_env = Some default)
    /\ (forall k,
          (forall param, "$" ++ param = k ->
                         Dict.get param (default_values component) = None
                         /\ Dict.get param arguments = None) ->
          Dict.get k body_env = Dict.get k (variables st)).
Proof.
  intros Hc Hu H. cbn [_compile_node dispatch] in H. unfold _compile_component_use in H.
  rewrite Hc in H. cbn [variables set_variables] in H.
  destruct (compile_nodes _ _ _) as [st_body|] eqn:E; [|discriminate].
  eexists _, st_body. split; [exact E|]. split.
  - intros param default Hd Ha.
    rewrite get_update_with_other.
    + now apply (get_update_with dollar dollar_injective).
    + intros p Hp. apply dollar_injective in Hp. now subst p.
  - intros k Hk. rewrite !get_update_with_other; [reflexivity| |].
    + intros p Hp. now apply (Hk p).
    + intros p Hp. now apply (Hk p).
Qed.

End WithEval.

(** *** The first pass *)

Lemma mem_set {V} n k (v : V) d : Dict.mem n (Dict.set k v d) = String.eqb k n || Dict.mem n d.
Proof.
  unfold Dict.mem. destruct (String.eqb k n) eqn:E.
  - apply String.eqb_eq in E. subst k. now rewrite get_set_same.
  - rewrite get_set_other; [reflexivity|]. intros <-. now rewrite String.eqb_refl in E.
Qed.

Lemma collect_node_mem n : forall node comps,
  Dict.mem n (collect_node node comps) = defined_in n node || Dict.mem n comps.
Proof.
  induction node as [name attributes children content Hch | iterator iterable body _
                    | condition if_body else_body _ _ | name ps dv body _ | node Hleaf]
    using ASTNode_nested_ind; intros comps; try reflexivity.
  - cbn [collect_node defined_in]. revert comps.
    induction Hch as [|child children Hchild _ IH]; intros comps; [reflexivity|].
    cbn [fold_left existsb]. rewrite IH, Hchild. now rewrite orb_assoc, (orb_comm (existsb _ _)).
  - apply mem_set.
  - destruct node; try contradiction; reflexivity.
Qed.

(** X27: after the first pass a name is in the component table exactly when a
    definition of it stands at the top level of the document or below
    elements only, at any place in the document order, or the name was in
    the table before. *)
Theorem first_pass_collects_below_elements n nodes st :
  Dict.mem n (components (_collect_components nodes st))
  = existsb (defined_in n) nodes || Dict.mem n (components st).
Proof.
  unfold _collect_components. cbn [components set_components].
  generalize (components st) as comps.
  induction nodes as [|node nodes IH]; intros comps; [reflexivity|].
  cbn [fold_left existsb]. rewrite IH, collect_node_mem.
  now rewrite orb_assoc, (orb_comm (existsb _ _)).
Qed.

(** *** Emission returns when no component is expanded *)

Section WithEval.
Variable eval : string -> State -> EvalResult.

Lemma emission_depth_pos node : 1 <= emission_depth node.
Proof. destruct node; simpl; lia. Qed.

(** A failure other than the depth being reached comes from an
    evaluation. *)
Section Provenance.

Variable f : ASTNode -> State -> result Failure State.
Hypothesis Hf : forall node st failure, f node st = Error failure -> failure_of eval failure.

Lemma compile_nodes_failure : forall nodes st failure,
  compile_nodes f nodes st = Error failure -> failure_of eval failure.
Proof.
  induction nodes as [|node nodes IH]; intros st failure H; simpl in H; [discriminate|].
  destruct (f node st) as [st1|e] eqn:E.
  - now apply (IH st1).
  - injection H as <-. now apply (Hf node st).
Qed.

Lemma loop_over_failure tv body : forall items st failure,
  loop_over f tv body items st = Error failure -> failure_of eval failure.
Proof.
  induction items as [|item items IH]; intros st failure H; simpl in H; [discriminate|].
  destruct (compile_nodes f body _) as [st1|e] eqn:E.
  - now apply IH in H.
  - injection H as <-. now apply compile_nodes_failure in E.
Qed.

Lemma dispatch_failure node st failure :
  dispatch eval f node st = Error failure -> failure_of eval failure.
Proof.
  destruct node as [name attributes children content | value | n value | n
                    | iterator iterable body | condition if_body else_body
                    | n ps dv b | name arguments | c | c | v fmt];
    cbn [dispatch]; intros H; try discriminate.
  - unfold _compile_element in H.
    destruct (String.eqb name "document").
    { destruct (compile_nodes f children _) as [st1|e] eqn:E; [discriminate|].
      injection H as <-. now apply compile_nodes_failure in E. }
    destruct (String.eqb name "style" || String.eqb name "script"); [discriminate|].
    destruct (truthy_str content); [discriminate|].
    destruct children as [|child children]; [discriminate|].
    destruct (compile_nodes f (child :: children) _) as [st1|e] eqn:E; [discriminate|].
    injection H as <-. now apply compile_nodes_failure in E.
  - unfold _compile_for_loop in H. destruct (startswith "$" iterable); [|discriminate].
    destruct (Dict.get iterable (variables st)); [|discriminate].
    now apply loop_over_failure in H.
  - rewrite conditional_decided in H.
    destruct (eval _ st) as [result st1|e st1|e|] eqn:E.
    + now apply compile_nodes_failure in H.
    + now apply compile_nodes_failure in H.
    + injection H as <-. eexists _, _. exact E.
    + injection H as <-. eexists _, _. exact E.
  - unfold _compile_component_use in H.
    destruct (Dict.get name (components st)) as [component|]; [|discriminate].
    destruct (compile_nodes f (body component) _) as [st1|e] eqn:E; [discriminate|].
    injection H as <-. now apply compile_nodes_failure in E.
Qed.

End Provenance.

Lemma compile_node_failure : forall depth node st failure,
  _compile_node eval depth node st = Error failure -> failure_of eval failure.
Proof.
  induction depth as [|depth IH]; intros node st failure H.
  - injection H as <-. exact I.
  - cbn [_compile_node] in H. now apply (dispatch_failure (_compile_node eval depth) IH) in H.
Qed.

(** Without a use of a component, emission does not reach a depth that
    is at least the depth of the nodes. *)
Section Depth.

Variable depth : nat.
Hypothesis Hdepth : forall node, uses_no_component node = true -> emission_depth node <= depth ->
  forall st, _compile_node eval depth node st <> Error RecursionDepth.

Lemma compile_nodes_within : forall nodes,
  forallb uses_no_component nodes = true -> deepest nodes <= depth ->
  forall st, compile_nodes (_compile_node eval depth) nodes st <> Error RecursionDepth.
Proof.
  induction nodes as [|node nodes IH]; intros Hu Hd st; cbn [compile_nodes]; [discriminate|].
  cbn [forallb] in Hu. apply andb_true_iff in Hu as [Hnode Hu].
  cbn [deepest fold_right] in Hd. fold (deepest nodes) in Hd.
  pose proof (Hdepth node Hnode ltac:(lia) st) as Hn.
  destruct (_compile_node eval depth node st) as [st1|e].
  - apply IH; [exact Hu|lia].
  - exact Hn.
Qed.

Lemma loop_over_within tv body :
  forallb uses_no_component body = true -> deepest body <= depth ->
  forall items st,
    loop_over (_compile_node eval depth) tv body items st <> Error RecursionDepth.
Proof.
  intros Hu Hd. induction items as [|item items IH]; intros st; cbn [loop_over]; [discriminate|].
  pose proof (compile_nodes_within body Hu Hd
                (set_variables (Dict.set tv item (variables st)) st)) as Hb.
  destruct (compile_nodes _ body _) as [st1|e]; [apply IH|exact Hb].
Qed.

Lemma dispatch_within node st :
  uses_no_component node = true -> emission_depth node <= S depth ->
  dispatch eval (_compile_node eval depth) node st <> Error RecursionDepth.
Proof.
  destruct node as [name attributes children content | value | n value | n
                    | iterator iterable body | condition if_body else_body
                    | n ps dv b | name arguments | c | c | v fmt];
    cbn [dispatch emission_depth uses_no_component]; intros Hu Hd; try discriminate.
  - fold (deepest children) in Hd. unfold _compile_element.
    destruct (String.eqb name "document").
    { pose proof (compile_nodes_within children Hu ltac:(lia)
                    (append_line "<html>" (append_line "<!DOCTYPE html>" st))) as Hc.
      destruct (compile_nodes _ children _) as [st1|e]; [discriminate|exact Hc]. }
    destruct (String.eqb name "style" || String.eqb name "script"); [discriminate|].
    destruct (truthy_str content); [discriminate|].
    destruct children as [|child children]; [discriminate|].
    pose proof (compile_nodes_within (child :: children) Hu ltac:(lia)
                  (set_indentation
                     (indentation (append_line (opening_tag name attributes st) st) + 2)
                     (append_line (opening_tag name attributes st) st))) as Hc.
    destruct (compile_nodes _ (child :: children) _) as [st1|e]; [discriminate|exact Hc].
  - fold (deepest body) in Hd. unfold _compile_for_loop.
    destruct (startswith "$" iterable); [|discriminate].
    destruct (Dict.get iterable (variables st)); [|discriminate].
    apply loop_over_within; [exact Hu|lia].
  - fold (deepest if_body) in Hd. apply andb_true_iff in Hu as [Hif Helse].
    rewrite conditional_decided.
    assert (Hbody : forall result, forallb uses_no_component
                                           (chosen_body result if_body else_body) = true
                                   /\ deepest (chosen_body result if_body else_body) <= depth).
    { intros [|]; cbn [chosen_body]; [split; [exact Hif|lia]|].
      destruct else_body as [nodes|]; [|split; [reflexivity|cbn; lia]].
      fold (deepest nodes) in Hd. split; [exact Helse|lia]. }
    destruct (eval _ st) as [result st1|e st1|e|]; try discriminate;
      apply compile_nodes_within; apply Hbody.
Qed.

End Depth.

Lemma compile_node_within : forall depth node,
  uses_no_component node = true -> emission_depth node <= depth ->
  forall st, _compile_node eval depth node st <> Error RecursionDepth.
Proof.
  induction depth as [|depth IH]; intros node Hu Hd st.
  - pose proof (emission_depth_pos node). lia.
  - cbn [_compile_node]. now apply dispatch_within.
Qed.

Lemma comes_back_failure failure : comes_back eval -> failure_of eval failure ->
  failure = RecursionDepth.
Proof.
  intros Hback. destruct failure as [|e|]; [reflexivity| |];
    intros (condition & st & E); specialize (Hback condition st); now rewrite E in Hback.
Qed.

Lemma compile_node_returns depth node st :
  comes_back eval -> uses_no_component node = true -> emission_depth node <= depth ->
  exists st', _compile_node eval depth node st = Ok st'.
Proof.
  intros Hback Hu Hd. pose proof (compile_node_within depth node Hu Hd st) as Hw.
  destruct (_compile_node eval depth node st) as [st'|failure] eqn:E; [now exists st'|].
  apply compile_node_failure in E. apply (comes_back_failure _ Hback) in E. now subst.
Qed.


End WithEval.

End CompilerProps.

(** ** The lexer raises exactly where a line or a string is malformed *)

Module LexerErrorFacts.
Import PyStr Lexer LexerInv TextShape LexerErrors PyStrFacts PyStrProps LexerFacts LexerProps.

(** The search for the closing quote fails exactly when every quote of
    the kind in the text stands behind a backslash. *)
Lemma scan_string_unclosed_iff q : forall s prev pos ln col,
  pos <> 0 ->
  (exists l, scan_string q prev s pos ln col = NoClosing l)
  <-> (forall j, String.get j s = Some q -> String.get j (String prev s) = Some BACKSLASH).
Proof.
  induction s as [|c s IH]; intros prev pos ln col Hpos.
  - split; [intros _ j H; discriminate H|intros _; eexists; reflexivity].
  - cbn [scan_string].
    replace (pos =? 0) with false by (symmetry; now apply Nat.eqb_neq).
    cbn [orb].
    assert (Hrest : (forall j, String.get j (String c s) = Some q ->
                               String.get j (String prev (String c s)) = Some BACKSLASH)
                    <-> ((c = q -> prev = BACKSLASH)
                         /\ forall j, String.get j s = Some q ->
                                      String.get j (String c s) = Some BACKSLASH)).
    { split.
      - intros H. split.
        + intros ->. specialize (H 0 eq_refl). now injection H.
        + intros j Hj. exact (H (S j) Hj).
      - intros [H0 H] [|j] Hj.
        + injection Hj as Hj. cbn [String.get]. now rewrite (H0 Hj).
        + exact (H j Hj). }
    rewrite Hrest.
    destruct ((c =? q)%char && negb (prev =? BACKSLASH)%char) eqn:E.
    + apply andb_true_iff in E as [Ec Ep]. apply Ascii.eqb_eq in Ec.
      apply negb_true_iff, Ascii.eqb_neq in Ep. split.
      * intros [l H]. discriminate H.
      * intros [H0 _]. now specialize (H0 Ec).
    + assert (H0 : c = q -> prev = BACKSLASH).
      { intros ->. rewrite Ascii.eqb_refl in E. cbn [andb] in E.
        apply negb_false_iff in E. now apply Ascii.eqb_eq. }
      destruct (c =? LF)%char; rewrite (IH c (pos + 1)) by lia; tauto.
Qed.

Section WithSource.

Variable source : string.

#[local] Abbreviation reaches := (LexerErrors.reaches source).
#[local] Abbreviation raises_at := (LexerErrors.raises_at source).

(** *** The main loop visits the states that it reaches *)

Lemma reaches_inv st : reaches st -> inv st.
Proof.
  induction 1 as [|st st' _ IH Hlt Hstep]; [split; reflexivity|].
  pose proof (step_ok source st IH Hlt) as H. rewrite Hstep in H. apply H.
Qed.

Lemma main_loop_enough : forall budget budget' st,
  inv st ->
  String.length source - position st <= budget ->
  String.length source - position st <= budget' ->
  main_loop source budget st = main_loop source budget' st.
Proof.
  induction budget as [|budget IH]; intros budget' st Hinv Hb Hb'.
  - destruct budget'; cbn [main_loop];
      destruct (position st <? String.length source) eqn:E; try reflexivity;
      apply Nat.ltb_lt in E; lia.
  - cbn [main_loop]. destruct (position st <? String.length source) eqn:E.
    + apply Nat.ltb_lt in E. destruct budget' as [|budget']; [lia|].
      cbn [main_loop]. replace (position st <? String.length source) with true
        by (symmetry; now apply Nat.ltb_lt).
      pose proof (step_ok source st Hinv E) as Hstep.
      destruct (step source st) as [st'|f]; [|reflexivity].
      destruct Hstep as [Hinv' Hlt]. cbn [rbind]. apply IH; [assumption|lia|lia].
    + destruct budget'; cbn [main_loop]; now rewrite E.
Qed.

Lemma reaches_main_loop st :
  reaches st ->
  main_loop source (String.length source) init
  = main_loop source (String.length source - position st) st.
Proof.
  induction 1 as [|st st' Hr IH Hlt Hstep].
  - cbn [position init]. now rewrite Nat.sub_0_r.
  - rewrite IH. pose proof (reaches_inv st Hr) as Hinv.
    pose proof (step_ok source st Hinv Hlt) as Hok. rewrite Hstep in Hok.
    destruct Hok as [Hinv' Hlt'].
    destruct (String.length source - position st) as [|budget] eqn:Eb; [lia|].
    cbn [main_loop]. replace (position st <? String.length source) with true
      by (symmetry; now apply Nat.ltb_lt).
    rewrite Hstep. cbn [rbind]. apply main_loop_enough; [assumption|lia|lia].
Qed.

Lemma main_loop_fails_at : forall budget st f,
  reaches st -> main_loop source budget st = Error f -> f <> LoopBudget ->
  exists st', reaches st' /\ position st' < String.length source /\ step source st' = Error f.
Proof.
  induction budget as [|budget IH]; intros st f Hr H Hf; cbn [main_loop] in H;
    destruct (position st <? String.length source) eqn:E; try discriminate.
  - injection H as <-. now contradiction Hf.
  - apply Nat.ltb_lt in E. destruct (step source st) as [st1|f1] eqn:Hstep.
    + cbn [rbind] in H. apply (IH st1 f); [|assumption|assumption].
      now apply (reaches_step source st).
    + cbn [rbind] in H. injection H as <-. now exists st.
Qed.

(** *** The indentation at the start of a line *)

Lemma handle_indentation_position st st1 :
  _handle_indentation source st = Ok st1 ->
  position st1 = position st + line_indent source st /\ cur_line st1 = cur_line st.
Proof.
  unfold _handle_indentation, line_indent.
  set (indent := span_len _ _).
  destruct (char_is _ _ _ || char_is _ _ _); [intros [= <-]; now split|].
  cbn [indent_stack _advance].
  destruct (indent_stack st) as [|current_indent below]; [discriminate|].
  destruct (current_indent <? indent); [intros [= <-]; now split|].
  destruct (indent <? current_indent); [|intros [= <-]; now split].
  destruct (pop_while_deeper indent (current_indent :: below) 0) as [[stk n]|]; [|discriminate].
  cbn [rbind]. destruct stk as [|top rest']; [discriminate|].
  destruct (indent =? top); [|discriminate]. intros [= <-]. now split.
Qed.

(** At the start of a line the handling of the indentation raises, and
    names the line, exactly on a dedent to a width that is not on the
    stack; otherwise it returns, behind the indentation. *)
Lemma handle_indentation_outcome st :
  inv st -> at_line_start source st = true ->
  (dedent_to_unknown_width source st
   /\ _handle_indentation source st = Error (Raised (InconsistentIndentation (cur_line st))))
  \/ (~ dedent_to_unknown_width source st
      /\ exists st1, _handle_indentation source st = Ok st1 /\ inv st1
                     /\ position st1 = lexeme_position source st
                     /\ cur_line st1 = cur_line st).
Proof.
  intros Hinv Hstart.
  pose proof (handle_indentation_ok source st Hinv) as Hok.
  destruct (_handle_indentation source st) as [st1|f] eqn:E.
  - right. destruct Hok as [Hinv1 _].
    destruct (handle_indentation_position st st1 E) as [Hp Hl]. split.
    + intros (_ & Hline & Hdeeper & Hnot).
      destruct (proj2 (handle_indentation_raises_iff source st Hinv Hline)
                      (conj Hdeeper Hnot)) as [l Hl'].
      rewrite E in Hl'. discriminate Hl'.
    + exists st1. unfold lexeme_position. rewrite Hstart.
      split; [reflexivity|]. split; [exact Hinv1|]. split; assumption.
  - left. destruct f as [e| |]; try contradiction.
    pose proof (handle_indentation_error_line source st e Hinv E) as ->.
    split; [|reflexivity]. split; [exact Hstart|].
    assert (Hline : char_is source (position st + line_indent source st) LF
                    || char_is source (position st + line_indent source st) "#" = false).
    { unfold _handle_indentation in E. unfold line_indent.
      cbn [position _advance] in E.
      destruct (char_is _ _ _ || char_is _ _ _); [discriminate E|reflexivity]. }
    split; [exact Hline|].
    apply (handle_indentation_raises_iff source st Hinv Hline).
    exists (cur_line st). exact E.
Qed.

(** *** The two string scanners *)

Lemma multiline_string_raises_iff st e :
  _tokenize_multiline_string source st = Error (Raised e)
  <-> contains triple_quote (rest source (position st + 3)) = false
      /\ e = UnterminatedMultilineString (cur_line st).
Proof.
  unfold _tokenize_multiline_string. cbn [position cur_line cur_column _advance].
  pose proof (scan_multiline_none_iff (rest source (position st + 3)) (position st + 3)
                (cur_line st) (cur_column st + 3)) as Hiff.
  destruct (scan_multiline _ _ _ _) as [[[p l] c]|].
  - split; [intros H; discriminate H|].
    intros [H _]. apply Hiff in H. discriminate H.
  - split.
    + intros [= <-]. split; [now apply Hiff|reflexivity].
    + now intros [_ ->].
Qed.

Lemma string_raises_iff q st e :
  at_pos source (position st) = Some q ->
  _tokenize_string source q st = Error (Raised e)
  <-> (forall i, position st < i -> at_pos source i = Some q ->
                 at_pos source (i - 1) = Some BACKSLASH)
      /\ e = UnterminatedString (cur_line st + occurrences LF (rest source (position st + 1))).
Proof.
  intros Hq. unfold _tokenize_string. cbn [position cur_line cur_column _advance].
  pose proof (scan_string_unclosed_iff q (rest source (position st + 1)) q (position st + 1)
                (cur_line st) (cur_column st + 1) ltac:(lia)) as Hiff.
  assert (Hidx : (forall j, String.get j (rest source (position st + 1)) = Some q ->
                            String.get j (String q (rest source (position st + 1)))
                            = Some BACKSLASH)
                 <-> (forall i, position st < i -> at_pos source i = Some q ->
                                at_pos source (i - 1) = Some BACKSLASH)).
  { replace (position st + 1) with (S (position st)) by lia.
    rewrite <- (rest_at source _ _ Hq). unfold rest, at_pos. split.
    - intros H i Hi Hget.
      specialize (H (i - S (position st))). rewrite !get_sdrop_add in H.
      replace (S (position st) + (i - S (position st))) with i in H by lia.
      replace (position st + (i - S (position st))) with (i - 1) in H by lia.
      now apply H.
    - intros H j Hget. rewrite get_sdrop_add in *.
      specialize (H (S (position st) + j) ltac:(lia) Hget).
      now replace (S (position st) + j - 1) with (position st + j) in H by lia. }
  rewrite <- Hidx, <- Hiff.
  destruct (scan_string _ _ _ _ _ _) as [p l c|l] eqn:E.
  - split; [intros H; discriminate H|]. intros [[l' H] _]. discriminate H.
  - apply scan_string_no_closing in E. subst l. split.
    + intros [= <-]. split; [eexists; reflexivity|reflexivity].
    + now intros [_ ->].
Qed.

(** *** One iteration *)

Lemma prefix_needs_a_character p :
  at_pos source p = None -> prefix triple_quote (rest source p) = false.
Proof.
  intros H. unfold rest. apply get_none_length in H.
  destruct (sdrop p source) as [|c s] eqn:E; [reflexivity|].
  pose proof (length_sdrop p source) as Hl. rewrite E in Hl. simpl in Hl. lia.
Qed.

(** An iteration of the main loop raises exactly what [raises_at] says. *)
Lemma step_raises_iff st e :
  inv st -> position st < String.length source ->
  step source st = Error (Raised e) <-> raises_at st e.
Proof.
  intros Hinv Hlt. unfold step. fold (at_line_start source st).
  assert (Hfirst :
    (dedent_to_unknown_width source st
     /\ (if at_line_start source st then _handle_indentation source st else Ok st)
        = Error (Raised (InconsistentIndentation (cur_line st))))
    \/ (~ dedent_to_unknown_width source st
        /\ exists st1,
             (if at_line_start source st then _handle_indentation source st else Ok st) = Ok st1
             /\ inv st1 /\ position st1 = lexeme_position source st
             /\ cur_line st1 = cur_line st)).
  { destruct (at_line_start source st) eqn:Hstart.
    - now apply handle_indentation_outcome.
    - right. split.
      + intros [H _]. unfold at_line_start in *. congruence.
      + exists st. unfold lexeme_position. rewrite Hstart.
        split; [reflexivity|]. split; [exact Hinv|]. split; reflexivity. }
  destruct Hfirst as [[Hbad ->]|(Hgood & st1 & -> & Hinv1 & Hp & Hl)]; cbn [rbind].
  { split.
    - intros [= <-]. left. now split.
    - intros [[_ ->]|[Hnot _]]; [reflexivity|contradiction]. }
  unfold LexerErrors.raises_at, unclosed_triple_quote, unclosed_quote.
  rewrite <- Hp, <- Hl.
  assert (Hno : forall r : result LexFailure State,
            (exists st', r = Ok st') ->
            prefix triple_quote (rest source (position st1)) = false ->
            (forall q, (q = DQ \/ q = SQ) -> at_pos source (position st1) <> Some q) ->
            r = Error (Raised e)
            <-> (dedent_to_unknown_width source st
                 /\ e = InconsistentIndentation (cur_line st1))
                \/ (~ dedent_to_unknown_width source st
                    /\ ((prefix triple_quote (rest source (position st1)) = true
                         /\ contains triple_quote (rest source (position st1 + 3)) = false)
                        /\ e = UnterminatedMultilineString (cur_line st1)
                        \/ (prefix triple_quote (rest source (position st1)) = false
                            /\ exists q,
                                 (q = DQ \/ q = SQ)
                                 /\ at_pos source (position st1) = Some q
                                 /\ forall i, position st1 < i -> at_pos source i = Some q ->
                                              at_pos source (i - 1) = Some BACKSLASH)
                           /\ e = UnterminatedString
                                    (cur_line st1
                                     + occurrences LF (rest source (position st1 + 1)))))).
  { intros r [st' ->] Ht Hq. split; [intros H; discriminate H|].
    intros [[Hbad _]|[_ [[[Ht' _] _]|[(_ & q & Hq' & Hat & _) _]]]].
    - contradiction.
    - congruence.
    - now contradiction (Hq q Hq'). }
  destruct (at_pos source (position st1)) as [char|] eqn:Hc.
  2:{ apply Hno; [eexists; reflexivity|now apply prefix_needs_a_character|intros q _ H; discriminate H]. }
  destruct (prefix triple_quote (rest source (position st1))) eqn:Ht.
  { rewrite multiline_string_raises_iff. split.
    - intros [Hc' ->]. right. split; [exact Hgood|]. left. now repeat split.
    - intros [[Hbad _]|[_ [[[_ Hc'] ->]|[[Ht' _] _]]]];
        [contradiction|now split|discriminate Ht']. }
  destruct (char =? "#")%char eqn:E1.
  { apply Hno; [eexists; reflexivity|reflexivity|].
    apply Ascii.eqb_eq in E1. subst char. intros q [-> | ->] H; discriminate H. }
  destruct ((char =? DQ)%char || (char =? SQ)%char) eqn:E2.
  { assert (Hchar : char = DQ \/ char = SQ).
    { apply orb_true_iff in E2 as [E2|E2]; apply Ascii.eqb_eq in E2; auto. }
    rewrite (string_raises_iff char st1 e Hc). split.
    - intros [Hall ->]. right. split; [exact Hgood|]. right. split; [|reflexivity].
      split; [reflexivity|]. exists char. now repeat split.
    - intros [[Hbad _]|[_ [[[Ht' _] _]|[(_ & q & _ & Hat & Hall) ->]]]];
        [contradiction|discriminate Ht'|].
      injection Hat as <-. now split. }
  assert (Hq : forall q, (q = DQ \/ q = SQ) -> Some char <> Some q).
  { intros q Hq [= ->]. apply orb_false_iff in E2 as [E2 E3].
    destruct Hq as [-> | ->]; [now rewrite Ascii.eqb_refl in E2|now rewrite Ascii.eqb_refl in E3]. }
  apply Hno; [|reflexivity|exact Hq].
  destruct (char =? "$")%char.
  { destruct (_is_variable_declaration source st1) eqn:E.
    - destruct (tokenize_variable_declaration_ok source st1 E) as (st' & -> & _). eexists; reflexivity.
    - eexists; reflexivity. }
  destruct (char =? ":")%char; [eexists; reflexivity|].
  destruct (char =? "@")%char.
  { destruct (_is_component_definition source st1); eexists; reflexivity. }
  destruct (char =? LF)%char; [eexists; reflexivity|].
  destruct (_is_for_loop source st1); [eexists; reflexivity|].
  destruct (_is_if_statement source st1); [eexists; reflexivity|].
  destruct (_is_else_statement source st1); [eexists; reflexivity|].
  destruct (isalpha char || (char =? "_")%char); eexists; reflexivity.
Qed.

(** *** The whole text *)

Lemma tokenize_fails_in_the_loop f :
  tokenize source = Error f -> main_loop source (String.length source) init = Error f.
Proof.
  unfold tokenize. intros H.
  pose proof (main_loop_ok source (String.length source) init
                (conj eq_refl eq_refl) ltac:(simpl; lia)) as Hok.
  destruct (main_loop source (String.length source) init) as [st|f'].
  - cbn [rbind] in H. rewrite (finish_ok st Hok) in H. discriminate H.
  - cbn [rbind] in H. now injection H as ->.
Qed.

(** Tokenizing raises [e] exactly when the main loop reaches a state in
    which an iteration raises [e]. *)
Lemma tokenize_raises_iff e :
  tokenize source = Error (Raised e)
  <-> exists st, reaches st /\ position st < String.length source /\ raises_at st e.
Proof.
  split.
  - intros H. apply tokenize_fails_in_the_loop in H.
    destruct (main_loop_fails_at _ _ _ (reaches_init source) H ltac:(discriminate))
      as (st & Hr & Hlt & Hstep).
    exists st. split; [exact Hr|]. split; [exact Hlt|].
    now apply (step_raises_iff st e (reaches_inv st Hr) Hlt).
  - intros (st & Hr & Hlt & Hraise).
    apply (step_raises_iff st e (reaches_inv st Hr) Hlt) in Hraise.
    unfold tokenize. rewrite (reaches_main_loop st Hr).
    destruct (String.length source - position st) as [|budget] eqn:Eb; [lia|].
    cbn [main_loop]. replace (position st <? String.length source) with true
      by (symmetry; now apply Nat.ltb_lt).
    now rewrite Hraise.
Qed.

End WithSource.

End LexerErrorFacts.

(** ** The parser returns the same document within every budget *)

Module ParserBudgetFacts.
Import PyStr Lexer AST Regex Parser ParserInv ParserFacts.

Section WithTokens.

Variable tokens : list Token.
Hypothesis Heof : ends_with_eof tokens.

#[local] Abbreviation sound := (ParserInv.sound tokens).

Lemma safe_sound {A} (m : M A) : (forall n, safe_at tokens n m) -> sound m.
Proof.
  intros H st Hinv.
  destruct (H (remaining tokens st) st Hinv (le_n _)) as (a & st' & E & Hon).
  now rewrite E.
Qed.

Lemma sound_bind {A B} (m : M A) (k : A -> M B) :
  sound m -> (forall a, sound (k a)) -> sound (bind m k).
Proof.
  intros Hm Hk st Hinv. unfold bind. specialize (Hm st Hinv).
  destruct (m st) as [a st1| |]; [|contradiction|exact I].
  specialize (Hk a st1 (proj1 Hm)).
  destruct (k a st1) as [b st2| |]; [|contradiction|exact I].
  now apply (onward_trans tokens st st1 st2).
Qed.

Lemma sound_depth {A} : sound (fun _ => @Depth A).
Proof. intros st _. exact I. Qed.

Ltac primitive :=
  intro;
  first [ apply safe_ret | apply safe_peek | apply safe_is_at_end | apply safe_check
        | apply safe_advance | apply safe_consume | apply safe_error
        | apply safe_get_variables | apply safe_set_variable | apply safe_set_component
        | apply safe_parse_variable_declaration | apply safe_parse_multiline_string
        | apply safe_parse_attributes | apply safe_parse_content
        | apply safe_parse_component_use ];
  assumption.

Ltac sound :=
  repeat first
    [ assumption
    | apply safe_sound; primitive
    | apply sound_bind; [|intro]
    | match goal with
      | |- ParserInv.sound _ (if ?b then _ else _) => destruct b
      | |- ParserInv.sound _ (match ?x with _ => _ end) => destruct x
      end ].

Section WithBlock.

Variable block : M (list ASTNode).
Hypothesis Hblock : sound block.

Lemma sound_indented_block : sound (indented_block tokens block).
Proof. unfold indented_block. sound. Qed.

Lemma sound_parse_element : sound (_parse_element tokens block).
Proof. unfold _parse_element. sound. Qed.

Lemma sound_parse_for_loop : sound (_parse_for_loop tokens block).
Proof. unfold _parse_for_loop. sound; apply sound_indented_block. Qed.

Lemma sound_parse_conditional : sound (_parse_conditional tokens block).
Proof. unfold _parse_conditional. sound; apply sound_indented_block. Qed.

Lemma sound_parse_component_definition : sound (_parse_component_definition tokens block).
Proof. unfold _parse_component_definition. sound; apply sound_indented_block. Qed.

End WithBlock.

Lemma sound_some {A} (m : M A) : sound m -> sound (some m).
Proof. intros H. unfold some. sound. Qed.

Lemma parse_statement_block_sound : forall budget,
  sound (_parse_statement tokens budget) /\ sound (_parse_block tokens budget).
Proof.
  induction budget as [|budget [IHs IHb]]; [split; apply sound_depth|]. split.
  - cbn [_parse_statement]. apply sound_bind; [apply safe_sound; primitive|]. intros token.
    destruct (type token);
      first [ apply sound_some;
              first [ now apply sound_parse_element | now apply sound_parse_for_loop
                    | now apply sound_parse_conditional
                    | now apply sound_parse_component_definition
                    | apply safe_sound; primitive ]
            | sound ].
  - cbn [_parse_block]. sound.
Qed.

Lemma parse_loop_sound : forall budget, sound (parse_loop tokens budget).
Proof.
  induction budget as [|budget IH]; [apply sound_depth|].
  cbn [parse_loop]. sound. apply parse_statement_block_sound.
Qed.

(** *** What is returned within a budget is returned within a greater one *)

Lemma at_most_refl {A} (m : M A) : at_most m m.
Proof. now intros st a st' H. Qed.

Lemma at_most_trans {A} (m1 m2 m3 : M A) : at_most m1 m2 -> at_most m2 m3 -> at_most m1 m3.
Proof. intros H12 H23 st a st' H. now apply H23, H12. Qed.

Lemma at_most_bind {A B} (m m' : M A) (k k' : A -> M B) :
  at_most m m' -> (forall a, at_most (k a) (k' a)) -> at_most (bind m k) (bind m' k').
Proof.
  intros Hm Hk st b st' H. unfold bind in *.
  destruct (m st) as [a st1| |] eqn:E; try discriminate.
  rewrite (Hm _ _ _ E). now apply Hk.
Qed.

Lemma at_most_depth {A} (m : M A) : at_most (fun _ => Depth) m.
Proof. intros st a st' H. discriminate H. Qed.

Ltac mono :=
  repeat first
    [ assumption
    | apply at_most_refl
    | apply at_most_bind; [|intro]
    | match goal with
      | |- at_most (if ?b then _ else _) _ => destruct b
      | |- at_most (match ?x with _ => _ end) _ => destruct x
      end ].

Section WithBlocks.

Variables block block' : M (list ASTNode).
Hypothesis Hblock : at_most block block'.

Lemma at_most_indented_block :
  at_most (indented_block tokens block) (indented_block tokens block').
Proof. unfold indented_block. mono. Qed.

Lemma at_most_parse_element :
  at_most (_parse_element tokens block) (_parse_element tokens block').
Proof. unfold _parse_element. mono. Qed.

Lemma at_most_parse_for_loop :
  at_most (_parse_for_loop tokens block) (_parse_for_loop tokens block').
Proof. unfold _parse_for_loop. mono; apply at_most_indented_block. Qed.

Lemma at_most_parse_conditional :
  at_most (_parse_conditional tokens block) (_parse_conditional tokens block').
Proof. unfold _parse_conditional. mono; apply at_most_indented_block. Qed.

Lemma at_most_parse_component_definition :
  at_most (_parse_component_definition tokens block)
          (_parse_component_definition tokens block').
Proof. unfold _parse_component_definition. mono; apply at_most_indented_block. Qed.

End WithBlocks.

Lemma at_most_some {A} (m m' : M A) : at_most m m' -> at_most (some m) (some m').
Proof. intros H. unfold some. mono. Qed.

Lemma parse_statement_block_deeper : forall budget,
  at_most (_parse_statement tokens budget) (_parse_statement tokens (S budget))
  /\ at_most (_parse_block tokens budget) (_parse_block tokens (S budget)).
Proof.
  induction budget as [|budget [IHs IHb]]; [split; apply at_most_depth|]. split.
  - change (_parse_statement tokens (S (S budget)))
      with (token <- _peek tokens ;;
            match type token with
            | VARIABLE_DECL => some (_parse_variable_declaration tokens)
            | COMPONENT_DEF =>
                some (_parse_component_definition tokens (_parse_block tokens (S budget)))
            | ELEMENT => some (_parse_element tokens (_parse_block tokens (S budget)))
            | FOR_LOOP => some (_parse_for_loop tokens (_parse_block tokens (S budget)))
            | IF_STATEMENT => some (_parse_conditional tokens (_parse_block tokens (S budget)))
            | COMPONENT_USE => some (_parse_component_use tokens)
            | NEWLINE | COMMENT => _advance tokens ;;; ret None
            | MULTILINE_STRING => some (_parse_multiline_string tokens)
            | _ =>
                _error ("Unexpected token: " ++ Token_repr token) ;;;
                _advance tokens ;;;
                ret None
            end).
    cbn [_parse_statement]. apply at_most_bind; [apply at_most_refl|]. intros token.
    destruct (type token); try apply at_most_refl; apply at_most_some.
    + now apply at_most_parse_element.
    + now apply at_most_parse_for_loop.
    + now apply at_most_parse_conditional.
    + now apply at_most_parse_component_definition.
  - change (_parse_block tokens (S (S budget)))
      with (at_end <- _is_at_end tokens ;;
            if at_end then ret []
            else
              is_dedent <- _check tokens DEDENT ;;
              if is_dedent then ret []
              else
                statement <- _parse_statement tokens (S budget) ;;
                statements <- _parse_block tokens (S budget) ;;
                ret (append_if statement statements)).
    cbn [_parse_block]. mono.
Qed.

Lemma parse_loop_deeper : forall budget,
  at_most (parse_loop tokens budget) (parse_loop tokens (S budget)).
Proof.
  induction budget as [|budget IH]; [apply at_most_depth|].
  change (parse_loop tokens (S (S budget)))
    with (at_end <- _is_at_end tokens ;;
          if at_end then ret []
          else
            token <- _peek tokens ;;
            if TokenType_eqb (type token) EOF then ret []
            else
              node <- _parse_statement tokens (S budget) ;;
              nodes <- parse_loop tokens (S budget) ;;
              ret (append_if node nodes)).
  cbn [parse_loop]. mono. apply parse_statement_block_deeper.
Qed.

Lemma parse_loop_mono budget budget' :
  budget <= budget' -> at_most (parse_loop tokens budget) (parse_loop tokens budget').
Proof.
  induction 1 as [|budget' _ IH]; [apply at_most_refl|].
  eapply at_most_trans; [exact IH|apply parse_loop_deeper].
Qed.

Lemma inv_init : inv tokens init.
Proof.
  destruct Heof as (pre & e & -> & _). unfold inv. rewrite length_app. simpl. lia.
Qed.

Lemma parse_loop_returns :
  exists nodes pst,
    parse_loop tokens (parse_budget tokens) init = Return nodes pst
    /\ parse tokens = Return (mkDocument nodes) pst.
Proof.
  destruct (parse_loop_ok tokens Heof (parse_budget tokens) (List.length tokens)) with (st := init)
    as (nodes & pst & Hrun & _);
    [unfold parse_budget; lia|apply inv_init|unfold remaining; simpl; lia|].
  exists nodes, pst. split; [exact Hrun|]. unfold parse, bind. now rewrite Hrun.
Qed.

(** Whatever budget the loop of [parse] runs with, it reads no token
    outside the list; when it returns, it returns what [parse] returns;
    and it uses up no budget that is at least the budget of [parse]. *)
Lemma parse_loop_within budget :
  match parse_loop tokens budget init with
  | Return nodes pst => parse tokens = Return (mkDocument nodes) pst
  | IndexError => False
  | Depth => budget < parse_budget tokens
  end.
Proof.
  pose proof (parse_loop_sound budget init inv_init) as Hsound.
  destruct parse_loop_returns as (nodes & pst & Hrun & Hparse).
  destruct (parse_loop tokens budget init) as [nodes' pst'| |] eqn:E; [|contradiction|].
  - destruct (Nat.le_ge_cases budget (parse_budget tokens)) as [Hle|Hge].
    + apply (parse_loop_mono _ _ Hle) in E. rewrite Hrun in E. now injection E as <- <-.
    + apply (parse_loop_mono _ _ Hge) in Hrun. rewrite E in Hrun. now injection Hrun as <- <-.
  - destruct (Nat.lt_ge_cases budget (parse_budget tokens)) as [Hlt|Hge]; [exact Hlt|].
    apply (parse_loop_mono _ _ Hge) in Hrun. rewrite E in Hrun. discriminate Hrun.
Qed.

End WithTokens.

End ParserBudgetFacts.

(** ** The fatal errors of a compile *)

Module FatalErrors.
Import PyStr AST Lexer LexerInv LexerErrors LexerFacts LexerErrorFacts Parser ParserInv
       ParserFacts ParserBudgetFacts Compiler CompilerShape CompilerInv CompilerFacts
       CompilerProps Clarity ClarityFacts.

Lemma run_failure eval depth ast failure :
  run eval depth ast = Error failure ->
  failure_of eval failure
  /\ (failure = RecursionDepth -> deepest (children ast) <= depth ->
      forallb uses_no_component (children ast) = false).
Proof.
  unfold run. intros H. split.
  - apply (compile_nodes_failure eval (_compile_node eval depth) (compile_node_failure eval depth))
      in H. exact H.
  - intros -> Hd. destruct (forallb uses_no_component (children ast)) eqn:Hu; [|reflexivity].
    exfalso. revert H.
    apply (compile_nodes_within eval depth
             (fun node Hn Hdn st => compile_node_within eval depth node Hn Hdn st)
             (children ast) Hu Hd).
Qed.


End FatalErrors.
(** ** The further properties on concrete inputs *)

Module Witnesses.
Import PyStr AST Lexer LexerInv TextShape LexerShape LexerFacts LexerProps Parser ParserInv
       ParserShape
       ParserFacts ParserProps Regex RegexProps Compiler CompilerInv CompilerShape
       CompilerFacts CompilerProps Clarity Examples Samples.

Ltac compute_conj := repeat (apply conj; [vm_compute; reflexivity|]).

Ltac in_list := cbn [In]; repeat first [left; reflexivity | right].

(** An evaluation without effect keeps what the statements ask of it. *)
Ltac no_effect :=
  apply without_effect_keeps;
  [ first [ apply grows_refl | apply frame_refl | intros st H; exact H ]
  | first [ apply ClarityFacts.eval_true_without_effect
          | apply ClarityFacts.eval_raises_without_effect ] ].



Lemma inline_content_is_one_line_witness :
  String.eqb "a" "document" = false
  /\ String.eqb "a" "style" || String.eqb "a" "script" = false
  /\ "$x" <> ""
  /\ _compile_node eval_raises 1 (Element "a" [("href", AttrStr "$x")] [TextContent "t"]
                                          (Some "$x")) one_binding
     = Ok (append_line (tag_head "a" [("href", AttrStr "$x")] (indentation one_binding) ++ ">"
                          ++ _replace_variables (Compiler.variables one_binding) "$x"
                          ++ "</" ++ "a" ++ ">") one_binding).
Proof.
  compute_conj. apply conj; [discriminate|].
  apply (inline_content_is_one_line eval_raises 0 "a"); [reflexivity|reflexivity|discriminate].
Defined.



Lemma special_element_emits_block_witness :
  String.eqb "style" "style" || String.eqb "style" "script" = true
  /\ style_rules <> ""
  /\ exists st',
       _compile_node eval_raises 1 style_block one_binding = Ok st'
       /\ output_lines st'
          = (output_lines one_binding ++ [opening_tag "style" [] one_binding]
             ++ map (fun line => (spaces (indentation one_binding + 2) ++ line)%string)
                    (split LF style_rules)
             ++ [(spaces (indentation one_binding) ++ "</" ++ "style" ++ ">")%string])%list
       /\ Compiler.variables st' = Compiler.variables one_binding
       /\ Compiler.printed st' = Compiler.printed one_binding.
Proof.
  compute_conj. apply conj; [discriminate|].
  apply (special_element_emits_block eval_raises 0 "style" [] style_rules [] None one_binding);
    [reflexivity|discriminate].
Defined.


Lemma text_without_dollar_is_emitted_as_written_witness :
  (forall k v, In (k, v) (Compiler.variables one_binding) -> startswith "$" k = true)
  /\ occurrences "$" "x is 1" = 0
  /\ _replace_variables (Compiler.variables one_binding) "x is 1" = "x is 1"
  /\ _compile_node eval_raises 1 (TextContent "x is 1") one_binding
     = Ok (append_line (spaces (indentation one_binding) ++ "x is 1") one_binding).
Proof.
  assert (H : forall k v, In (k, v) (Compiler.variables one_binding) -> startswith "$" k = true).
  { intros k v [[= <- <-]|[]]. reflexivity. }
  apply conj; [exact H|]. apply conj; [reflexivity|].
  apply (text_without_dollar_is_emitted_as_written eval_raises 0 "x is 1" one_binding H).
  reflexivity.
Defined.

Lemma component_body_sees_defaults_and_user_witness :
  Dict.get "Card" (Compiler.components card_state) = Some card
  /\ Dict.unique_keys (default_values card) = true
  /\ _compile_node eval_raises 3 (ComponentUse "Card" []) card_state
     = Ok (final (_compile_node eval_raises 3 (ComponentUse "Card" []) card_state))
  /\ output_lines (final (_compile_node eval_raises 3 (ComponentUse "Card" []) card_state))
     = ["<p>blue</p>"]
  /\ exists body_env st_body,
       compile_nodes (_compile_node eval_raises 2) (body card) (set_variables body_env card_state)
       = Ok st_body
       /\ (forall param default,
             Dict.get param (default_values card) = Some default ->
             Dict.get param (@nil (string * string)) = None ->
             Dict.get ("$" ++ param) body_env = Some default)
       /\ (forall k,
             (forall param, "$" ++ param = k ->
                            Dict.get param (default_values card) = None
                            /\ Dict.get param (@nil (string * string)) = None) ->
             Dict.get k body_env = Dict.get k (Compiler.variables card_state)).
Proof.
  compute_conj.
  apply (component_body_sees_defaults_and_user eval_raises 2 "Card" [] card_state
           (final (_compile_node eval_raises 3 (ComponentUse "Card" []) card_state)) card);
    vm_compute; reflexivity.
Defined.


Lemma tokens_end_with_the_only_eof_witness :
  tokenize src_hello = Ok hello_tokens
  /\ exists pre eof,
       hello_tokens = (pre ++ [eof])%list /\ type eof = EOF /\ Lexer.value eof = ""
       /\ count_type EOF pre = 0.
Proof.
  apply conj; [vm_compute; reflexivity|].
  apply (tokens_end_with_the_only_eof src_hello hello_tokens). vm_compute. reflexivity.
Defined.

Lemma indentation_tokens_are_nested_witness :
  tokenize src_hello = Ok hello_tokens
  /\ nesting 0 hello_tokens = Some 0
  /\ forall pre post, hello_tokens = (pre ++ post)%list ->
                      count_type DEDENT pre <= count_type INDENT pre.
Proof.
  apply conj; [vm_compute; reflexivity|].
  apply (indentation_tokens_are_nested src_hello hello_tokens). vm_compute. reflexivity.
Defined.

Lemma token_lines_never_decrease_witness :
  tokenize src_hello = Ok hello_tokens
  /\ map line hello_tokens = [1; 1; 1; 2; 2; 2; 2; 3; 3; 3; 4; 4; 4]
  /\ (forall t, In t hello_tokens -> 1 <= line t)
  /\ forall pre t mid t' post,
       hello_tokens = (pre ++ t :: mid ++ t' :: post)%list -> line t <= line t'.
Proof.
  compute_conj.
  apply (token_lines_never_decrease src_hello hello_tokens). vm_compute. reflexivity.
Defined.

Lemma string_tokens_keep_their_delimiters_witness :
  tokenize src_hello = Ok hello_tokens
  /\ In hello_string hello_tokens
  /\ (type hello_string = STRING ->
      2 <= String.length (Lexer.value hello_string)
      /\ quoted_by dq (Lexer.value hello_string) || quoted_by sq (Lexer.value hello_string)
         = true)
  /\ (type hello_string = MULTILINE_STRING ->
      6 <= String.length (Lexer.value hello_string)
      /\ startswith triple_quote (Lexer.value hello_string) = true
      /\ endswith triple_quote (Lexer.value hello_string) = true).
Proof.
  apply conj; [vm_compute; reflexivity|]. apply conj; [in_list|].
  apply (string_tokens_keep_their_delimiters src_hello hello_tokens hello_string);
    [vm_compute; reflexivity|in_list].
Defined.

Lemma token_values_are_read_from_the_source_witness :
  tokenize src_hello = Ok hello_tokens
  /\ In hello_string hello_tokens
  /\ sliced (type hello_string) = true
  /\ 1 <= column hello_string
  /\ prefix (Lexer.value hello_string) (sdrop (column hello_string - 1) src_hello) = true.
Proof.
  apply conj; [vm_compute; reflexivity|]. apply conj; [in_list|]. apply conj; [reflexivity|].
  apply (token_values_are_read_from_the_source src_hello hello_tokens hello_string);
    [vm_compute; reflexivity|in_list|reflexivity].
Defined.

Lemma for_loop_tokens_need_a_gap_witness :
  tokenize src_loop = Ok loop_tokens
  /\ In loop_header loop_tokens
  /\ type loop_header = FOR_LOOP
  /\ prefix "for " (sdrop (column loop_header - 1) src_loop) = true
  /\ forall c, String.get (column loop_header + 3) src_loop = Some c -> isword c = false.
Proof.
  apply conj; [vm_compute; reflexivity|]. apply conj; [in_list|]. apply conj; [reflexivity|].
  apply (for_loop_tokens_need_a_gap src_loop loop_tokens loop_header);
    [vm_compute; reflexivity|in_list|reflexivity].
Defined.

Lemma name_tokens_hold_names_witness :
  tokenize src_hello = Ok hello_tokens
  /\ In hello_root hello_tokens
  /\ (type hello_root = ELEMENT \/ type hello_root = CONTENT ->
      Lexer.value hello_root <> "" /\ all_chars name_char (Lexer.value hello_root) = true)
  /\ (type hello_root = VARIABLE_REF ->
      exists name, Lexer.value hello_root = String "$" name /\ all_chars isword name = true).
Proof.
  apply conj; [vm_compute; reflexivity|]. apply conj; [in_list|].
  apply (name_tokens_hold_names src_hello hello_tokens hello_root);
    [vm_compute; reflexivity|in_list].
Defined.

Lemma dedent_to_a_width_never_opened_raises_witness :
  LexerInv.inv dedent_state
  /\ span_len (fun c => isspace c && negb (c =? LF)%char)
              (rest src_dedent (Lexer.position dedent_state)) = 2
  /\ char_is src_dedent (Lexer.position dedent_state + 2) LF
     || char_is src_dedent (Lexer.position dedent_state + 2) "#" = false
  /\ _handle_indentation src_dedent dedent_state = Error (Raised (InconsistentIndentation 3))
  /\ (_handle_indentation src_dedent dedent_state
      = Error (Raised (InconsistentIndentation (cur_line dedent_state)))
      <-> (exists top below, indent_stack dedent_state = top :: below /\ 2 < top)
          /\ ~ In 2 (indent_stack dedent_state)).
Proof.
  assert (Hinv : LexerInv.inv dedent_state).
  { split; [split; [lia|reflexivity]|reflexivity]. }
  apply conj; [exact Hinv|]. compute_conj.
  exact (proj1 (dedent_to_a_width_never_opened_raises src_dedent dedent_state Hinv eq_refl)).
Defined.

Lemma unterminated_string_reports_the_last_line_witness :
  _tokenize_string src_open_string DQ Lexer.init = Error (Raised (UnterminatedString 2))
  /\ Raised (UnterminatedString 2)
     = Raised (UnterminatedString
                 (cur_line Lexer.init
                  + occurrences LF (rest src_open_string (Lexer.position Lexer.init + 1)))).
Proof.
  apply conj; [vm_compute; reflexivity|].
  apply (unterminated_string_reports_the_last_line src_open_string DQ Lexer.init).
  vm_compute. reflexivity.
Defined.

Lemma replace_variables_is_replacement_in_turn_witness :
  (forall k v, In (k, v) chained -> k <> "")
  /\ _replace_variables chained "$a" = "x"
  /\ _replace_variables chained "$a"
     = fold_left (fun text kv => replace (fst kv) (snd kv) text) chained "$a".
Proof.
  assert (H : forall k v, In (k, v) chained -> k <> "").
  { intros k v [[= <- <-]|[[= <- <-]|[]]]; discriminate. }
  apply conj; [exact H|]. apply conj; [reflexivity|].
  apply (replace_variables_is_replacement_in_turn chained "$a" H).
Defined.

Lemma consume_takes_or_reports_witness :
  token_at hello_tokens (Parser.position Parser.init) = Some hello_root
  /\ (type hello_root = ELEMENT -> ELEMENT <> EOF ->
      _consume hello_tokens ELEMENT Parser.init
      = Return hello_root
               (Parser.mkState (Parser.position Parser.init + 1) (Parser.variables Parser.init)
                               (Parser.components Parser.init) (Parser.printed Parser.init)))
  /\ (type hello_root <> ELEMENT \/ ELEMENT = EOF ->
      _consume hello_tokens ELEMENT Parser.init
      = Return hello_root
               (Parser.mkState (Parser.position Parser.init) (Parser.variables Parser.init)
                  (Parser.components Parser.init)
                  (Parser.printed Parser.init
                   ++ ["Parser Error: Expected " ++ TokenType_str ELEMENT ++ " but got "
                       ++ TokenType_str (type hello_root) ++ " at line "
                       ++ str_of_nat (line hello_root)]))).
Proof.
  apply conj; [reflexivity|].
  apply (consume_takes_or_reports hello_tokens ELEMENT Parser.init hello_root). reflexivity.
Defined.

Lemma parse_reads_every_token_witness :
  tokenize src_hello = Ok hello_tokens
  /\ parse hello_tokens = Return (fst hello_parsed) (snd hello_parsed)
  /\ Parser.position (snd hello_parsed) = List.length hello_tokens - 1
  /\ exists eof,
       token_at hello_tokens (Parser.position (snd hello_parsed)) = Some eof /\ type eof = EOF.
Proof.
  compute_conj.
  apply (parse_reads_every_token src_hello hello_tokens (fst hello_parsed) (snd hello_parsed));
    vm_compute; reflexivity.
Defined.

Lemma parse_builds_emitted_nodes_only_witness :
  parse hello_tokens = Return (fst hello_parsed) (snd hello_parsed)
  /\ forallb (parser_node hello_tokens) (children (fst hello_parsed)) = true.
Proof.
  compute_conj.
  apply (parse_builds_emitted_nodes_only hello_tokens (fst hello_parsed) (snd hello_parsed)).
  vm_compute. reflexivity.
Defined.

Lemma text_nodes_are_delimited_blocks_witness :
  tokenize src_style = Ok style_tokens
  /\ parse style_tokens = Return (fst style_parsed) (snd style_parsed)
  /\ flat_map text_values (children (fst style_parsed))
     = [triple_quote ++ lf ++ "  a {}" ++ lf ++ "  " ++ triple_quote]
  /\ forall v, In v (flat_map text_values (children (fst style_parsed))) ->
               6 <= String.length v
               /\ startswith triple_quote v = true
               /\ endswith triple_quote v = true.
Proof.
  compute_conj.
  apply (text_nodes_are_delimited_blocks src_style style_tokens (fst style_parsed)
           (snd style_parsed)); vm_compute; reflexivity.
Defined.

Lemma declaration_binds_the_stripped_text_witness :
  tokenize src_declaration = Ok declaration_tokens
  /\ token_at declaration_tokens (Parser.position Parser.init) = Some declaration_token
  /\ type declaration_token = VARIABLE_DECL
  /\ Lexer.value declaration_token = "$" ++ "c" ++ " " ++ "=" ++ " " ++ (dq ++ "red" ++ dq)
  /\ "c" <> ""
  /\ all_chars isword "c" = true
  /\ all_chars isspace " " = true
  /\ all_chars dot (dq ++ "red" ++ dq) = true
  /\ starts_without isspace (dq ++ "red" ++ dq) = true
  /\ _parse_variable_declaration declaration_tokens Parser.init
     = Return (VariableDeclaration "c" "red")
              (Parser.mkState 1 [("$c", "red")] [] []).
Proof.
  compute_conj. apply conj; [discriminate|]. compute_conj.
  apply (declaration_binds_the_stripped_text declaration_tokens Parser.init declaration_token
           "c" " " " " (dq ++ "red" ++ dq));
    try reflexivity; discriminate.
Defined.

End Witnesses.
